(** * Verification of the multi-agent translation pipeline

    A shallow embedding of the orchestration code of the repository
    (chunking, per-line fallback, quality scoring, human review selection,
    consistency enforcement, workflow guard, trace store and atom store,
    active-call accounting), followed by the theorems that settle the
    specification's claims against it.

    Conventions.
    - A Python [str] is a list of Unicode code points ([list N]).
    - A Python [int] is a [Z]; list lengths are [nat] and enter arithmetic
      through [Z.of_nat].
    - A Python [list] is a [list]; in-place updates by index use stdpp's
      [<[i:=x]>]; dictionaries that keep insertion order are association
      lists, the other ones are [gmap]s.
    - Objects that are mutated through several references (cache items)
      live in a heap indexed by locations.
    - Effects (LLM requests, database transactions) are state passing. *)

From Stdlib Require Import ZArith NArith Lia Bool PrimFloat.
From stdpp Require Import base list strings gmap.

Local Open Scope Z_scope.

(* ===================================================================== *)
(** * Part I: the embedding                                               *)
(* ===================================================================== *)

(** ** Python strings *)

Module PyStr.

Abbreviation str := (list N).

(** Literals: an ASCII literal is turned into its code points. *)
Definition of_ascii (s : string) : str :=
  map Ascii.N_of_ascii (String.list_ascii_of_string s).

(** [len(s)] *)
Definition len (s : str) : Z := Z.of_nat (length s).

(** Truth value of a string: [if s:] *)
Definition truthy (s : str) : bool :=
  match s with [] => false | _ :: _ => true end.

(** [s.startswith(p)] *)
Fixpoint starts_with (p s : str) : bool :=
  match p, s with
  | [], _ => true
  | a :: p', b :: s' => (a =? b)%N && starts_with p' s'
  | _ :: _, [] => false
  end.

(** [p in s] *)
Fixpoint contains (p s : str) : bool :=
  starts_with p s ||
  match s with
  | [] => false
  | _ :: s' => contains p s'
  end.

(** The code points for which [str.isspace] holds; these are also the
    code points matched by the regular expression class [\s]. *)
Definition is_space (c : N) : bool :=
  ((9 <=? c) && (c <=? 13) || (28 <=? c) && (c <=? 32) ||
   (c =? 133) || (c =? 160) || (c =? 5760) ||
   (8192 <=? c) && (c <=? 8202) ||
   (c =? 8232) || (c =? 8233) || (c =? 8239) || (c =? 8287) ||
   (c =? 12288))%N.

Fixpoint drop_while (f : N -> bool) (s : str) : str :=
  match s with
  | [] => []
  | c :: s' => if f c then drop_while f s' else s
  end.

(** [s.strip(chars)] for the set of code points recognised by [f] *)
Definition strip_by (f : N -> bool) (s : str) : str :=
  rev (drop_while f (rev (drop_while f s))).

(** [s.strip()] *)
Definition strip (s : str) : str := strip_by is_space s.

(** [s.strip(c)] for a one-character argument *)
Definition strip_char (c : N) (s : str) : str := strip_by (N.eqb c) s.

(** Left-to-right scan for non-overlapping matches of a pattern of width
    [w] (at least one); [m s] tells whether the pattern matches at the head
    of [s], and a match is replaced by [r] applied to the matched text.
    [skip] counts the code points of the current match still to be passed
    over.  This is the scan of [str.replace] and of [re.sub] for a pattern
    without metacharacters. *)
Fixpoint scan_replace (m : str -> bool) (w : nat) (r : str -> str)
  (skip : nat) (s : str) : str :=
  match s with
  | [] => []
  | c :: s' =>
    match skip with
    | S k => scan_replace m w r k s'
    | O =>
      if m s then r (take w s) ++ scan_replace m w r (w - 1) s'
      else c :: scan_replace m w r 0 s'
    end
  end.

(** [s.replace(old, new)] for a non-empty [old] *)
Definition replace (old new s : str) : str :=
  scan_replace (starts_with old) (length old) (fun _ => new) 0 s.

(** The pieces of [s.split(sep)] for a non-empty [sep]; [cur] is the
    piece being read, in reverse. *)
Fixpoint split_go (sep : str) (skip : nat) (cur : str) (s : str) : list str :=
  match s with
  | [] => [rev cur]
  | c :: s' =>
    match skip with
    | S k => split_go sep k cur s'
    | O =>
      if starts_with sep s then rev cur :: split_go sep (length sep - 1) [] s'
      else split_go sep 0 (c :: cur) s'
    end
  end.

Definition split (sep s : str) : list str := split_go sep 0 [] s.

(** [s.split(sep)[-1]] *)
Definition split_last (sep s : str) : str := List.last (split sep s) [].

(** Case folding, code point by code point, as regular expressions
    compiled with [re.IGNORECASE] compare characters; [lower_cp] stands
    for the folding of one code point and [ascii_lower_cp] is its
    restriction to the ASCII letters.  This is not [str.lower], which can
    change the length of a string; on ASCII text the two agree. *)
Definition ascii_lower_cp (c : N) : N :=
  if ((65 <=? c) && (c <=? 90))%N then (c + 32)%N else c.

Definition lower (lower_cp : N -> N) (s : str) : str := map lower_cp s.

End PyStr.

Import PyStr.

(** ** Chunker *)

Module Chunker.

(** *** [TerminologyEntityAgent._smart_chunk_by_chars] *)

Section SmartChunk.

Context {A : Type}.
Variable get_text_func : A -> str.
Variable max_chars : Z.

(** The three loop variables [chunks], [current_chunk], [chunk_chars]. *)
Record chunk_state := mk_chunk_state {
  chunks : list (list A);
  current_chunk : list A;
  chunk_chars : Z
}.

Definition nonempty {B : Type} (l : list B) : bool :=
  match l with [] => false | _ :: _ => true end.

(** One iteration of the [for item in items] loop. *)
Definition smart_step (st : chunk_state) (item : A) : chunk_state :=
  let text := get_text_func item in
  let text_length := len text in
  if max_chars <? text_length then
    (* an over-long text is a chunk of its own; the chunk being built is
       committed first *)
    let st1 :=
      if nonempty (current_chunk st)
      then mk_chunk_state (chunks st ++ [current_chunk st]) [] 0
      else st in
    mk_chunk_state (chunks st1 ++ [[item]]) (current_chunk st1) (chunk_chars st1)
  else
    let st1 :=
      if nonempty (current_chunk st) && (max_chars <? chunk_chars st + text_length)
      then mk_chunk_state (chunks st ++ [current_chunk st]) [] 0
      else st in
    mk_chunk_state (chunks st1) (current_chunk st1 ++ [item])
                   (chunk_chars st1 + text_length).

Definition smart_chunk_by_chars (items : list A) : list (list A) :=
  let st := fold_left smart_step items (mk_chunk_state [] [] 0) in
  if nonempty (current_chunk st)
  then chunks st ++ [current_chunk st]
  else chunks st.

(** Sum of the text lengths of a chunk. *)
Definition total_chars (c : list A) : Z :=
  foldr (fun x acc => len (get_text_func x) + acc) 0 c.

(** A chunk respects the budget, or is a single over-long item. *)
Definition chunk_ok (c : list A) : Prop :=
  total_chars c <= max_chars \/
  exists x, c = [x] /\ max_chars < len (get_text_func x).

End SmartChunk.

(** *** [TranslationRefinementAgent._prepare_translation_chunks] *)

Definition MAX_CHUNK_CHARS : Z := 6000.

(** [_generate_context_chunk(all_items, previous_count, start_idx)] *)
Definition generate_context_chunk {A : Type}
  (all_items : list A) (previous_count start_idx : Z) : list A :=
  if (previous_count <=? 0) || (start_idx <=? 0) then []
  else
    let from_idx := Z.max 0 (start_idx - previous_count) in
    let to_idx := start_idx in
    drop (Z.to_nat from_idx) (take (Z.to_nat to_idx) all_items).

Section Prepare.

Context {A : Type}.
Variable source_text : A -> str.
Variable token_count : A -> Z.
Variable is_untranslated : A -> bool.
(** [limit_type == "token"] *)
Variable limit_is_token : bool.
Variable previous_line_count : Z.

(** The accumulators of the function and the variables of the inner loop. *)
Record prep_state := mk_prep_state {
  p_chunks : list (list A);
  p_context_chunks : list (list A);
  p_file_paths : list str;
  p_current_chunk : list A;
  p_current_length : Z;
  p_chunk_start_idx : Z;
  p_chunk_chars : Z
}.

(** Commit the chunk being built together with its context window. *)
Definition prep_flush (items : list A) (file_path : str) (st : prep_state)
  : prep_state :=
  mk_prep_state
    (p_chunks st ++ [p_current_chunk st])
    (p_context_chunks st ++
       [generate_context_chunk items previous_line_count (p_chunk_start_idx st)])
    (p_file_paths st ++ [file_path])
    (p_current_chunk st) (p_current_length st)
    (p_chunk_start_idx st) (p_chunk_chars st).

(** One iteration of [for i, item in enumerate(items)]. *)
Definition prep_step (items : list A) (file_path : str)
  (st : prep_state) (i : nat) (item : A) : prep_state :=
  let item_length := if limit_is_token then token_count item else 1 in
  let source_text_length := len (source_text item) in
  let is_extreme_long := MAX_CHUNK_CHARS <? source_text_length in
  (* if not current_chunk: chunk_start_idx = i; chunk_chars = 0 *)
  let st0 :=
    if nonempty (p_current_chunk st) then st
    else mk_prep_state (p_chunks st) (p_context_chunks st) (p_file_paths st)
           (p_current_chunk st) (p_current_length st) (Z.of_nat i) 0 in
  if is_extreme_long then
    let st1 := if nonempty (p_current_chunk st0)
               then prep_flush items file_path st0 else st0 in
    mk_prep_state
      (p_chunks st1 ++ [[item]])
      (p_context_chunks st1 ++
         [generate_context_chunk items previous_line_count (Z.of_nat i)])
      (p_file_paths st1 ++ [file_path])
      [] 0 (-1) 0
  else
    let st1 :=
      if nonempty (p_current_chunk st0) &&
         (MAX_CHUNK_CHARS <? p_chunk_chars st0 + source_text_length)
      then
        let f := prep_flush items file_path st0 in
        mk_prep_state (p_chunks f) (p_context_chunks f) (p_file_paths f)
          [] 0 (Z.of_nat i) 0
      else st0 in
    mk_prep_state (p_chunks st1) (p_context_chunks st1) (p_file_paths st1)
      (p_current_chunk st1 ++ [item])
      (p_current_length st1 + item_length)
      (p_chunk_start_idx st1)
      (p_chunk_chars st1 + source_text_length).

Fixpoint prep_loop (items : list A) (file_path : str)
  (i : nat) (rest : list A) (st : prep_state) : prep_state :=
  match rest with
  | [] => st
  | item :: rest' =>
    prep_loop items file_path (S i) rest' (prep_step items file_path st i item)
  end.

(** The body of [for file_path, cache_file in cache_project.files.items()].
    The loop variables are re-initialised for every file; [chunk_chars] is
    assigned on the first iteration before it is read. *)
Definition prepare_file (acc : prep_state) (file : str * list A) : prep_state :=
  let file_path := file.1 in
  let items := filter (fun it => is_untranslated it = true) file.2 in
  if nonempty items then
    let st0 := mk_prep_state (p_chunks acc) (p_context_chunks acc)
                 (p_file_paths acc) [] 0 0 (p_chunk_chars acc) in
    let st := prep_loop items file_path 0 items st0 in
    if nonempty (p_current_chunk st)
    then prep_flush items file_path st
    else st
  else acc.

Definition prepare_translation_chunks (files : list (str * list A))
  : list (list A) * list (list A) * list str :=
  let st := fold_left prepare_file files (mk_prep_state [] [] [] [] 0 0 0) in
  (p_chunks st, p_context_chunks st, p_file_paths st).

(** The untranslated items of all files, in file order. *)
Definition untranslated_items (files : list (str * list A)) : list A :=
  concat (map (fun f => filter (fun it => is_untranslated it = true) f.2) files).

End Prepare.

End Chunker.

(** ** The trace store: [DatabaseManager.add_trace] *)

Module TraceStore.

(** A row of the table [agent_traces].  The two JSON columns are kept as
    their serialised text. *)
Record trace_row := mk_trace_row {
  trace_id : Z;
  atom_id : Z;
  agent_role : str;
  action_type : str;
  content : option str;
  quality_report : str;
  meta_data : str;
  input_tokens : Z;
  output_tokens : Z;
  is_active : bool
}.

(** The table and the sequence behind its [SERIAL] key. *)
Record db := mk_db {
  agent_traces : list trace_row;
  next_trace_id : Z
}.

(** [init_db] creates the table empty. *)
Definition empty_db : db := mk_db [] 1.

(** Where a statement of the transaction raises, if it does.  The
    [except] branch rolls the transaction back and returns [-1]; a value
    drawn from the sequence is not given back by a rollback. *)
Inductive db_fault :=
| NoFault
| FaultBeforeInsert
| FaultAfterInsert.

(** ['draft', 'refine', 'final', 'human_edit'] *)
Definition translation_actions : list str :=
  [of_ascii "draft"; of_ascii "refine"; of_ascii "final"; of_ascii "human_edit"].

Definition is_translation_action (action_type : str) : bool :=
  bool_decide (action_type ∈ translation_actions).

(** [UPDATE agent_traces SET is_active = FALSE
     WHERE atom_id = %s AND is_active = TRUE] *)
Definition deactivate (a : Z) (r : trace_row) : trace_row :=
  if (atom_id r =? a) && is_active r
  then mk_trace_row (trace_id r) (atom_id r) (agent_role r) (action_type r)
         (content r) (quality_report r) (meta_data r)
         (input_tokens r) (output_tokens r) false
  else r.

(** The arguments of one call. *)
Record trace_args := mk_trace_args {
  a_atom_id : Z;
  a_agent_role : str;
  a_action_type : str;
  a_content : option str;
  a_quality_report : str;
  a_meta_data : str;
  a_input_tokens : Z;
  a_output_tokens : Z
}.

(** [add_trace]: the new state of the database and the returned id. *)
Definition add_trace (fault : db_fault) (args : trace_args) (d : db) : db * Z :=
  let translation := is_translation_action (a_action_type args) in
  let rows1 :=
    if translation
    then map (deactivate (a_atom_id args)) (agent_traces d)
    else agent_traces d in
  match fault with
  | FaultBeforeInsert => (d, -1)
  | FaultAfterInsert => (mk_db (agent_traces d) (next_trace_id d + 1), -1)
  | NoFault =>
    let new_id := next_trace_id d in
    let row := mk_trace_row new_id (a_atom_id args) (a_agent_role args)
                 (a_action_type args) (a_content args)
                 (a_quality_report args) (a_meta_data args)
                 (a_input_tokens args) (a_output_tokens args) translation in
    (mk_db (rows1 ++ [row]) (next_trace_id d + 1), new_id)
  end.

(** A history of calls, each transaction run to its end before the next
    one starts. *)
Definition run (calls : list (db_fault * trace_args)) (d : db) : db :=
  fold_left (fun d c => (add_trace c.1 c.2 d).1) calls d.

(** The active rows of an atom. *)
Definition active_traces (a : Z) (d : db) : list trace_row :=
  filter (fun r => atom_id r = a /\ is_active r = true) (agent_traces d).

(** [get_active_translation]'s row set has at most one element. *)
Definition at_most_one_active (d : db) : Prop :=
  forall a, (length (active_traces a d) <= 1)%nat.

End TraceStore.

(** ** Active-call accounting: [_llm_request_with_tracking] *)

Module Tracking.

(** Modelled from the spec: the class of [stats_data] (with its
    [atomic_scope] and [to_dict]) is not among the sources; the
    specification describes it as counters updated under a single mutex,
    every update followed by the publication of a snapshot.  Of its
    counters only [active_llm_calls] is written by the code modelled here.
    [published] is the sequence of snapshots sent with [TASK_UPDATE], each
    represented by its [active_llm_calls]. *)
Record stats := mk_stats {
  active_llm_calls : Z;
  published : list Z
}.

(** The updates made under [atomic_scope], each followed by the emission
    of the snapshot taken inside the scope. *)
Inductive event :=
| Enter     (* active_llm_calls += 1 *)
| Leave     (* active_llm_calls = max(0, active_llm_calls - 1) *)
| Publish.  (* a snapshot sent by another statistics update *)

Definition step (s : stats) (e : event) : stats :=
  let c :=
    match e with
    | Enter => active_llm_calls s + 1
    | Leave => Z.max 0 (active_llm_calls s - 1)
    | Publish => active_llm_calls s
    end in
  mk_stats c (published s ++ [c]).

(** Atomic updates run one after the other, whatever thread issues them. *)
Definition exec (events : list event) (s : stats) : stats :=
  fold_left step events s.

(** What [llm_requester.sent_request] does: it returns its tuple or raises. *)
Inductive outcome (R : Type) :=
| Returned (r : R)
| Raised (exn : str).
Arguments Returned {R} r.
Arguments Raised {R} exn.

(** [_llm_request_with_tracking].  [tracked] is false when there is no
    cache project or no statistics object; then the request is sent with
    no accounting.  Otherwise the counter is raised and published, the
    request is sent, and the [finally] block lowers and publishes the
    counter whether the request returned or raised.  [others] are the
    atomic updates of other threads that run while the request is in
    flight. *)
Definition llm_request_with_tracking {R : Type} (tracked : bool)
  (sent_request : outcome R) (others : list event) (s : stats)
  : stats * outcome R :=
  if negb tracked then (s, sent_request)
  else
    let s1 := step s Enter in
    let s2 := exec others s1 in
    let s3 := step s2 Leave in
    (s3, sent_request).

End Tracking.

(** ** The workflow guard: [WorkflowManager.execute_workflow] *)

Module Workflow.

(** The entries of the shared state read after the run.  An entry may be
    absent or hold [None]. *)
Record workflow_state (P T : Type) := mk_workflow_state {
  ws_cache_project : option P;
  ws_did_translate : option bool;
  ws_translation_results : option (list T);
  ws_terminology_count : Z;
  ws_metadata : str
}.
Arguments mk_workflow_state {P T}.
Arguments ws_cache_project {P T}.
Arguments ws_did_translate {P T}.
Arguments ws_translation_results {P T}.
Arguments ws_terminology_count {P T}.
Arguments ws_metadata {P T}.

(** The dictionary returned on success or when the workflow was never
    initialised. *)
Record workflow_result (P : Type) := mk_workflow_result {
  success : bool;
  cache_project : P;
  stages : option (str * Z * Z)
}.
Arguments mk_workflow_result {P}.
Arguments success {P}.
Arguments cache_project {P}.
Arguments stages {P}.

(** The exceptions that leave the function. *)
Inductive exn :=
| NoValidTranslation (did_translate : bool) (translated_count : Z)
| Other (detail : str)
| WorkflowFailed (cause : exn).

Inductive result (A : Type) :=
| Return (a : A)
| Raise (e : exn).
Arguments Return {A} a.
Arguments Raise {A} e.

(** What the body of the [try] block does up to the end of
    [griptape_workflow.run]: it raises, or it completes and leaves the
    shared state. *)
Inductive run_outcome (P T : Type) :=
| RunRaised (detail : str)
| RunCompleted (st : workflow_state P T).
Arguments RunRaised {P T} detail.
Arguments RunCompleted {P T} st.

(** [bool(state.get("did_translate"))] *)
Definition did_translate {P T} (st : workflow_state P T) : bool :=
  match ws_did_translate st with Some b => b | None => false end.

(** [len(state.get("translation_results", []) or [])] *)
Definition translated_count {P T} (st : workflow_state P T) : Z :=
  match ws_translation_results st with
  | Some l => Z.of_nat (length l)
  | None => 0
  end.

Definition execute_workflow {P T : Type} (initialised : bool)
  (cache : P) (run : run_outcome P T) : result (workflow_result P) :=
  let workflow_result := mk_workflow_result false cache None in
  if negb initialised then Return workflow_result
  else
    match run with
    | RunRaised detail => Raise (WorkflowFailed (Other detail))
    | RunCompleted st =>
      let updated_cache_project :=
        match ws_cache_project st with Some p => p | None => cache end in
      if did_translate st && (0 <? translated_count st) then
        Return (mk_workflow_result true updated_cache_project
                  (Some (ws_metadata st, ws_terminology_count st,
                         translated_count st)))
      else
        (* the [RuntimeError] raised in the [else] branch is caught by the
           enclosing [except Exception] and raised again, chained *)
        Raise (WorkflowFailed
                 (NoValidTranslation (did_translate st) (translated_count st)))
    end.

End Workflow.

(** ** The atom store: [DatabaseManager.create_atoms_batch] *)

Module AtomStore.

(** A row of [processing_atoms]; the columns not written by the batch
    insert keep their defaults and are left out. *)
Record atom_row := mk_atom_row {
  atom_id : Z;
  doc_id : Z;
  source_text : str;
  source_hash : str;
  position : Z;
  summary : str;
  context_info : str
}.

Record db := mk_db {
  processing_atoms : list atom_row;
  next_atom_id : Z
}.

Definition empty_db : db := mk_db [] 1.

(** An element of the argument [atoms]: a dictionary whose keys may be
    absent. *)
Record atom_dict := mk_atom_dict {
  d_source_text : option str;
  d_position : option Z;
  d_summary : option str;
  d_context_info : option str
}.

Section CreateAtoms.

(** [hashlib.md5(s.encode()).hexdigest()] *)
Variable md5_hex : str -> str.

(** The tuples of [values], with the ids the sequence gives them: the
    rows are inserted in the order of the argument list. *)
Fixpoint new_rows (doc : Z) (next : Z) (idx : Z) (atoms : list atom_dict)
  : list atom_row :=
  match atoms with
  | [] => []
  | atom :: atoms' =>
    let source_text := default [] (d_source_text atom) in
    let source_hash := md5_hex source_text in
    let position := default idx (d_position atom) in
    let summary := default [] (d_summary atom) in
    let context_info := default (of_ascii "{}") (d_context_info atom) in
    mk_atom_row next doc source_text source_hash position summary context_info
    :: new_rows doc (next + 1) (idx + 1) atoms'
  end.

(** [ORDER BY position]: rows with equal positions are kept in the order
    of the table (the database is free to return them in any order). *)
Fixpoint insert_by_position (r : atom_row) (l : list atom_row) : list atom_row :=
  match l with
  | [] => [r]
  | r' :: l' =>
    if position r' <? position r then r' :: insert_by_position r l'
    else r :: l
  end.

Definition order_by_position (l : list atom_row) : list atom_row :=
  foldr insert_by_position [] l.

(** [SELECT atom_id FROM processing_atoms WHERE doc_id = %s ORDER BY position] *)
Definition select_atom_ids (doc : Z) (d : db) : list Z :=
  map atom_id
    (order_by_position (filter (fun r => doc_id r = doc) (processing_atoms d))).

(** [ids[-n:]] for a positive [n] *)
Definition last_n {B : Type} (n : nat) (l : list B) : list B :=
  drop (length l - n) l.

(** [create_atoms_batch]; [fault] tells whether a statement raises, in
    which case the transaction is rolled back and [[]] is returned. *)
Definition create_atoms_batch (fault : bool) (doc : Z)
  (atoms : list atom_dict) (d : db) : db * list Z :=
  match atoms with
  | [] => (d, [])
  | _ :: _ =>
    if fault then (d, [])
    else
      let rows := new_rows doc (next_atom_id d) 0 atoms in
      let d' := mk_db (processing_atoms d ++ rows)
                      (next_atom_id d + Z.of_nat (length atoms)) in
      let atom_ids := select_atom_ids doc d' in
      (d', last_n (length atoms) atom_ids)
  end.

(** The ids of the rows the call creates, in the order of its argument. *)
Definition created_ids (atoms : list atom_dict) (d : db) : list Z :=
  map atom_id (new_rows 0 (next_atom_id d) 0 atoms).

End CreateAtoms.

End AtomStore.

(** ** Human review selection: [_unified_human_review] *)

Module Review.

(** The entries of a chunk's result dictionary read by the review. *)
Record chunk_data := mk_chunk_data {
  source_texts : list str;
  translated_texts : list str;
  quality_scores : list float;
  back_translations : list str;
  (** [row_index] of the items of [chunk_items] *)
  chunk_row_indices : list Z;
  file_path : str
}.

(** An element of [all_scores_with_index]. *)
Record scored_line := mk_scored_line {
  global_index : nat;
  chunk_idx : nat;
  local_idx : nat;
  score : float;
  source_text : str;
  translated_text : str;
  back_translation : str;
  line_file_path : str;
  row_index : Z
}.

(** An element of [review_items]. *)
Record review_item := mk_review_item {
  r_index : nat;
  r_chunk_idx : nat;
  r_local_idx : nat;
  r_source_text : str;
  r_translated_text : str;
  r_back_translation : str;
  r_score : float;
  r_context_before : str;
  r_context_after : str;
  r_file_path : str;
  r_row_index : Z
}.

(** [zip(source_texts, translated_texts, quality_scores, back_translations)] *)
Fixpoint zip4 (a : list str) (b : list str) (c : list float) (d : list str)
  : list (str * str * float * str) :=
  match a, b, c, d with
  | x :: a', y :: b', z :: c', w :: d' => (x, y, z, w) :: zip4 a' b' c' d'
  | _, _, _, _ => []
  end.

(** The inner loop over the lines of one chunk; [g] is [global_index]. *)
Fixpoint collect_lines (cd : chunk_data) (ci : nat) (g : nat) (li : nat)
  (lines : list (str * str * float * str)) : list scored_line :=
  match lines with
  | [] => []
  | (src, trans, sc, back) :: rest =>
    let row := match chunk_row_indices cd !! li with
               | Some r => r
               | None => -1
               end in
    mk_scored_line g ci li sc src trans back (file_path cd) row
    :: collect_lines cd ci (S g) (S li) rest
  end.

(** The outer loop over the chunks. *)
Fixpoint collect_chunks (chunks : list chunk_data) (ci : nat) (g : nat)
  : list scored_line :=
  match chunks with
  | [] => []
  | cd :: rest =>
    let lines := collect_lines cd ci g 0
                   (zip4 (source_texts cd) (translated_texts cd)
                         (quality_scores cd) (back_translations cd)) in
    lines ++ collect_chunks rest (S ci) (g + length lines)
  end.

(** [list.sort(key=lambda x: x["score"])]: the sort is stable and compares
    keys with [<]. *)
Fixpoint insert_by_score (x : scored_line) (l : list scored_line)
  : list scored_line :=
  match l with
  | [] => [x]
  | y :: l' =>
    if PrimFloat.ltb (score y) (score x) then y :: insert_by_score x l'
    else x :: l
  end.

Definition sort_by_score (l : list scored_line) : list scored_line :=
  foldr insert_by_score [] l.

(** The review item of a selected line.  The context is read from
    [all_scores_with_index] after it has been sorted, at the positions next
    to the line's global index. *)
Definition make_review_item (sorted : list scored_line) (item : scored_line)
  : review_item :=
  let global_idx := global_index item in
  let context_before :=
    if (0 <? global_idx)%nat
    then match sorted !! (global_idx - 1)%nat with
         | Some l => source_text l
         | None => []
         end
    else [] in
  let context_after :=
    if (global_idx <? length sorted - 1)%nat
    then match sorted !! (global_idx + 1)%nat with
         | Some l => source_text l
         | None => []
         end
    else [] in
  mk_review_item global_idx (chunk_idx item) (local_idx item)
    (source_text item) (translated_text item) (back_translation item)
    (score item) context_before context_after
    (line_file_path item) (row_index item).

(** The batch handed to the human-intervention callback together with the
    threshold, or [None] when the review is skipped. *)
Definition review_batch (enable_human_review has_callback : bool)
  (review_threshold : float) (all_chunks_data : list chunk_data)
  : option (list review_item * float) :=
  if negb enable_human_review || negb has_callback then None
  else
    let all_scores_with_index :=
      sort_by_score (collect_chunks all_chunks_data 0 0) in
    let lowest_3 :=
      take (Nat.min 3 (length all_scores_with_index)) all_scores_with_index in
    Some (map (make_review_item all_scores_with_index) lowest_3,
          review_threshold).

End Review.

(** ** Quality estimation: [_batch_estimate_quality] *)

Module Quality.

(** The outcome of the request for the scores. *)
Inductive llm_reply :=
| LimiterTimeout
| RequestRaised
| Reply (skip : bool) (response_content : option str).

Definition DEFAULT_SCORE : float := 8%float.

(** ['评分：'], ['评分:'], ['score：'], ['score:'], ['分'], ['/10'] *)
Definition label_zh_wide : str := [35780; 20998; 65306]%N.
Definition label_zh : str := [35780; 20998; 58]%N.
Definition label_en_wide : str := [115; 99; 111; 114; 101; 65306]%N.
Definition label_en : str := [115; 99; 111; 114; 101; 58]%N.
Definition fen : str := [20998]%N.
Definition slash_ten : str := [47; 49; 48]%N.

Section Estimate.

(** [str.lower]: any function on strings; Python's can change the length
    of a string. *)
Variable py_lower : str -> str.
(** [float(s)]; [None] stands for [ValueError]. *)
Variable py_float : str -> option float.
(** [_extract_by_line_number]: the reply as a map from line index to text. *)
Variable extract_by_line_number : str -> gmap nat str.

(** The text after the score label. *)
Definition score_text (raw_response : str) : str :=
  if contains label_zh_wide raw_response
  then strip (split_last label_zh_wide raw_response)
  else if contains label_zh raw_response
  then strip (split_last label_zh raw_response)
  else if contains label_en_wide (py_lower raw_response)
  then strip (split_last label_en_wide (py_lower raw_response))
  else if contains label_en (py_lower raw_response)
  then strip (split_last label_en (py_lower raw_response))
  else raw_response.

(** The statements of the [try] block up to [float(score_str)]; [None]
    stands for the [ValueError] raised by the code or by [float]. *)
Definition parse_score (raw_response : str) : option float :=
  let score_str := score_text raw_response in
  let score_str :=
    strip (replace [32%N] [] (replace slash_ten [] (replace fen [] score_str))) in
  if negb (truthy score_str) || starts_with [46%N] score_str then None
  else
    let score_str :=
      if contains [46%N] score_str then score_str
      else score_str ++ of_ascii ".0" in
    py_float score_str.

(** [score < 1.0 or score > 10.0] *)
Definition out_of_range (score : float) : bool :=
  PrimFloat.ltb score 1%float || PrimFloat.ltb 10%float score.

(** The body of [for i in range(len(source_texts))]: the score appended to
    [quality_scores] and the flag appended to [needs_refinement]. *)
Definition score_line (entry : option str) : float * bool :=
  match entry with
  | Some text =>
    let raw_response := strip text in
    match parse_score raw_response with
    | Some score =>
      let score := if out_of_range score then DEFAULT_SCORE else score in
      (score, PrimFloat.ltb score 7%float)
    | None => (DEFAULT_SCORE, false)
    end
  | None => (DEFAULT_SCORE, false)
  end.

(** [_batch_estimate_quality] for [n = len(source_texts)]; the three lists
    it is given hold strings, so that the prompt can be built. *)
Definition batch_estimate_quality (n : nat) (reply : llm_reply)
  : list bool * list float :=
  let defaults := (replicate n false, replicate n DEFAULT_SCORE) in
  match reply with
  | LimiterTimeout => defaults
  | RequestRaised => defaults
  | Reply skip (Some response_content) =>
    if negb skip && truthy response_content then
      let extracted_map := extract_by_line_number response_content in
      if bool_decide (extracted_map <> ∅) then
        let results := map (fun i => score_line (extracted_map !! i)) (seq 0 n) in
        (map snd results, map fst results)
      else defaults
    else defaults
  | Reply _ None => defaults
  end.

End Estimate.

End Quality.

(** ** Per-line fallback and the commit to the cache *)

Module Fallback.

(** ["[翻译失败]"] *)
Definition FAILED_MARKER : str := [91; 32763; 35793; 22833; 36133; 93]%N.

(** What happens to one single-line request: the rate limiter gives up,
    the request (or the handling of its reply) raises, or the client
    returns its reply. *)
Inductive llm_reply :=
| LimiterTimeout
| RequestRaised
| Reply (skip : bool) (response_content : option str).

(** Single-line requests are counted: the state threaded through the code
    is the log of the source texts for which [_translate_single_line] was
    called so far. *)
Definition M (A : Type) : Type := list str -> A * list str.

Definition ret {A : Type} (a : A) : M A := fun log => (a, log).

Definition bind {A B : Type} (m : M A) (f : A -> M B) : M B :=
  fun log => let (a, log') := m log in f a log'.

Notation "'do' x <- m ; k" := (bind m (fun x => k))
  (at level 10, x name, m at level 100, k at level 200).

Section WithClient.

(** The outcome of the [n]-th single-line request of a run, which is sent
    for the given source text.  The prompt also carries the context lines,
    the strategy and the terminology; the outcome is arbitrary anyway. *)
Variable llm : nat -> str -> llm_reply.

(** [_translate_single_line] *)
Definition translate_single_line (source_text : str) : M (option str) :=
  fun log =>
    let result :=
      match llm (length log) source_text with
      | LimiterTimeout => None
      | RequestRaised => None
      | Reply skip (Some response_content) =>
        if negb skip && truthy response_content then
          let translation :=
            strip_char 39 (strip_char 34 (strip response_content)) in
          if truthy translation then Some translation else None
        else None
      | Reply _ None => None
      end in
    (result, log ++ [source_text]).

(** [_fallback_translate_one_by_one] *)
Fixpoint fallback_translate_one_by_one (source_texts : list str)
  : M (list str) :=
  match source_texts with
  | [] => ret []
  | source_text :: rest =>
    do translation <- translate_single_line source_text;
    let text :=
      match translation with
      | Some t => if truthy t then t else FAILED_MARKER ++ source_text
      | None => FAILED_MARKER ++ source_text
      end in
    do texts <- fallback_translate_one_by_one rest;
    ret (text :: texts)
  end.

(** [len(src) > 100 and len(trans) < len(src) * 0.3].  The product is a
    float; for lengths below 2^50 the comparison holds exactly when
    [10 * len(trans) < 3 * len(src)]. *)
Definition truncated (src trans : str) : bool :=
  (100 <? len src) && (10 * len trans <? 3 * len src).

(** [not trans or trans.strip() == ''] *)
Definition blank (trans : str) : bool :=
  negb (truthy trans) || negb (truthy (strip trans)).

(** The indices collected in [problem_indices]. *)
Fixpoint problem_indices (i : nat) (pairs : list (str * str)) : list nat :=
  match pairs with
  | [] => []
  | (src, trans) :: rest =>
    if blank trans then i :: problem_indices (S i) rest
    else if truncated src trans then i :: problem_indices (S i) rest
    else problem_indices (S i) rest
  end.

(** The loop over [problem_indices]: each such line is translated on its
    own; [translated_texts[i]] is assigned the result, or the marked source
    text when the result is empty. *)
Fixpoint retry_problems (source_texts : list str) (indices : list nat)
  (translated_texts : list str) : M (list str) :=
  match indices with
  | [] => ret translated_texts
  | i :: rest =>
    let src := default [] (source_texts !! i) in
    do single_translation <- translate_single_line src;
    let text :=
      match single_translation with
      | Some t =>
        if truthy t && truthy (strip t) then t else FAILED_MARKER ++ src
      | None => FAILED_MARKER ++ src
      end in
    retry_problems source_texts rest (<[i := text]> translated_texts)
  end.

(** Step 1 of [_translate_chunk], from the result of the batch request to
    the final check of the line count.  [None] is the return of
    [{"success": False}]. *)
Definition translate_chunk_step1 (source_texts : list str)
  (batch : option (list str)) : M (option (list str)) :=
  let chunk_size := length source_texts in
  let is_truthy (t : option (list str)) :=
    match t with Some (_ :: _) => true | _ => false end in
  (* a translation with a wrong number of lines: the whole chunk again,
     line by line *)
  do translated_texts <-
    (match batch with
     | Some l =>
       if is_truthy batch && negb (length l =? chunk_size)%nat
       then (do r <- fallback_translate_one_by_one source_texts; ret (Some r))
       else ret batch
     | None => ret batch
     end);
  do translated_texts <-
    (if negb (is_truthy translated_texts)
     then fallback_translate_one_by_one source_texts
     else
       let l := default [] translated_texts in
       let l := l ++ replicate (chunk_size - length l) [] in
       let problems :=
         problem_indices 0 (zip (take chunk_size source_texts)
                                (take chunk_size l)) in
       retry_problems source_texts problems l);
  if (length translated_texts =? chunk_size)%nat
  then ret (Some translated_texts)
  else ret None.

End WithClient.

(** *** The cache items and their commit *)

(** Modelled from the spec: the enumeration [TranslationStatus] is declared
    in [ModuleFolders.Cache.CacheItem], which is not among the sources; the
    code names its members [UNTRANSLATED] and [TRANSLATED], and the
    specification lists [translationStatus] among the attributes of an
    item.  Any further member is an [OtherStatus]. *)
Inductive TranslationStatus :=
| UNTRANSLATED
| TRANSLATED
| OtherStatus (code : N).

#[export] Instance TranslationStatus_eq_dec : EqDecision TranslationStatus.
Proof. solve_decision. Defined.

(** Modelled from the spec: the class [CacheItem] is declared in the same
    missing module; these are the attributes the translation agent reads
    and writes, which the specification lists for an item. *)
Record CacheItem := mk_cache_item {
  source_text : str;
  translated_text : str;
  translation_status : TranslationStatus;
  token_count : Z;
  row_index : Z
}.

(** Items are objects shared between the project's files and the chunks:
    a chunk holds references to the items of a file. *)
Abbreviation loc := nat.
Abbreviation heap := (gmap nat CacheItem).

(** [_update_cache_item] *)
Definition update_cache_item (item : loc) (text : str) (h : heap) : heap :=
  alter (fun it => mk_cache_item (source_text it) text TRANSLATED
                     (token_count it) (row_index it)) item h.

(** [for item, translated_text in zip(chunk, translated_texts):
       if translated_text: self._update_cache_item(item, translated_text)] *)
Definition commit_chunk (chunk : list loc) (translated_texts : list str)
  (h : heap) : heap :=
  fold_left
    (fun h p => if truthy p.2 then update_cache_item p.1 p.2 h else h)
    (zip chunk translated_texts) h.

(** [item.translation_status == TranslationStatus.UNTRANSLATED] *)
Definition is_untranslated (h : heap) (item : loc) : bool :=
  match h !! item with
  | Some it => bool_decide (translation_status it = UNTRANSLATED)
  | None => false
  end.

(** The items a later run selects for translation:
    [[item for item in cache_file.items
       if item.translation_status == TranslationStatus.UNTRANSLATED]] *)
Definition select_untranslated (h : heap) (items : list loc) : list loc :=
  filter (fun item => is_untranslated h item = true) items.

(** [[item.source_text for item in chunk]] *)
Definition chunk_source_texts (h : heap) (chunk : list loc) : list str :=
  map (fun item => match h !! item with
                   | Some it => source_text it
                   | None => []
                   end) chunk.

End Fallback.

(** ** Stage B: [_check_entity_consistency] *)

Module Consistency.

(** A value stored in a dictionary of the terminology table: a string, or
    another value, of which the code uses the truth value and the text
    given by [str]. *)
Inductive value :=
| Str (s : str)
| Other (truth : bool) (text : str).

(** A value of the terminology table: the code skips values that are not
    dictionaries and reads the keys ["term"] and ["translation"] of the
    others, either of which may be absent or [None]. *)
Inductive term_info :=
| NotADict
| TermInfo (term : option value) (translation : option value).

(** An entry of [inconsistency_details].  The two entries computed by
    [_find_actual_entity_rendering] only feed the log and are left out. *)
Record detail := mk_detail {
  d_line : nat;
  d_entity : str;
  d_expected : str;
  d_source : str;
  d_translation : str
}.

(** The variables shared by all lines: the report, the two counters and
    the entity database (translation and number of occurrences). *)
Record check_state := mk_check_state {
  inconsistency_details : list detail;
  entities_verified : nat;
  entities_auto_fixed : nat;
  entity_database : gmap str (str * nat)
}.

(** [str(a or b)], [a] coming from [dict.get] and [b] being a string. *)
Definition or_else (a : option value) (b : str) : str :=
  match a with
  | Some (Str s) => if truthy s then s else b
  | Some (Other truth text) => if truth then text else b
  | None => b
  end.

(** [d[k] = v] on a dictionary kept in insertion order. *)
Fixpoint dict_set (k v : str) (d : list (str * str)) : list (str * str) :=
  match d with
  | [] => [(k, v)]
  | (k', v') :: d' =>
    if bool_decide (k' = k) then (k, v) :: d'
    else (k', v') :: dict_set k v d'
  end.

(** [s[:80] + "..." if len(s) > 80 else s] *)
Definition abbreviate (s : str) : str :=
  if 80 <? len s then take 80 s ++ of_ascii "..." else s.

Section Check.

(** [str.lower]: any function on strings.  Python's is not a mapping of
    the code points one by one: it can change the length of a string. *)
Variable py_lower : str -> str.
(** The comparison of a character of an escaped pattern with a character
    of the text by a regular expression compiled with [re.IGNORECASE]. *)
Variable ci_eq : N -> N -> bool.
(** The two substitutions that remove Markdown emphasis:
    [re.sub(r"\*{1,2}(.+?)\*{1,2}", r"\1", s)] and
    [re.sub(r"_{1,2}(.+?)_{1,2}", r"\1", s)]. *)
Variable unstar : str -> str.
Variable ununderscore : str -> str.
(** The replacement template of [re.sub] when it contains a backslash:
    the function from the matched text to its replacement, or [None] when
    the template is rejected ([re.error]). *)
Variable escaped_template : str -> option (str -> str).

(** [a.lower() in b.lower()] *)
Definition ci_contains (a b : str) : bool :=
  contains (py_lower a) (py_lower b).

(** [re.sub(r'[\s\-–—]+', '', s)] *)
Definition is_separator (c : N) : bool :=
  (is_space c || (c =? 45) || (c =? 8211) || (c =? 8212))%N.

Definition normalize (s : str) : str :=
  List.filter (fun c => negb (is_separator c)) s.

(** [normalized_translation in normalized_text or
     expected_translation.lower() in corrected_text.lower()] *)
Definition translation_present (expected text : str) : bool :=
  contains (normalize (py_lower expected))
           (normalize (py_lower text))
  || ci_contains expected text.

(** [re.compile(re.escape(entity), re.IGNORECASE)] matching at the head of
    a text: every character of the entity is compared with one character
    of the text. *)
Fixpoint matches_at (entity s : str) : bool :=
  match entity, s with
  | [], _ => true
  | a :: entity', b :: s' => ci_eq a b && matches_at entity' s'
  | _ :: _, [] => false
  end.

(** [list(entity_pattern.finditer(source_text))] is not empty: the
    pattern matches at some position of the source text. *)
Fixpoint finds (entity source_text : str) : bool :=
  matches_at entity source_text ||
  match source_text with
  | [] => false
  | _ :: s' => finds entity s'
  end.

(** A template without a backslash stands for itself. *)
Definition compile_template (repl : str) : option (str -> str) :=
  if existsb (N.eqb 92) repl then escaped_template repl
  else Some (fun _ => repl).

(** [re.sub(re.escape(entity), repl, text, flags=re.IGNORECASE)];
    [None] stands for the exception raised for a rejected template. *)
Definition re_sub_ci (entity repl text : str) : option str :=
  match compile_template repl with
  | None => None
  | Some r => Some (scan_replace (matches_at entity) (length entity) r 0 text)
  end.

(** *** The entity mapping *)

Definition mapping_entry (k : str) (info : term_info) : option (str * str) :=
  match info with
  | NotADict => None
  | TermInfo t tr =>
    let raw_term := or_else t (or_else (Some (Str k)) []) in
    let raw_translation := or_else tr [] in
    let term := strip raw_term in
    let translation := strip raw_translation in
    if negb (truthy term) || negb (truthy translation) then None
    else
      let translation := strip (unstar translation) in
      let translation := strip (ununderscore translation) in
      if negb (truthy translation) then None
      else Some (term, translation)
  end.

Definition build_entity_mappings (terminology_db : list (str * term_info))
  : list (str * str) :=
  fold_left
    (fun m e =>
       match mapping_entry e.1 e.2 with
       | Some (term, translation) => dict_set term translation m
       | None => m
       end)
    terminology_db [].

(** *** One entity on one line *)

(** The update of [entity_database] for a verified entity. *)
Definition count_occurrence (entity expected : str)
  (db : gmap str (str * nat)) : gmap str (str * nat) :=
  match db !! entity with
  | None => <[entity := (expected, 1%nat)]> db
  | Some (tr, n) => <[entity := (tr, S n)]> db
  end.

(** The attempt at an automatic correction: the rewritten text when the
    substitution changed the line. *)
Definition auto_fix (entity expected corrected_text : str) : option str :=
  if truthy expected && negb (bool_decide (expected = entity)) then
    match re_sub_ci entity expected corrected_text with
    | Some new_text =>
      if bool_decide (new_text <> corrected_text) then Some new_text else None
    | None => None
    end
  else None.

(** The body of [for entity, expected_translation in entity_mappings.items()]
    on the line of index [line_idx]; the state is the shared variables and
    [corrected_text].  The guard compares the lowered strings; the search
    in the source text, further down, is the regular expression's, and
    when it finds nothing the pair leaves the line as it is and reports
    nothing. *)
Definition check_entity (line_idx : nat) (source_text : str)
  (st : check_state * str) (e : str * str) : check_state * str :=
  let entity := e.1 in
  let expected_translation := e.2 in
  let gs := st.1 in
  let corrected_text := st.2 in
  if ci_contains entity source_text then
    if translation_present expected_translation corrected_text then
      (mk_check_state (inconsistency_details gs)
         (S (entities_verified gs)) (entities_auto_fixed gs)
         (count_occurrence entity expected_translation (entity_database gs)),
       corrected_text)
    else
      match auto_fix entity expected_translation corrected_text with
      | Some new_text =>
        (mk_check_state (inconsistency_details gs)
           (S (entities_verified gs)) (S (entities_auto_fixed gs))
           (entity_database gs),
         new_text)
      | None =>
        if finds entity source_text then
          (mk_check_state
             (inconsistency_details gs ++
                [mk_detail (line_idx + 1) entity expected_translation
                   (abbreviate source_text) (abbreviate corrected_text)])
             (entities_verified gs) (entities_auto_fixed gs)
             (entity_database gs),
           corrected_text)
        else (gs, corrected_text)
      end
  else st.

(** The body of the loop over the lines. *)
Definition check_line (mappings : list (str * str)) (gs : check_state)
  (line_idx : nat) (source_text translated_text : str) : check_state * str :=
  if negb (truthy translated_text) then (gs, translated_text)
  else fold_left (check_entity line_idx source_text) mappings
         (gs, translated_text).

Fixpoint check_lines (mappings : list (str * str)) (gs : check_state)
  (line_idx : nat) (lines : list (str * str)) : check_state * list str :=
  match lines with
  | [] => (gs, [])
  | (source_text, translated_text) :: rest =>
    let r := check_line mappings gs line_idx source_text translated_text in
    let rs := check_lines mappings r.1 (S line_idx) rest in
    (rs.1, r.2 :: rs.2)
  end.

(** [_check_entity_consistency]: the corrected texts and the shared
    variables at the end, among them the report of the inconsistencies
    that remain. *)
Definition check_entity_consistency
  (terminology_db : list (str * term_info))
  (entity_database0 : gmap str (str * nat))
  (source_texts translated_texts : list str) : list str * check_state :=
  let entity_mappings := build_entity_mappings terminology_db in
  let gs0 := mk_check_state [] 0 0 entity_database0 in
  match entity_mappings with
  | [] => (translated_texts, gs0)
  | _ :: _ =>
    let r := check_lines entity_mappings gs0 0 (zip source_texts translated_texts) in
    (r.2, r.1)
  end.

(** The text of a line after the pairs [pairs] have been processed. *)
Definition running_text (pairs : list (str * str))
  (source_text translated_text : str) : str :=
  (check_line pairs (mk_check_state [] 0 0 ∅) 0 source_text translated_text).2.

(** The line of (one-based) number [line] is in the report for the pair. *)
Definition reported (line : nat) (entity expected : str) (gs : check_state)
  : Prop :=
  exists d, d ∈ inconsistency_details gs /\
            d_line d = line /\ d_entity d = entity /\ d_expected d = expected.

End Check.

End Consistency.

(** ** The planner: [PlanningAgent] *)

Module Planner.

(** *** [_analyze_chunks_and_assign_strategies] *)

Section Analyze.

Context {A S : Type}.
Variable source_text : A -> str.
Variable token_count : A -> Z.
Variable is_untranslated : A -> bool.
(** [limit_type == "token"] *)
Variable limit_is_token : bool.
(** [_analyze_chunk_strategy(chunk, chunk_index)] *)
Variable analyze_chunk_strategy : list A -> Z -> S.

(** The accumulators [chunk_strategies], [chunk_index] and the variables of
    the inner loop. *)
Record plan_state := mk_plan_state {
  chunk_strategies : list S;
  chunk_index : Z;
  current_chunk : list A;
  current_length : Z;
  chunk_chars : Z
}.

(** [strategy_info = self._analyze_chunk_strategy(chunk, chunk_index);
     chunk_strategies.append(strategy_info); chunk_index += 1] *)
Definition assign (chunk : list A) (st : plan_state) : plan_state :=
  mk_plan_state
    (chunk_strategies st ++ [analyze_chunk_strategy chunk (chunk_index st)])
    (chunk_index st + 1)
    (current_chunk st) (current_length st) (chunk_chars st).

(** One iteration of [for item in items]. *)
Definition plan_step (st : plan_state) (item : A) : plan_state :=
  let item_length := if limit_is_token then token_count item else 1 in
  let source_text_length := len (source_text item) in
  let is_extreme_long := Chunker.MAX_CHUNK_CHARS <? source_text_length in
  if is_extreme_long then
    let st1 := if Chunker.nonempty (current_chunk st)
               then assign (current_chunk st) st else st in
    let st2 := assign [item] st1 in
    mk_plan_state (chunk_strategies st2) (chunk_index st2) [] 0 0
  else
    let st1 :=
      if Chunker.nonempty (current_chunk st) &&
         (Chunker.MAX_CHUNK_CHARS <? chunk_chars st + source_text_length)
      then
        let st' := assign (current_chunk st) st in
        mk_plan_state (chunk_strategies st') (chunk_index st') [] 0 0
      else st in
    mk_plan_state (chunk_strategies st1) (chunk_index st1)
      (current_chunk st1 ++ [item])
      (current_length st1 + item_length)
      (chunk_chars st1 + source_text_length).

(** The body of [for file_path, cache_file in cache_project.files.items()]. *)
Definition plan_file (acc : plan_state) (file : str * list A) : plan_state :=
  let items := filter (fun it => is_untranslated it = true) file.2 in
  if Chunker.nonempty items then
    let st0 := mk_plan_state (chunk_strategies acc) (chunk_index acc) [] 0 0 in
    let st := fold_left plan_step items st0 in
    if Chunker.nonempty (current_chunk st)
    then assign (current_chunk st) st
    else st
  else acc.

Definition analyze_chunks_and_assign_strategies (files : list (str * list A))
  : list S :=
  chunk_strategies (fold_left plan_file files (mk_plan_state [] 0 [] 0 0)).

(** *** The use of the plan in [TranslationRefinementAgent]

    [execute] numbers its jobs with
    [enumerate(zip(translation_chunks, context_chunks, file_paths), 1)]. *)
Definition translation_jobs (translation_chunks context_chunks : list (list A))
  (file_paths : list str) : list (Z * (list A * list A * str)) :=
  imap (fun k job => (Z.of_nat k + 1, job))
       (zip (zip translation_chunks context_chunks) file_paths).

(** What [_translate_chunk] finds for its chunk. *)
Inductive strategy_info :=
| Planned (info : S)
| NotPlanned
| IndexError.

(** [chunk_strategies[chunk_idx - 1]
       if chunk_idx - 1 < len(chunk_strategies) else None];
    a negative index counts from the end of the list. *)
Definition chunk_strategy_info (chunk_strategies : list S) (chunk_idx : Z)
  : strategy_info :=
  let i := chunk_idx - 1 in
  let n := Z.of_nat (length chunk_strategies) in
  if i <? n then
    let j := if i <? 0 then n + i else i in
    if j <? 0 then IndexError
    else match chunk_strategies !! Z.to_nat j with
         | Some info => Planned info
         | None => IndexError
         end
  else NotPlanned.

End Analyze.

(** *** [_analyze_task_complexity] and [_create_execution_plan] *)

Inductive complexity := Simple | Medium | Complex.

(** The numeric entries of the analysis and its complexity.  [avg_length]
    is the quotient [total_length / total_units] (or [0] without units);
    it is kept as its numerator and denominator.  The list of file types
    is left out. *)
Record task_analysis := mk_task_analysis {
  total_units : Z;
  total_length : Z;
  task_complexity : complexity;
  estimated_time : Z
}.

Section Complexity.

Context {A : Type}.
Variable source_text : A -> str.
Variable is_untranslated : A -> bool.

(** The two counters after the loops over the files and their items. *)
Definition count_units (files : list (str * list A)) : Z * Z :=
  fold_left
    (fun acc (file : str * list A) =>
       fold_left
         (fun (acc : Z * Z) item =>
            if is_untranslated item
            then (acc.1 + 1, acc.2 + len (source_text item))
            else acc)
         file.2 acc)
    files (0, 0).

(** [avg_length < bound], for [avg_length = total_length / total_units if
    total_units > 0 else 0].  The quotient is a float, rounded to the
    nearest; for the bounds 100 and 500 and fewer than 2^45 units it is
    below the bound exactly when [total_length < bound * total_units]. *)
Definition avg_length_below (total_length total_units bound : Z) : bool :=
  if 0 <? total_units then total_length <? bound * total_units
  else 0 <? bound.

Definition analyze_task_complexity (files : list (str * list A))
  : task_analysis :=
  let '(total_units, total_length) := count_units files in
  if (total_units <? 50) && avg_length_below total_length total_units 100 then
    mk_task_analysis total_units total_length Simple (total_units * 2)
  else if (total_units <? 300) && avg_length_below total_length total_units 500
  then mk_task_analysis total_units total_length Medium (total_units * 5)
  else mk_task_analysis total_units total_length Complex (total_units * 10).

End Complexity.

(** The numeric entries of the execution plan. *)
Record execution_plan := mk_execution_plan {
  batch_size : Z;
  max_workers : Z;
  max_retries : Z
}.

Definition create_execution_plan (ta : task_analysis) : execution_plan :=
  match task_complexity ta with
  | Simple => mk_execution_plan (Z.min (total_units ta) 50) 5 2
  | Medium => mk_execution_plan (Z.min (total_units ta) 100) 10 3
  | Complex => mk_execution_plan (Z.min (total_units ta) 200) 15 5
  end.

(** *** [_estimate_resources]: the API calls and their breakdown *)

(** [strategy_counts[strategy] = strategy_counts.get(strategy, 0) + 1] on a
    dictionary that keeps the order of insertion. *)
Fixpoint count_strategy (strategy : str) (counts : list (str * Z))
  : list (str * Z) :=
  match counts with
  | [] => [(strategy, 0 + 1)]
  | (s, c) :: counts' =>
    if bool_decide (s = strategy) then (s, c + 1) :: counts'
    else (s, c) :: count_strategy strategy counts'
  end.

(** An entry of [strategy_breakdown]. *)
Record breakdown := mk_breakdown {
  b_chunks : Z;
  b_api_calls : Z
}.

(** [api_calls] and [strategy_breakdown] as a function of [total_units]
    and of the ["strategy"] entries of [chunk_strategies]. *)
Definition estimate_api_calls (total_units : Z) (strategies : list str)
  : Z * list (str * breakdown) :=
  match strategies with
  | [] => (total_units * 3, [])
  | _ :: _ =>
    let num_chunks := Z.of_nat (length strategies) in
    let api_calls := num_chunks * 3 in
    let strategy_counts :=
      fold_left (fun counts s => count_strategy s counts) strategies [] in
    (api_calls,
     map (fun sc : str * Z => (sc.1, mk_breakdown sc.2 (sc.2 * 3)))
         strategy_counts)
  end.

(** [strategy_counts.get(strategy, 0)] *)
Fixpoint get_count (strategy : str) (counts : list (str * Z)) : Z :=
  match counts with
  | [] => 0
  | (s, c) :: counts' =>
    if bool_decide (s = strategy) then c else get_count strategy counts'
  end.

(** [strategy_breakdown.get(strategy)] *)
Fixpoint get_breakdown (strategy : str) (bd : list (str * breakdown))
  : option breakdown :=
  match bd with
  | [] => None
  | (s, b) :: bd' =>
    if bool_decide (s = strategy) then Some b else get_breakdown strategy bd'
  end.

(** The number of occurrences of a strategy among the chunk strategies. *)
Definition occurrences (strategy : str) (strategies : list str) : Z :=
  Z.of_nat (length (filter (fun s => s = strategy) strategies)).

Definition sum_counts (counts : list (str * Z)) : Z :=
  foldr (fun e acc => e.2 + acc) 0 counts.

(** [sum] over the entries of [strategy_breakdown] *)
Definition sum_chunks (bd : list (str * breakdown)) : Z :=
  foldr (fun e acc => b_chunks e.2 + acc) 0 bd.

Definition sum_api_calls (bd : list (str * breakdown)) : Z :=
  foldr (fun e acc => b_api_calls e.2 + acc) 0 bd.

(** [total_units = sum(len(chunk) for chunk in translation_chunks)] of
    [TranslationRefinementAgent.execute] *)
Definition execute_total_units {A : Type} (translation_chunks : list (list A))
  : Z :=
  foldr (fun chunk acc => Z.of_nat (length chunk) + acc) 0 translation_chunks.

End Planner.

(** ** Reading the trace store: [DatabaseManager.get_active_translation] *)

Module TraceQuery.

Import TraceStore.

(** [SELECT content FROM agent_traces
     WHERE atom_id = %s AND is_active = TRUE LIMIT 1], then
    [result[0] if result else None].  The query has no [ORDER BY]; the row
    taken is the first one in the order of the table.  A row whose content
    is [NULL] gives [None], like the absence of a row. *)
Definition get_active_translation (a : Z) (d : db) : option str :=
  match active_traces a d with
  | [] => None
  | r :: _ => content r
  end.

(** The content of the last call of a history that wrote a translation for
    the atom [a]: a call that did not fail, for this atom, with one of the
    translation actions.  [None] when the history has no such call. *)
Fixpoint last_translation (a : Z) (calls : list (db_fault * trace_args))
  : option (option str) :=
  match calls with
  | [] => None
  | (fault, args) :: calls' =>
    match last_translation a calls' with
    | Some c => Some c
    | None =>
      match fault with
      | NoFault =>
        if is_translation_action (a_action_type args) &&
           (a_atom_id args =? a)
        then Some (a_content args)
        else None
      | _ => None
      end
    end
  end.

End TraceQuery.

(** ** The atom table: the updates of [DatabaseManager] *)

Module AtomTable.

(** A row of [processing_atoms] with the columns that the updates write.
    The JSON columns are kept as their serialised text; the vector column
    and the two timestamps are left out. *)
Record atom := mk_atom {
  atom_id : Z;
  doc_id : Z;
  source_text : str;
  source_hash : str;
  position : Z;
  translated_text : option str;
  summary : option str;
  context_info : str;
  status_code : option Z;
  quality_score : option float;
  examination : str
}.

(** The row that the batch insert creates from its tuple: the columns it
    does not name take their defaults. *)
Definition of_row (r : AtomStore.atom_row) : atom :=
  mk_atom (AtomStore.atom_id r) (AtomStore.doc_id r)
    (AtomStore.source_text r) (AtomStore.source_hash r)
    (AtomStore.position r) None (Some (AtomStore.summary r))
    (AtomStore.context_info r) (Some 0) None (of_ascii "{}").

(** [UPDATE processing_atoms SET ... WHERE atom_id = %s] *)
Definition update_where (a : Z) (f : atom -> atom) (table : list atom)
  : list atom :=
  map (fun r => if atom_id r =? a then f r else r) table.

Definition set_translation (text : str) (status : Z) (score : option float)
  (r : atom) : atom :=
  mk_atom (atom_id r) (doc_id r) (source_text r) (source_hash r) (position r)
    (Some text) (summary r) (context_info r) (Some status) score
    (examination r).

(** [update_atom_translation(atom_id, translated_text, status_code=1,
    quality_score=None)]; [fault] tells whether the statement or the commit
    raises, in which case the transaction is rolled back. *)
Definition update_atom_translation (fault : bool) (a : Z) (text : str)
  (status : Z) (score : option float) (table : list atom) : list atom :=
  if fault then table else update_where a (set_translation text status score) table.

Definition set_summary (s : str) (r : atom) : atom :=
  mk_atom (atom_id r) (doc_id r) (source_text r) (source_hash r) (position r)
    (translated_text r) (Some s) (context_info r) (status_code r)
    (quality_score r) (examination r).

(** [update_atom_summary] *)
Definition update_atom_summary (fault : bool) (a : Z) (s : str)
  (table : list atom) : list atom :=
  if fault then table else update_where a (set_summary s) table.

Definition set_examination (e : str) (r : atom) : atom :=
  mk_atom (atom_id r) (doc_id r) (source_text r) (source_hash r) (position r)
    (translated_text r) (summary r) (context_info r) (status_code r)
    (quality_score r) e.

(** [update_atom_examination] *)
Definition update_atom_examination (fault : bool) (a : Z) (e : str)
  (table : list atom) : list atom :=
  if fault then table else update_where a (set_examination e) table.

Definition set_context (c : str) (r : atom) : atom :=
  mk_atom (atom_id r) (doc_id r) (source_text r) (source_hash r) (position r)
    (translated_text r) (summary r) c (status_code r)
    (quality_score r) (examination r).

(** [update_atom_context] *)
Definition update_atom_context (fault : bool) (a : Z) (c : str)
  (table : list atom) : list atom :=
  if fault then table else update_where a (set_context c) table.

(** An element of the argument of [batch_update_atoms]: a dictionary whose
    keys may be absent. *)
Record update := mk_update {
  u_atom_id : option Z;
  u_translated_text : option str;
  u_status_code : option Z;
  u_quality_score : option float;
  u_context_info : option str
}.

(** The [SET] clauses built from the keys that are present. *)
Definition set_present (u : update) (r : atom) : atom :=
  mk_atom (atom_id r) (doc_id r) (source_text r) (source_hash r) (position r)
    (match u_translated_text u with
     | Some t => Some t | None => translated_text r end)
    (summary r)
    (match u_context_info u with
     | Some c => c | None => context_info r end)
    (match u_status_code u with
     | Some s => Some s | None => status_code r end)
    (match u_quality_score u with
     | Some q => Some q | None => quality_score r end)
    (examination r).

(** [if set_clauses:] *)
Definition has_clauses (u : update) : bool :=
  bool_decide (u_translated_text u <> None) ||
  bool_decide (u_status_code u <> None) ||
  bool_decide (u_quality_score u <> None) ||
  bool_decide (u_context_info u <> None).

(** The statement that the loop executes for an update, if any:
    [if not atom_id: continue] skips an absent and a zero id. *)
Definition statement (u : update) : option (Z * (atom -> atom)) :=
  match u_atom_id u with
  | Some a =>
    if (a =? 0) || negb (has_clauses u) then None
    else Some (a, set_present u)
  | None => None
  end.

(** The loop of [batch_update_atoms] inside its transaction; [raises i]
    tells whether the statement of the [i]-th update raises.  [None] is an
    exception. *)
Fixpoint run_updates (raises : nat -> bool) (i : nat) (updates : list update)
  (table : list atom) : option (list atom) :=
  match updates with
  | [] => Some table
  | u :: updates' =>
    match statement u with
    | Some (a, f) =>
      if raises i then None
      else run_updates raises (S i) updates' (update_where a f table)
    | None => run_updates raises (S i) updates' table
    end
  end.

(** [batch_update_atoms]: one transaction for the whole list, rolled back
    when a statement or the commit raises. *)
Definition batch_update_atoms (raises : nat -> bool) (commit_raises : bool)
  (updates : list update) (table : list atom) : list atom :=
  match run_updates raises 0 updates table with
  | Some table' => if commit_raises then table else table'
  | None => table
  end.

(** The columns that identify an atom and its place in the document. *)
Definition identity (r : atom) : Z * Z * str * str * Z :=
  (atom_id r, doc_id r, source_text r, source_hash r, position r).

(** The ids that the updates of a batch name. *)
Definition named (updates : list update) : list Z :=
  omap u_atom_id updates.

(** The counts of [get_translation_progress]; the entry ["progress"], a
    rounded float, is left out. *)
Record progress := mk_progress {
  total : Z;
  translated : Z;
  completed : Z
}.

(** [COUNT(CASE WHEN cond THEN 1 END)]: a [NULL] status satisfies no
    comparison. *)
Definition status_is (cond : Z -> bool) (r : atom) : bool :=
  match status_code r with
  | Some s => cond s
  | None => false
  end.

Definition count_status (cond : Z -> bool) (rows : list atom) : Z :=
  Z.of_nat (length (filter (fun r => status_is cond r = true) rows)).

(** [get_translation_progress]: [total = row[0] or 1]. *)
Definition get_translation_progress (doc : Z) (table : list atom) : progress :=
  let rows := filter (fun r => doc_id r = doc) table in
  let count := Z.of_nat (length rows) in
  mk_progress (if count =? 0 then 1 else count)
    (count_status (fun s => 0 <? s) rows)
    (count_status (fun s => 4 <=? s) rows).

End AtomTable.

(** ** The database writes of the translation agent *)

Module Recording.

(** The two tables. *)
Record store := mk_store {
  traces : TraceStore.db;
  atoms : list AtomTable.atom
}.

(** [if atom_id:] on the result of [_get_atom_id] *)
Definition known_atom (atom_id : option Z) : option Z :=
  match atom_id with
  | Some a => if a =? 0 then None else Some a
  | None => None
  end.

(** A translation written to both tables:
    [add_trace(atom_id, agent_role, action_type, content=text,
               meta_data=...)] followed by
    [update_atom_translation(atom_id, text, status_code=...)]. *)
Definition record_translation (role action meta : str) (status : Z)
  (trace_fault : TraceStore.db_fault) (update_fault : bool)
  (atom_id : option Z) (text : str) (s : store) : store :=
  match known_atom atom_id with
  | Some a =>
    let args := TraceStore.mk_trace_args a role action (Some text)
                  (of_ascii "{}") meta 0 0 in
    mk_store (TraceStore.add_trace trace_fault args (traces s)).1
      (AtomTable.update_atom_translation update_fault a text status None
         (atoms s))
  | None => s
  end.

(** The writes of the agent.  The serialised dictionaries are arguments. *)
Inductive event :=
(** [_translate_chunk]: the draft of a line *)
| Draft (atom_id : option Z) (translated_text meta : str)
(** [_translate_chunk]: the evaluation of a line *)
| Evaluate (atom_id : option Z) (content quality_report examination : str)
(** [_unified_human_review]: a custom translation *)
| HumanEdit (atom_id : option Z) (custom_translation meta : str)
(** [_unified_human_review]: a new translation on request *)
| Retranslate (atom_id : option Z) (new_translation meta : str)
(** [_unified_entity_check]: a line changed by the consistency check *)
| Final (atom_id : option Z) (new_text meta : str).

Definition record (trace_fault : TraceStore.db_fault) (update_fault : bool)
  (e : event) (s : store) : store :=
  match e with
  | Draft atom_id text meta =>
    record_translation (of_ascii "Translator") (of_ascii "draft") meta 1
      trace_fault update_fault atom_id text s
  | Evaluate atom_id content quality_report examination =>
    match known_atom atom_id with
    | Some a =>
      let args := TraceStore.mk_trace_args a (of_ascii "QualityAssessor")
                    (of_ascii "evaluate") (Some content) quality_report
                    (of_ascii "{}") 0 0 in
      mk_store (TraceStore.add_trace trace_fault args (traces s)).1
        (AtomTable.update_atom_examination update_fault a examination
           (atoms s))
    | None => s
    end
  | HumanEdit atom_id text meta =>
    record_translation (of_ascii "Human") (of_ascii "human_edit") meta 3
      trace_fault update_fault atom_id text s
  | Retranslate atom_id text meta =>
    record_translation (of_ascii "Translator") (of_ascii "refine") meta 2
      trace_fault update_fault atom_id text s
  | Final atom_id text meta =>
    record_translation (of_ascii "ConsistencyChecker") (of_ascii "final")
      meta 4 trace_fault update_fault atom_id text s
  end.

(** A history of writes, each with the faults of its two transactions. *)
Definition replay (events : list (TraceStore.db_fault * bool * event))
  (s : store) : store :=
  fold_left (fun s e => record e.1.1 e.1.2 e.2 s) events s.

(** The translation of every atom is the content of its active trace. *)
Definition tables_agree (s : store) : Prop :=
  forall r, r ∈ atoms s ->
    AtomTable.translated_text r
    = TraceQuery.get_active_translation (AtomTable.atom_id r) (traces s).

End Recording.

(** ** Applying the decisions of the human review: [_unified_human_review] *)

Module ReviewApply.

Import Review.

(** An element of [review_result["review_results"]]; each of its keys may
    be absent. *)
Record user_decision := mk_user_decision {
  u_index : option Z;
  u_action : option str;
  u_translation : option str
}.

(** The exceptions that the code does not catch. *)
Inductive error := KeyError | IndexError.

(** [cache_project.db_atom_map], if the project has the attribute: file
    path to row index to atom id. *)
Abbreviation atom_map := (option (gmap str (gmap Z Z))).

(** [_get_atom_id(cache_project, file_path, row_index)] *)
Definition get_atom_id (m : atom_map) (file_path : str) (row_index : Z)
  : option Z :=
  match m with
  | Some db_atom_map =>
    match db_atom_map !! file_path with
    | Some file_map =>
      if bool_decide (file_map = ∅) then None else file_map !! row_index
    | None => None
    end
  | None => None
  end.

(** The serialised [meta_data] of the two traces. *)
Definition json_entry (key value : string) : str :=
  [123; 34]%N ++ of_ascii key ++ [34; 58; 32; 34]%N ++ of_ascii value
  ++ [34; 125]%N.

Definition META_CUSTOM : str :=
  json_entry "note" "User custom translation in review dialog".

Definition META_RETRANSLATE : str :=
  json_entry "reason" "User requested retranslation".

(** What the loop over the decisions changes: the chunk dictionaries, the
    database writes made so far and the log of the single-line requests. *)
Record apply_state := mk_apply_state {
  chunks : list chunk_data;
  events : list Recording.event;
  log : list str
}.

(** [chunk_data["translated_texts"][local_idx] = text] for
    [chunk_data = all_chunks_data[chunk_idx]]; the list is the one that the
    chunk dictionary holds, so the chunk changes with it. *)
Definition set_translated (ci li : nat) (text : str)
  (all_chunks_data : list chunk_data) : list chunk_data + error :=
  match all_chunks_data !! ci with
  | Some cd =>
    if (li <? length (translated_texts cd))%nat then
      inl (<[ci := mk_chunk_data (source_texts cd)
                     (<[li := text]> (translated_texts cd))
                     (quality_scores cd) (back_translations cd)
                     (chunk_row_indices cd) (file_path cd)]> all_chunks_data)
    else inr IndexError
  | None => inr IndexError
  end.

Section Apply.

(** [self.db_manager and self._current_cache_project] *)
Variable has_db : bool.
Variable db_atom_map : atom_map.
Variable llm : nat -> str -> Fallback.llm_reply.

(** The database writes that follow a change of a line. *)
Definition db_events (make : option Z -> Recording.event)
  (target_item : review_item) : list Recording.event :=
  if has_db
  then [make (get_atom_id db_atom_map (r_file_path target_item)
                (r_row_index target_item))]
  else [].

(** The body of [for user_decision in review_result["review_results"]]. *)
Definition apply_decision (review_items : list review_item)
  (st : apply_state) (d : user_decision) : apply_state + error :=
  match u_index d with
  | None => inr KeyError
  | Some global_idx =>
    match u_action d with
    | None => inr KeyError
    | Some action =>
      match List.find
              (fun item => bool_decide (Z.of_nat (r_index item) = global_idx))
              review_items with
      | None => inl st
      | Some target_item =>
        let chunk_idx := r_chunk_idx target_item in
        let local_idx := r_local_idx target_item in
        match chunks st !! chunk_idx with
        | None => inr IndexError
        | Some _ =>
          if bool_decide (action = of_ascii "accept") then inl st
          else if bool_decide (action = of_ascii "custom") then
            match u_translation d with
            | None => inr KeyError
            | Some custom_translation =>
              match set_translated chunk_idx local_idx custom_translation
                      (chunks st) with
              | inl chunks' =>
                inl (mk_apply_state chunks'
                       (events st ++
                        db_events (fun a => Recording.HumanEdit a
                                              custom_translation META_CUSTOM)
                                  target_item)
                       (log st))
              | inr e => inr e
              end
            end
          else if bool_decide (action = of_ascii "retranslate") then
            let (new_translation, log') :=
              Fallback.translate_single_line llm (r_source_text target_item)
                (log st) in
            match new_translation with
            | Some t =>
              if truthy t then
                match set_translated chunk_idx local_idx t (chunks st) with
                | inl chunks' =>
                  inl (mk_apply_state chunks'
                         (events st ++
                          db_events (fun a => Recording.Retranslate a t
                                                META_RETRANSLATE)
                                    target_item)
                         log')
                | inr e => inr e
                end
              else inl (mk_apply_state (chunks st) (events st) log')
            | None => inl (mk_apply_state (chunks st) (events st) log')
            end
          else inl st
        end
      end
    end
  end.

Fixpoint apply_decisions (review_items : list review_item)
  (decisions : list user_decision) (st : apply_state) : apply_state + error :=
  match decisions with
  | [] => inl st
  | d :: decisions' =>
    match apply_decision review_items st d with
    | inl st' => apply_decisions review_items decisions' st'
    | inr e => inr e
    end
  end.

(** [_unified_human_review]: [callback] is the human-intervention callback
    applied to the review items and the threshold; it answers with the
    list under ["review_results"], or with [None] when it returns nothing
    or a dictionary without that key. *)
Definition unified_human_review (enable_human_review has_callback : bool)
  (review_threshold : float)
  (callback : list review_item -> float -> option (list user_decision))
  (all_chunks_data : list chunk_data) (log0 : list str)
  : apply_state + error :=
  let unchanged := mk_apply_state all_chunks_data [] log0 in
  match review_batch enable_human_review has_callback review_threshold
          all_chunks_data with
  | None => inl unchanged
  | Some (review_items, threshold) =>
    match callback review_items threshold with
    | Some (d :: ds) => apply_decisions review_items (d :: ds) unchanged
    | _ => inl unchanged
    end
  end.

End Apply.

(** The lines shown to the reviewer. *)
Definition reviewed (enable_human_review has_callback : bool)
  (review_threshold : float) (all_chunks_data : list chunk_data)
  : list review_item :=
  match review_batch enable_human_review has_callback review_threshold
          all_chunks_data with
  | Some (review_items, _) => review_items
  | None => []
  end.

(** The entries of a chunk dictionary that the review never writes. *)
Definition frame (cd : chunk_data)
  : list str * list float * list str * list Z * str :=
  (source_texts cd, quality_scores cd, back_translations cd,
   chunk_row_indices cd, file_path cd).

(** The translation of a line of a chunk. *)
Definition line_at (all_chunks_data : list chunk_data) (ci li : nat)
  : option str :=
  match all_chunks_data !! ci with
  | Some cd => translated_texts cd !! li
  | None => None
  end.

End ReviewApply.

(** ** Terms found by the language model:
       [TerminologyEntityAgent._identify_terminology_with_llm] *)

Module TermDedup.

(** The value under ["term"] of a collected entry.  [_identify_chunk_terms]
    always stores the key, with [term_info.get("term")] of the parsed
    reply: any JSON value, or [None] when the reply had no such key (so
    the default of [term.get("term", "")] is never used). *)
Inductive term_value : Type :=
| TermStr (s : str)   (* a string *)
| TermNone            (* [None]: the key was missing, or null *)
| TermOther.          (* a number, a boolean, a list or an object *)

Section Dedup.

Context {T : Type}.
(** [str.lower]: any function on strings; Python's can change the length
    of a string. *)
Variable str_lower : str -> str.
(** [term.get("term", "")] *)
Variable get_term : T -> term_value.

(** The loop that fills [unique_terms], a dictionary in insertion order;
    [None] is the [AttributeError] of [.lower()] on a value that is not a
    string. *)
Fixpoint unique_loop (all_terms : list T) (unique_terms : list (str * T))
  : option (list (str * T)) :=
  match all_terms with
  | [] => Some unique_terms
  | term :: rest =>
    match get_term term with
    | TermStr name =>
      let term_name := str_lower name in
      if truthy term_name &&
         negb (bool_decide (term_name ∈ map fst unique_terms))
      then unique_loop rest (unique_terms ++ [(term_name, term)])
      else unique_loop rest unique_terms
    | TermNone | TermOther => None
    end
  end.

(** [final_terms = list(unique_terms.values())] *)
Definition final_terms (all_terms : list T) : option (list T) :=
  match unique_loop all_terms [] with
  | Some unique_terms => Some (map snd unique_terms)
  | None => None
  end.

(** The key under which a term is filed. *)
Definition term_name (term : T) : str :=
  match get_term term with
  | TermStr name => str_lower name
  | TermNone | TermOther => []
  end.

(** The value under ["term"] is a string. *)
Definition is_string (term : T) : Prop :=
  match get_term term with
  | TermStr _ => True
  | TermNone | TermOther => False
  end.

End Dedup.

End TermDedup.

(** ** The review of the terms: [WorkflowManager] *)

Module TermReview.

(** The entries of a value of the terminology table that the review reads
    and writes; [rest] stands for the other entries.  A missing
    ["verified_by_human"] counts as false. *)
Record term_info {R : Type} := mk_term_info {
  priority : option str;
  category : option str;
  verified_by_human : bool;
  translation : option str;
  rest : R
}.
Arguments term_info : clear implicits.

(** An element of [review_result["approved_terms"]]. *)
Record approved_term := mk_approved_term {
  a_term : option str;
  a_translation : option str
}.

Section Review.

Context {R : Type}.

(** The condition of [_get_first_occurrence_terms]. *)
Definition needs_review (info : term_info R) : bool :=
  (bool_decide (priority info = Some (of_ascii "high")) &&
   negb (verified_by_human info)) ||
  (bool_decide (category info = Some (of_ascii "named_entity")) &&
   negb (verified_by_human info)).

(** [_get_first_occurrence_terms]: [first_terms[:10]] *)
Definition get_first_occurrence_terms (terminology_db : list (str * term_info R))
  : list (str * term_info R) :=
  take 10 (filter (fun e => needs_review e.2 = true) terminology_db).

(** [terminology_db[term]["verified_by_human"] = True] and, when the
    approved term has the key, [terminology_db[term]["translation"] = ...] *)
Definition approve (a : approved_term) (info : term_info R) : term_info R :=
  mk_term_info R (priority info) (category info) true
    (match a_translation a with
     | Some t => Some t
     | None => translation info
     end)
    (rest info).

(** The body of [for term_info in review_result["approved_terms"]]: the
    value under the key [term] is changed in place. *)
Definition approve_term (terminology_db : list (str * term_info R))
  (a : approved_term) : list (str * term_info R) :=
  match a_term a with
  | Some term =>
    map (fun e : str * term_info R =>
           if bool_decide (e.1 = term) then (e.1, approve a e.2) else e)
        terminology_db
  | None => terminology_db
  end.

(** [_update_terminology_from_review]; [None] is a result without the key
    ["approved_terms"]. *)
Definition update_terminology_from_review
  (terminology_db : list (str * term_info R))
  (approved_terms : option (list approved_term))
  : list (str * term_info R) :=
  match approved_terms with
  | Some l => fold_left approve_term l terminology_db
  | None => terminology_db
  end.

End Review.

End TermReview.

(** ** Domain and style: [PreprocessingAgent._identify_domain_and_style] *)

Module DomainStyle.

Section Detect.

Variable lower_cp : N -> N.

(** The number of non-overlapping matches found by a scan from left to
    right; [skip] counts the code points of the current match still to be
    passed over. *)
Fixpoint count_matches (m : str -> bool) (w : nat) (skip : nat) (s : str)
  : Z :=
  match s with
  | [] => 0
  | _ :: s' =>
    match skip with
    | S k => count_matches m w k s'
    | O =>
      if m s then 1 + count_matches m w (w - 1) s'
      else count_matches m w 0 s'
    end
  end.

(** [len(re.findall(pattern, all_text, re.IGNORECASE))] for a pattern
    without metacharacters, as all the patterns of the agent are. *)
Definition findall_count (pattern all_text : str) : Z :=
  count_matches
    (fun s => starts_with (lower lower_cp pattern) (lower lower_cp s))
    (length pattern) 0 all_text.

(** [sum(len(re.findall(pattern, all_text, re.IGNORECASE))
         for pattern in patterns)] *)
Definition score (patterns : list str) (all_text : str) : Z :=
  foldr (fun pattern acc => findall_count pattern all_text + acc) 0 patterns.

(** The dictionary of the positive scores, in the order of the table. *)
Definition scores (table : list (str * list str)) (all_text : str)
  : list (str * Z) :=
  omap (fun e : str * list str =>
          let s := score e.2 all_text in
          if 0 <? s then Some (e.1, s) else None)
       table.

(** [max(items, key=lambda x: x[1])]: the first item among those with the
    largest value. *)
Fixpoint max_by_value (best : str * Z) (items : list (str * Z)) : str * Z :=
  match items with
  | [] => best
  | x :: items' =>
    if best.2 <? x.2 then max_by_value x items' else max_by_value best items'
  end.

(** [max(scores.items(), key=lambda x: x[1])[0] if scores else default] *)
Definition detect (table : list (str * list str)) (default : str)
  (all_text : str) : str :=
  match scores table all_text with
  | [] => default
  | x :: items => (max_by_value x items).1
  end.

(** [all_text]: every source text followed by a space *)
Definition all_text_of (source_texts : list str) : str :=
  concat (map (fun t => t ++ [32%N]) source_texts).

End Detect.

(** [self.domain_patterns] *)
Definition domain_patterns : list (str * list str) :=
  [(of_ascii "legal",
    [[27861; 24459]; [27861; 35268]; [26465; 27454]; [21512; 21516];
     [21327; 35758]]%N);
   (of_ascii "literary",
    [[23567; 35828]; [25991; 23398]; [35799; 27468]; [25955; 25991]]%N);
   (of_ascii "news",
    [[25253; 36947]; [26032; 38395]; [35760; 32773]; [28040; 24687]]%N);
   (of_ascii "technical",
    [[25216; 26415]; [31995; 32479]; [36719; 20214]; [30828; 20214];
     [31639; 27861]]%N);
   (of_ascii "entertainment",
    [[35828; 21809]; [38899; 20048]; [23089; 20048]; [26126; 26143]]%N
    ++ [of_ascii "NBA"])].

(** [self.style_patterns] *)
Definition style_patterns : list (str * list str) :=
  [(of_ascii "formal",
    [[23562; 25964; 30340]; [26681; 25454]; [20381; 25454]; [29305; 27492]]%N);
   (of_ascii "informal",
    [[21733; 20204]; [32769; 38081]; [29275; 36924]; [21351; 27133]]%N);
   (of_ascii "academic",
    [[30740; 31350; 34920; 26126]; [25968; 25454; 34920; 26126];
     [32508; 19978; 25152; 36848]]%N);
   (of_ascii "colloquial",
    [[21475; 35821]; [20442; 35821]; [26041; 35328]]%N)].

(** The entries ["domain"] and ["style"] of the metadata returned by
    [_identify_domain_and_style] for the source texts of the project. *)
Definition identify_domain_and_style (lower_cp : N -> N)
  (source_texts : list str) : str * str :=
  let all_text := all_text_of source_texts in
  (detect lower_cp domain_patterns (of_ascii "general") all_text,
   detect lower_cp style_patterns (of_ascii "neutral") all_text).

End DomainStyle.

(** ** Checking the terms against the table:
       [TerminologyEntityAgent._verify_and_enrich_terminology] *)

Module TermVerify.

(** The value under ["term"] of a term dictionary.  The dictionaries come
    from the recognisers, which store what the model or the NER processor
    gave. *)
Inductive term_entry : Type :=
| TermAbsent            (* no such key *)
| TermNone              (* [None] *)
| TermStr (s : str)     (* a string *)
| TermScalar            (* a number or a boolean: hashable, without [len] *)
| TermUnhashable.       (* a list or a dictionary *)

(** The value under ["context"], as far as [.get("context", "")[:50]]
    tells the values apart. *)
Inductive context_entry : Type :=
| ContextAbsent         (* no such key: the default [""] is sliced *)
| ContextStr (s : str)  (* a string *)
| ContextList           (* a list: it can be sliced *)
| ContextOther.         (* [None], a number, a boolean, a dictionary *)

(** A term dictionary: the keys that the function reads and writes;
    [other] stands for the remaining keys.  The dictionaries of one call
    are distinct objects. *)
Record term_info {R : Type} := mk_term_info {
  term : term_entry;
  context : context_entry;
  translation_suggestions : option (list str);
  llm_verification : option str;
  other : R
}.
Arguments term_info : clear implicits.

(** The exception that the function can raise outside its [try]. *)
Inductive error : Type := TypeError.

(** ["批量查证完成"] *)
Definition VERIFIED : str := [25209; 37327; 26597; 35777; 23436; 25104]%N.

Section Verify.

Context {R : Type}.

(** [dict.update] on the remaining keys *)
Variable update_other : R -> R -> R.
(** [self.terminology_db]; its keys are strings. *)
Variable terminology_db : gmap str (term_info R).
(** The clean-up of an extracted translation: the three [re.sub] that drop
    a number prefix and Markdown marks, and the two [strip]. *)
Variable clean : str -> str.
(** The translations extracted from the reply to the request of a batch,
    by line; [None] when the request is skipped or raises or has an empty
    reply.  A value of the dictionary that is not a string is [None]. *)
Variable reply : nat -> option (gmap nat (option str)).

(** [verified_info = self.terminology_db[term].copy();
     verified_info.update(term_info)] *)
Definition merged (entry info : term_info R) : term_info R :=
  mk_term_info R
    (match term info with TermAbsent => term entry | v => v end)
    (match context info with ContextAbsent => context entry | v => v end)
    (match translation_suggestions info with
     | Some l => Some l
     | None => translation_suggestions entry
     end)
    (match llm_verification info with
     | Some s => Some s
     | None => llm_verification entry
     end)
    (update_other (other entry) (other info)).

(** The accumulators of the first loop. *)
Record verify_state := mk_verify_state {
  verified_results : list (option (term_info R));
  new_terms_to_enrich : list (term_info R);
  new_terms_indices : list nat
}.

(** [self.terminology_db[term]] for a term that is in the table. *)
Definition known (info : term_info R) : option (term_info R) :=
  match term info with
  | TermStr s => terminology_db !! s
  | _ => None
  end.

(** The body of [for idx, term_info in enumerate(terminology_results)];
    [term in self.terminology_db] hashes the term and raises on a list or
    a dictionary. *)
Definition verify_step (st : verify_state) (info : term_info R)
  : verify_state + error :=
  match term info with
  | TermUnhashable => inr TypeError
  | _ =>
    match known info with
    | Some entry =>
      inl (mk_verify_state
             (verified_results st ++ [Some (merged entry info)])
             (new_terms_to_enrich st) (new_terms_indices st))
    | None =>
      inl (mk_verify_state
             (verified_results st ++ [None])
             (new_terms_to_enrich st ++ [info])
             (new_terms_indices st ++ [length (verified_results st)]))
    end
  end.

Fixpoint verify_loop (terminology_results : list (term_info R))
  (st : verify_state) : verify_state + error :=
  match terminology_results with
  | [] => inl st
  | info :: rest =>
    match verify_step st info with
    | inl st' => verify_loop rest st'
    | inr e => inr e
    end
  end.

(** The body of the loop of [_batch_enrich_terms_with_llm] for one term
    and its cleaned translation: a term with a translation gets its two
    keys. *)
Definition enrich_term (translation : str) (info : term_info R)
  : term_info R :=
  if truthy translation
  then mk_term_info R (term info) (context info) (Some [translation])
         (Some VERIFIED) (other info)
  else info.

(** The loop [for idx, term_info in enumerate(terms_list)] inside the
    [try]: [translation_dict.get(str(idx), "")]; on a value that is not a
    string [re.sub] raises, and the [except] clause returns the list as it
    is then. *)
Fixpoint enrich_loop (translation_dict : gmap nat (option str)) (idx : nat)
  (terms_list : list (term_info R)) : list (term_info R) :=
  match terms_list with
  | [] => []
  | info :: rest =>
    match default (Some []) (translation_dict !! idx) with
    | Some translation =>
      enrich_term (clean translation) info
      :: enrich_loop translation_dict (S idx) rest
    | None => info :: rest
    end
  end.

(** [term_info.get("context", "")[:50]] evaluates. *)
Definition context_sliceable (info : term_info R) : bool :=
  match context info with
  | ContextOther => false
  | _ => true
  end.

(** [_batch_enrich_terms_with_llm] for the batch numbered [batch_num]: the
    list it is given, with its terms changed in place.  The loop that
    builds the prompt runs before the [try] and slices every context. *)
Definition batch_enrich_terms_with_llm (batch_num : nat)
  (terms_list : list (term_info R)) : list (term_info R) + error :=
  match terms_list with
  | [] => inl []
  | _ :: _ =>
    if forallb context_sliceable terms_list then
      match reply batch_num with
      | Some translation_dict =>
        if bool_decide (translation_dict = ∅) then inl terms_list
        else inl (enrich_loop translation_dict 0 terms_list)
      | None => inl terms_list
      end
    else inr TypeError
  end.

(** [for batch_num, batch in enumerate(batches, 1):
       all_enriched.extend(self._batch_enrich_terms_with_llm(batch))] *)
Fixpoint enrich_batches (batch_num : nat) (batches : list (list (term_info R)))
  : list (term_info R) + error :=
  match batches with
  | [] => inl []
  | batch :: rest =>
    match batch_enrich_terms_with_llm batch_num batch with
    | inl enriched_batch =>
      match enrich_batches (S batch_num) rest with
      | inl all_enriched => inl (enriched_batch ++ all_enriched)
      | inr e => inr e
      end
    | inr e => inr e
    end
  end.

(** [x.get("term", "")] for the chunker, which takes its [len]: the text
    of a string, the default [""] of a missing key.  (A list or a
    dictionary does not get this far.) *)
Definition term_text (x : term_info R) : str :=
  match term x with
  | TermStr s => s
  | _ => []
  end.

(** [len(x.get("term", ""))] evaluates. *)
Definition has_len (x : term_info R) : bool :=
  match term x with
  | TermNone | TermScalar => false
  | _ => true
  end.

(** [for idx, enriched_info in zip(new_terms_indices, all_enriched):
       verified_results[idx] = enriched_info] *)
Definition fill (indices : list nat) (all_enriched : list (term_info R))
  (verified_results : list (option (term_info R)))
  : list (option (term_info R)) :=
  fold_left (fun vr p => <[p.1 := Some p.2]> vr)
            (zip indices all_enriched) verified_results.

(** [_verify_and_enrich_terminology]; a [None] in the result is the
    placeholder of the code.  The function has no [try] of its own. *)
Definition verify_and_enrich_terminology
  (terminology_results : list (term_info R))
  : list (option (term_info R)) + error :=
  match verify_loop terminology_results (mk_verify_state [] [] []) with
  | inr e => inr e
  | inl st =>
    match new_terms_to_enrich st with
    | [] => inl (verified_results st)
    | _ :: _ =>
      if forallb has_len (new_terms_to_enrich st) then
        let batches :=
          Chunker.smart_chunk_by_chars term_text 3000
            (new_terms_to_enrich st) in
        match enrich_batches 1 batches with
        | inl all_enriched =>
          inl (fill (new_terms_indices st) all_enriched (verified_results st))
        | inr e => inr e
        end
      else inr TypeError
    end
  end.

(** The term dictionaries on which no step of the function raises: the
    term can be hashed and, when it is not in the table, has a length
    and comes with a context that can be sliced. *)
Definition accepted (info : term_info R) : Prop :=
  term info <> TermUnhashable /\
  (known info = None ->
   has_len info = true /\ context_sliceable info = true).

End Verify.

End TermVerify.

(* ===================================================================== *)
(** * Part II: the theorems                                               *)
(* ===================================================================== *)

(** ** Python strings on samples *)

Example pystr_samples :
  replace (of_ascii "aa") (of_ascii "b") (of_ascii "aaa") = of_ascii "ba" /\
  split (of_ascii "aa") (of_ascii "aaa") = [[]; of_ascii "a"] /\
  split (of_ascii ",") (of_ascii "a,b,,c")
  = [of_ascii "a"; of_ascii "b"; []; of_ascii "c"] /\
  split_last (of_ascii ":") (of_ascii "score: 9.5") = of_ascii " 9.5" /\
  strip ([32; 32]%N ++ of_ascii "a b" ++ [32; 10]%N) = of_ascii "a b" /\
  strip_char 39 (of_ascii "''x'") = of_ascii "x" /\
  contains (of_ascii "ab") (of_ascii "cabd") = true /\
  contains [] (of_ascii "x") = true /\
  lower ascii_lower_cp (of_ascii "Beclin-1") = of_ascii "beclin-1" /\
  scan_replace
    (fun s => starts_with (of_ascii "ab") (lower ascii_lower_cp s)) 2
    (fun _ => of_ascii "X") 0 (of_ascii "aBabAb-b")
  = of_ascii "XXX-b".
Proof. vm_compute. repeat split; reflexivity. Qed.

(** ** Chunker *)

Section ChunkerFacts.

Context {A : Type}.
Variable get_text_func : A -> str.
Variable max_chars : Z.

Local Abbreviation total := (Chunker.total_chars get_text_func).
Local Abbreviation step := (Chunker.smart_step get_text_func max_chars).
Local Abbreviation chunk_ok := (Chunker.chunk_ok get_text_func max_chars).

Lemma total_chars_app (c1 c2 : list A) :
  total (c1 ++ c2) = total c1 + total c2.
Proof.
  induction c1 as [|x c1 IH]; simpl; [lia|]. rewrite IH. lia.
Qed.

Lemma total_chars_nonneg (c : list A) : 0 <= total c.
Proof.
  induction c as [|x c IH]; simpl; [lia|]. unfold len. lia.
Qed.

Lemma total_chars_elem (c : list A) (x : A) :
  x ∈ c -> len (get_text_func x) <= total c.
Proof.
  induction 1 as [x c|x y c _ IH]; simpl.
  - pose proof (total_chars_nonneg c). lia.
  - unfold len in *. lia.
Qed.

(** Within a chunk that is [chunk_ok], an over-long item is alone. *)
Lemma chunk_ok_oversize_alone (c : list A) (x : A) :
  chunk_ok c -> x ∈ c -> max_chars < len (get_text_func x) -> c = [x].
Proof.
  intros [Hle | (y & -> & Hy)] Hin Hx.
  - pose proof (total_chars_elem c x Hin). lia.
  - apply list_elem_of_singleton in Hin. by subst.
Qed.

(** The loop invariant of [_smart_chunk_by_chars]: [done] is the prefix of
    the input already read. *)
Record smart_inv (st : Chunker.chunk_state) (done : list A) : Prop := {
  inv_concat :
    concat (Chunker.chunks st) ++ Chunker.current_chunk st = done;
  inv_chunks : Forall chunk_ok (Chunker.chunks st);
  inv_nonempty : Forall (fun c => c <> []) (Chunker.chunks st);
  inv_chars : Chunker.chunk_chars st = total (Chunker.current_chunk st);
  inv_budget :
    Chunker.current_chunk st <> [] ->
    total (Chunker.current_chunk st) <= max_chars
}.

Lemma smart_inv_init : smart_inv (Chunker.mk_chunk_state [] [] 0) [].
Proof. split; simpl; auto; congruence. Qed.

Lemma smart_step_inv st done x :
  smart_inv st done -> smart_inv (step st x) (done ++ [x]).
Proof.
  destruct st as [chs cur cc]. intros [Hc Hk Hn Hch Hb]. simpl in *.
  unfold Chunker.smart_step; simpl.
  destruct (Z.ltb_spec max_chars (len (get_text_func x))) as [Hlong|Hshort].
  - (* over-long item: committed alone, after the chunk being built *)
    destruct cur as [|y cur]; simpl.
    + split; simpl; auto.
      * rewrite concat_app. simpl. rewrite app_nil_r in *. by rewrite Hc.
      * apply Forall_app; split; [done|]. constructor; [|done].
        right. eauto.
      * apply Forall_app; split; [done|]. by constructor.
    + split; simpl; auto.
      * rewrite !concat_app. simpl. rewrite !app_nil_r.
        by rewrite <- Hc, <- !app_assoc.
      * apply Forall_app; split; [|constructor; [right; eauto|done]].
        apply Forall_app; split; [done|]. constructor; [|done].
        left. apply Hb. congruence.
      * apply Forall_app; split; [|by constructor].
        apply Forall_app; split; [done|]. by constructor.
      * congruence.
  - (* ordinary item *)
    destruct cur as [|y cur]; simpl.
    + split; simpl; auto.
      * rewrite app_nil_r in Hc. by rewrite Hc.
      * simpl in Hch. lia.
      * intros _. lia.
    + destruct (Z.ltb_spec max_chars (cc + len (get_text_func x)))
        as [Hover|Hfit]; simpl.
      * split; simpl; auto.
        -- rewrite concat_app. simpl. rewrite app_nil_r.
           by rewrite <- Hc, <- app_assoc.
        -- apply Forall_app; split; [done|]. constructor; [|done].
           left. apply Hb. congruence.
        -- apply Forall_app; split; [done|]. by constructor.
        -- lia.
        -- intros _. lia.
      * split; simpl; auto.
        -- by rewrite <- Hc, <- app_assoc.
        -- change (y :: cur ++ [x]) with ((y :: cur) ++ [x]).
           rewrite total_chars_app. simpl in *. lia.
        -- intros _. change (y :: cur ++ [x]) with ((y :: cur) ++ [x]).
           rewrite total_chars_app. simpl in *. lia.
Qed.

Lemma smart_fold_inv items st done :
  smart_inv st done ->
  smart_inv (fold_left step items st) (done ++ items).
Proof.
  revert st done. induction items as [|x items IH]; intros st done Hinv; simpl.
  - by rewrite app_nil_r.
  - replace (done ++ x :: items) with ((done ++ [x]) ++ items)
      by (by rewrite <- app_assoc).
    apply IH. by apply smart_step_inv.
Qed.

Lemma smart_chunk_by_chars_spec (items : list A) :
  let cs := Chunker.smart_chunk_by_chars get_text_func max_chars items in
  concat cs = items /\ Forall chunk_ok cs /\ Forall (fun c => c <> []) cs.
Proof.
  unfold Chunker.smart_chunk_by_chars.
  pose proof (smart_fold_inv items _ [] smart_inv_init) as [Hc Hk Hn Hch Hb].
  simpl in Hc.
  destruct (Chunker.current_chunk _) as [|y cur] eqn:Hcur; simpl.
  - rewrite app_nil_r in Hc. done.
  - split_and!.
    + rewrite concat_app. simpl. by rewrite app_nil_r.
    + apply Forall_app; split; [done|]. constructor; [|done].
      left. apply Hb. congruence.
    + apply Forall_app; split; [done|]. by constructor.
Qed.

End ChunkerFacts.

Section PrepareFacts.

Context {A : Type}.
Variable source_text : A -> str.
Variable token_count : A -> Z.
Variable is_untranslated : A -> bool.
Variable limit_is_token : bool.
Variable previous_line_count : Z.

Local Abbreviation total6 := (Chunker.total_chars source_text).
Local Abbreviation ok6 := (Chunker.chunk_ok source_text Chunker.MAX_CHUNK_CHARS).
Local Abbreviation pstep :=
  (Chunker.prep_step source_text token_count limit_is_token previous_line_count).
Local Abbreviation ploop :=
  (Chunker.prep_loop source_text token_count limit_is_token previous_line_count).
Local Abbreviation pfile :=
  (Chunker.prepare_file source_text token_count is_untranslated
     limit_is_token previous_line_count).

(** The loop invariant of the per-file loop of
    [_prepare_translation_chunks]: [base] is what earlier files
    contributed, [done] the prefix of this file's items already read. *)
Record prep_inv (base : list A) (st : Chunker.prep_state) (done : list A)
  : Prop := {
  pi_concat :
    concat (Chunker.p_chunks st) ++ Chunker.p_current_chunk st = base ++ done;
  pi_chunks : Forall ok6 (Chunker.p_chunks st);
  pi_nonempty : Forall (fun c => c <> []) (Chunker.p_chunks st);
  pi_budget :
    Chunker.p_current_chunk st <> [] ->
    Chunker.p_chunk_chars st = total6 (Chunker.p_current_chunk st) /\
    total6 (Chunker.p_current_chunk st) <= Chunker.MAX_CHUNK_CHARS;
  pi_ctx :
    length (Chunker.p_context_chunks st) = length (Chunker.p_chunks st);
  pi_paths :
    length (Chunker.p_file_paths st) = length (Chunker.p_chunks st)
}.

Lemma prep_step_inv items fp base st done i x :
  prep_inv base st done ->
  prep_inv base (pstep items fp st i x) (done ++ [x]).
Proof.
  destruct st as [chs ctx fps cur cl csi cc].
  intros [Hc Hk Hn Hb Hx Hp]. simpl in *.
  unfold Chunker.prep_step, Chunker.prep_flush; simpl.
  destruct (Z.ltb_spec Chunker.MAX_CHUNK_CHARS (len (source_text x)))
    as [Hlong|Hshort].
  - destruct cur as [|y cur]; simpl.
    + split; simpl; rewrite ?length_app; simpl; auto; try lia.
      * rewrite concat_app. simpl. rewrite !app_nil_r in *.
        by rewrite Hc, <- app_assoc.
      * apply Forall_app; split; [done|]. constructor; [|done].
        right. eauto.
      * apply Forall_app; split; [done|]. by constructor.
      * congruence.
    + destruct Hb as [Hcc Hle]; [congruence|].
      split; simpl; rewrite ?length_app; simpl; auto; try lia.
      * rewrite !concat_app. simpl. rewrite !app_nil_r.
        by rewrite app_assoc, <- Hc, <- !app_assoc.
      * apply Forall_app; split; [|constructor; [right; eauto|done]].
        apply Forall_app; split; [done|]. constructor; [|done]. by left.
      * apply Forall_app; split; [|by constructor].
        apply Forall_app; split; [done|]. by constructor.
      * congruence.
  - destruct cur as [|y cur]; simpl.
    + split; simpl; auto.
      * rewrite app_nil_r in Hc. by rewrite Hc, <- app_assoc.
      * intros _. split; lia.
    + destruct Hb as [Hcc Hle]; [congruence|].
      destruct (Z.ltb_spec Chunker.MAX_CHUNK_CHARS (cc + len (source_text x)))
        as [Hover|Hfit]; simpl.
      * split; simpl; rewrite ?length_app; simpl; auto; try lia.
        -- rewrite concat_app. simpl. rewrite app_nil_r.
           by rewrite app_assoc, <- Hc, <- !app_assoc.
        -- apply Forall_app; split; [done|]. constructor; [|done]. by left.
        -- apply Forall_app; split; [done|]. by constructor.
      * split; simpl; auto.
        -- by rewrite app_assoc, <- Hc, <- !app_assoc.
        -- intros _. change (y :: cur ++ [x]) with ((y :: cur) ++ [x]).
           rewrite total_chars_app. simpl in *. split; lia.
Qed.

Lemma prep_loop_inv items fp base rest st done i :
  prep_inv base st done ->
  prep_inv base (ploop items fp i rest st) (done ++ rest).
Proof.
  revert st done i. induction rest as [|x rest IH]; intros st done i Hinv; simpl.
  - by rewrite app_nil_r.
  - replace (done ++ x :: rest) with ((done ++ [x]) ++ rest)
      by (by rewrite <- app_assoc).
    apply IH. by apply prep_step_inv.
Qed.

(** What the accumulators satisfy between two files. *)
Record prep_acc (acc : Chunker.prep_state) (seen : list A) : Prop := {
  pa_concat : concat (Chunker.p_chunks acc) = seen;
  pa_chunks : Forall ok6 (Chunker.p_chunks acc);
  pa_nonempty : Forall (fun c => c <> []) (Chunker.p_chunks acc);
  pa_ctx :
    length (Chunker.p_context_chunks acc) = length (Chunker.p_chunks acc);
  pa_paths :
    length (Chunker.p_file_paths acc) = length (Chunker.p_chunks acc)
}.

Lemma prepare_file_acc acc seen (file : str * list A) :
  prep_acc acc seen ->
  prep_acc (pfile acc file)
    (seen ++ filter (fun it => is_untranslated it = true) file.2).
Proof.
  intros [Hc Hk Hn Hx Hp]. unfold Chunker.prepare_file.
  set (items := filter _ file.2).
  destruct (Chunker.nonempty items) eqn:Hne.
  2:{ destruct items; [|discriminate]. rewrite app_nil_r. by split. }
  - set (st0 := Chunker.mk_prep_state _ _ _ _ _ _ _).
    assert (Hinv0 : prep_inv seen st0 []).
    { subst st0. split; simpl; auto; [by rewrite !app_nil_r | congruence]. }
    pose proof (prep_loop_inv items file.1 seen items st0 [] 0%nat Hinv0)
      as Hinv.
    simpl in Hinv. fold items in Hinv.
    set (st := ploop items file.1 0%nat items st0) in *.
    destruct Hinv as [Hc' Hk' Hn' Hb' Hx' Hp'].
    destruct (Chunker.p_current_chunk st) as [|y cur] eqn:Hcur; simpl.
    + rewrite app_nil_r in Hc'. by split.
    + destruct Hb' as [_ Hle]; [congruence|].
      unfold Chunker.prep_flush.
      split; simpl; rewrite ?length_app, ?Hcur; simpl; auto; try lia.
      * rewrite concat_app. simpl. by rewrite app_nil_r.
      * apply Forall_app; split; [done|]. constructor; [|done]. by left.
      * apply Forall_app; split; [done|]. by constructor.
Qed.

Lemma prepare_fold_acc files acc seen :
  prep_acc acc seen ->
  prep_acc (fold_left pfile files acc)
    (seen ++ Chunker.untranslated_items is_untranslated files).
Proof.
  revert acc seen. induction files as [|f files IH]; intros acc seen Hacc.
  - simpl. unfold Chunker.untranslated_items. simpl. by rewrite app_nil_r.
  - simpl. unfold Chunker.untranslated_items in *. simpl.
    rewrite app_assoc. apply IH. by apply prepare_file_acc.
Qed.

End PrepareFacts.

(** The end-to-end scenario of the specification: items of lengths
    200, 200, 8000 and 200 under a budget of 6000 give the chunks
    [[0,1],[2],[3]]. *)
Example smart_chunk_example :
  Chunker.smart_chunk_by_chars
    (fun n : N => replicate (N.to_nat n) 97%N) 6000 [200; 200; 8000; 200]%N
  = [[200; 200]; [8000]; [200]]%N.
Proof. vm_compute. reflexivity. Qed.

(** C2.  Both chunkers ([_smart_chunk_by_chars] with an arbitrary budget,
    and the loop of [_prepare_translation_chunks] with its budget of 6000
    over the untranslated items of every file) split their input into
    chunks whose concatenation is the input sequence; every chunk either
    has a total source-text length within the budget or consists of exactly
    one item whose own text exceeds the budget; and an item whose text
    exceeds the budget is always the only item of its chunk. *)
Theorem chunker_partition_within_budget
  {A : Type} (get_text_func : A -> str) (max_chars : Z) (items : list A)
  (source_text : A -> str) (token_count : A -> Z)
  (is_untranslated : A -> bool) (limit_is_token : bool)
  (previous_line_count : Z) (files : list (str * list A)) :
  (let cs := Chunker.smart_chunk_by_chars get_text_func max_chars items in
   concat cs = items /\
   Forall (Chunker.chunk_ok get_text_func max_chars) cs /\
   (forall c x, c ∈ cs -> x ∈ c ->
                max_chars < len (get_text_func x) -> c = [x]))
  /\
  (let cs := (Chunker.prepare_translation_chunks source_text token_count
                is_untranslated limit_is_token previous_line_count files).1.1 in
   concat cs = Chunker.untranslated_items is_untranslated files /\
   Forall (Chunker.chunk_ok source_text Chunker.MAX_CHUNK_CHARS) cs /\
   (forall c x, c ∈ cs -> x ∈ c ->
                Chunker.MAX_CHUNK_CHARS < len (source_text x) -> c = [x])).
Proof.
  split.
  - destruct (smart_chunk_by_chars_spec get_text_func max_chars items)
      as (Hc & Hok & _).
    split_and!; [done|done|].
    intros c x Hc' Hx Hlong.
    eapply chunk_ok_oversize_alone; eauto.
    rewrite Forall_forall in Hok. by apply Hok.
  - unfold Chunker.prepare_translation_chunks. simpl.
    assert (Hinit : prep_acc source_text
                      (Chunker.mk_prep_state [] [] [] [] 0 0 0) []).
    { split; simpl; auto. }
    pose proof (prepare_fold_acc source_text token_count is_untranslated
                  limit_is_token previous_line_count files _ [] Hinit)
      as [Hc Hok _ _ _].
    simpl in Hc. split_and!; [done|done|].
    intros c x Hc' Hx Hlong.
    eapply chunk_ok_oversize_alone; eauto.
    rewrite Forall_forall in Hok. by apply Hok.
Qed.

(** ** The trace store *)

Section TraceStoreFacts.

Import TraceStore.

Lemma deactivate_trace_id a r : trace_id (deactivate a r) = trace_id r.
Proof. unfold deactivate. by destruct (_ && _). Qed.

Lemma deactivate_atom_id a r : atom_id (deactivate a r) = atom_id r.
Proof. unfold deactivate. by destruct (_ && _). Qed.

(** The [UPDATE] never activates a row, and leaves no active row to the
    atom it is run for. *)
Lemma deactivate_active a r :
  is_active (deactivate a r) = true ->
  is_active r = true /\ atom_id r <> a /\ deactivate a r = r.
Proof.
  unfold deactivate.
  destruct (Z.eqb_spec (atom_id r) a) as [Ha|Ha]; simpl.
  - destruct (is_active r) eqn:Hact; simpl; [discriminate|congruence].
  - auto.
Qed.

Lemma deactivate_other a r : atom_id r <> a -> deactivate a r = r.
Proof.
  unfold deactivate. intros H.
  destruct (Z.eqb_spec (atom_id r) a); [done|]. done.
Qed.

Lemma active_after_update a rows :
  filter (fun r => atom_id r = a /\ is_active r = true)
         (map (deactivate a) rows) = [].
Proof.
  induction rows as [|r rows IH]; [done|]. simpl.
  rewrite filter_cons, IH.
  destruct (decide _) as [[Ha Hact]|]; [|done].
  apply deactivate_active in Hact as (_ & Hne & _).
  rewrite deactivate_atom_id in Ha. done.
Qed.

Lemma active_other_after_update a a' rows :
  a' <> a ->
  filter (fun r => atom_id r = a' /\ is_active r = true)
         (map (deactivate a) rows)
  = filter (fun r => atom_id r = a' /\ is_active r = true) rows.
Proof.
  intros Hne. induction rows as [|r rows IH]; [done|]. simpl.
  rewrite !filter_cons, IH.
  destruct (decide (atom_id r = a)) as [Ha|Ha].
  - rewrite !decide_False; [done| |]; rewrite ?deactivate_atom_id;
      intros [? _]; congruence.
  - by rewrite (deactivate_other a r Ha).
Qed.

Lemma other_atoms_after_update a rows :
  filter (fun r => atom_id r <> a) (map (deactivate a) rows)
  = filter (fun r => atom_id r <> a) rows.
Proof.
  induction rows as [|r rows IH]; [done|]. simpl.
  rewrite !filter_cons, IH.
  destruct (decide (atom_id r = a)) as [Ha|Ha].
  - rewrite !decide_False; [done| |]; rewrite ?deactivate_atom_id; tauto.
  - by rewrite (deactivate_other a r Ha).
Qed.

Lemma add_trace_preserves fault args d :
  at_most_one_active d -> at_most_one_active (add_trace fault args d).1.
Proof.
  intros Hinv a'. unfold add_trace, active_traces.
  destruct fault; simpl; try apply Hinv.
  destruct (is_translation_action (a_action_type args)) eqn:Htr.
  - rewrite filter_app, filter_cons, filter_nil. simpl.
    destruct (decide (a' = a_atom_id args)) as [->|Hne].
    + rewrite active_after_update. simpl. destruct (decide _); simpl; lia.
    + rewrite active_other_after_update by done.
      rewrite decide_False by (simpl; intros [? _]; congruence).
      rewrite app_nil_r. apply Hinv.
  - rewrite filter_app, filter_cons, filter_nil. simpl.
    rewrite decide_False by (simpl; intros [_ ?]; congruence).
    rewrite app_nil_r. apply Hinv.
Qed.

Lemma run_preserves calls d :
  at_most_one_active d -> at_most_one_active (run calls d).
Proof.
  revert d. induction calls as [|c calls IH]; intros d Hd; [done|].
  simpl. apply IH. by apply add_trace_preserves.
Qed.

(** Every id in the table was drawn from the sequence. *)
Definition ids_below (d : db) : Prop :=
  Forall (fun r => trace_id r < next_trace_id d) (agent_traces d).

Lemma add_trace_ids_below fault args d :
  ids_below d ->
  ids_below (add_trace fault args d).1 /\
  next_trace_id d <= next_trace_id (add_trace fault args d).1.
Proof.
  unfold ids_below, add_trace. intros H.
  destruct fault; simpl; (split; [|lia]); try done.
  - apply Forall_app; split; [|constructor; [simpl; lia|done]].
    destruct (is_translation_action _).
    + apply List.Forall_map. eapply Forall_impl; [exact H|].
      intros r Hr. simpl in *. rewrite deactivate_trace_id. lia.
    + eapply Forall_impl; [exact H|]. intros r Hr. simpl in *. lia.
  - eapply Forall_impl; [exact H|]. intros r Hr. simpl in *. lia.
Qed.

Lemma run_ids_below calls d :
  ids_below d ->
  ids_below (run calls d) /\ next_trace_id d <= next_trace_id (run calls d).
Proof.
  revert d. induction calls as [|c calls IH]; intros d Hd; simpl.
  - split; [done|lia].
  - destruct (add_trace_ids_below c.1 c.2 d Hd) as [H1 H2].
    destruct (IH _ H1) as [H3 H4]. split; [done|lia].
Qed.

(** No active row carries the id [tid]. *)
Definition inactive_id (tid : Z) (d : db) : Prop :=
  filter (fun r => trace_id r = tid /\ is_active r = true) (agent_traces d) = [].

Lemma inactive_after_update tid a rows :
  filter (fun r => trace_id r = tid /\ is_active r = true) rows = [] ->
  filter (fun r => trace_id r = tid /\ is_active r = true)
         (map (deactivate a) rows) = [].
Proof.
  induction rows as [|r rows IH]; [done|]. simpl.
  rewrite !filter_cons.
  destruct (decide (trace_id r = tid /\ is_active r = true)) as [|Hn];
    [discriminate|].
  intros H. rewrite (IH H).
  rewrite decide_False; [done|].
  intros [Hid Hact]. apply deactivate_active in Hact as (Hact & _ & _).
  rewrite deactivate_trace_id in Hid. naive_solver.
Qed.

Lemma add_trace_inactive_id fault args tid d :
  tid < next_trace_id d -> inactive_id tid d ->
  inactive_id tid (add_trace fault args d).1.
Proof.
  unfold inactive_id, add_trace. intros Hlt H.
  destruct fault; simpl; try done.
  rewrite filter_app, filter_cons, filter_nil. simpl.
  rewrite decide_False by (intros [? _]; lia).
  rewrite app_nil_r.
  destruct (is_translation_action _); [|done].
  by apply inactive_after_update.
Qed.

Lemma run_inactive_id calls tid d :
  ids_below d -> tid < next_trace_id d -> inactive_id tid d ->
  inactive_id tid (run calls d).
Proof.
  revert d. induction calls as [|c calls IH]; intros d Hd Hlt H; [done|].
  simpl. destruct (add_trace_ids_below c.1 c.2 d Hd) as [H1 H2].
  apply IH; [done|lia|]. by apply add_trace_inactive_id.
Qed.

Lemma empty_db_invariants :
  at_most_one_active empty_db /\ ids_below empty_db.
Proof.
  split; [|by constructor]. intros a. unfold active_traces. simpl. lia.
Qed.

End TraceStoreFacts.

Lemma fresh_id_not_in_table (d : TraceStore.db) :
  ids_below d ->
  filter (fun r => TraceStore.trace_id r = TraceStore.next_trace_id d /\
                   TraceStore.is_active r = true)
         (TraceStore.agent_traces d) = [].
Proof.
  unfold ids_below. generalize (TraceStore.next_trace_id d).
  induction (TraceStore.agent_traces d) as [|r rows IH]; intros n H; [done|].
  inversion H as [|? ? Hr Hrows]; subst.
  rewrite filter_cons, decide_False by (intros [? _]; lia).
  by apply IH.
Qed.

Lemma translation_actions_recognised :
  Forall (fun action => TraceStore.is_translation_action action = true)
         TraceStore.translation_actions.
Proof. repeat constructor. Qed.

Example evaluate_not_translation :
  TraceStore.is_translation_action (of_ascii "evaluate") = false.
Proof. vm_compute. reflexivity. Qed.

(** C1.  (a) After any history of [add_trace] calls on the freshly
    created table, every atom has at most one active trace.  (b) A call
    whose action type is one of draft, refine, final, human_edit, from any
    state of the table, returns the new id, leaves the new row as the only
    active row of its atom and does not touch the rows of other atoms.
    (c) A call with action type evaluate appends its row inactive and
    changes nothing else, and no later history of calls makes that row
    active.  (d) The statements of a call form one transaction: when one
    of them raises, the table is as it was before the call and the call
    returns -1. *)
Theorem add_trace_single_active :
  (forall calls,
     TraceStore.at_most_one_active (TraceStore.run calls TraceStore.empty_db))
  /\
  Forall (fun action => forall a role c q m it ot d,
    let args := TraceStore.mk_trace_args a role action c q m it ot in
    let res := TraceStore.add_trace TraceStore.NoFault args d in
    let row := TraceStore.mk_trace_row (TraceStore.next_trace_id d)
                 a role action c q m it ot true in
    res.2 = TraceStore.next_trace_id d /\
    TraceStore.active_traces a res.1 = [row] /\
    filter (fun r => TraceStore.atom_id r <> a) (TraceStore.agent_traces res.1)
    = filter (fun r => TraceStore.atom_id r <> a) (TraceStore.agent_traces d))
    TraceStore.translation_actions
  /\
  (forall a role c q m it ot calls calls',
    let d := TraceStore.run calls TraceStore.empty_db in
    let args :=
      TraceStore.mk_trace_args a role (of_ascii "evaluate") c q m it ot in
    let res := TraceStore.add_trace TraceStore.NoFault args d in
    let row := TraceStore.mk_trace_row (TraceStore.next_trace_id d)
                 a role (of_ascii "evaluate") c q m it ot false in
    res.2 = TraceStore.next_trace_id d /\
    TraceStore.agent_traces res.1 = TraceStore.agent_traces d ++ [row] /\
    filter (fun r => TraceStore.trace_id r = res.2 /\
                     TraceStore.is_active r = true)
           (TraceStore.agent_traces (TraceStore.run calls' res.1)) = [])
  /\
  (forall args d,
    TraceStore.add_trace TraceStore.FaultBeforeInsert args d = (d, -1) /\
    TraceStore.agent_traces
      (TraceStore.add_trace TraceStore.FaultAfterInsert args d).1
    = TraceStore.agent_traces d /\
    (TraceStore.add_trace TraceStore.FaultAfterInsert args d).2 = -1).
Proof.
  split_and!.
  - intros calls. apply run_preserves. apply empty_db_invariants.
  - eapply Forall_impl; [apply translation_actions_recognised|].
    intros action Htr a role c q m it ot d. simpl.
    unfold TraceStore.add_trace, TraceStore.active_traces. simpl.
    rewrite Htr. simpl. split_and!; [done| |].
    + rewrite filter_app, active_after_update, filter_cons, filter_nil.
      simpl. by rewrite decide_True.
    + rewrite filter_app, other_atoms_after_update, filter_cons, filter_nil.
      simpl. rewrite decide_False by tauto. by rewrite app_nil_r.
  - intros a role c q m it ot calls calls'. cbv zeta.
    destruct empty_db_invariants as [_ Hids].
    destruct (run_ids_below calls _ Hids) as [Hd _].
    set (d := TraceStore.run calls TraceStore.empty_db) in *.
    pose (args := TraceStore.mk_trace_args a role (of_ascii "evaluate")
                    c q m it ot).
    destruct (add_trace_ids_below TraceStore.NoFault args d Hd) as [Hd' _].
    split_and!; [done|done|].
    apply run_inactive_id; [exact Hd'|simpl; lia|].
    unfold inactive_id. simpl.
    rewrite filter_app, filter_cons, filter_nil. simpl.
    rewrite decide_False by (intros [_ ?]; discriminate).
    rewrite app_nil_r.
    apply fresh_id_not_in_table. exact Hd.
  - intros args d. by split_and!.
Qed.

(** ** Active-call accounting *)

Lemma tracking_step_nonneg (s : Tracking.stats) (e : Tracking.event) :
  0 <= Tracking.active_llm_calls s ->
  0 <= Tracking.active_llm_calls (Tracking.step s e) /\
  Tracking.published (Tracking.step s e)
  = Tracking.published s ++ [Tracking.active_llm_calls (Tracking.step s e)].
Proof. intros H. destruct e; simpl; split; try done; lia. Qed.

Lemma tracking_exec_nonneg (events : list Tracking.event) (s : Tracking.stats) :
  0 <= Tracking.active_llm_calls s ->
  0 <= Tracking.active_llm_calls (Tracking.exec events s) /\
  exists news,
    Tracking.published (Tracking.exec events s) = Tracking.published s ++ news /\
    length news = length events /\
    Forall (fun c => 0 <= c) news.
Proof.
  revert s. induction events as [|e events IH]; intros s H; simpl.
  - split; [done|]. exists []. by rewrite app_nil_r.
  - destruct (tracking_step_nonneg s e H) as [H1 H2].
    destruct (IH _ H1) as (H3 & news & Hp & Hl & Hn).
    split; [done|].
    exists (Tracking.active_llm_calls (Tracking.step s e) :: news).
    split_and!.
    + unfold Tracking.exec in *. simpl. rewrite Hp, H2. by rewrite <- app_assoc.
    + simpl. by rewrite Hl.
    + by constructor.
Qed.

Lemma tracking_exec_app (e1 e2 : list Tracking.event) (s : Tracking.stats) :
  Tracking.exec (e1 ++ e2) s = Tracking.exec e2 (Tracking.exec e1 s).
Proof. unfold Tracking.exec. by rewrite fold_left_app. Qed.

(** C9.  Starting from a non-negative counter, (a) after any sequence of
    the atomic statistics updates the counter is non-negative and every
    snapshot published on the way carries a non-negative active-call
    count; (b) a tracked request is exactly: raise the counter by one and
    publish, send the request while other threads do their updates, then
    set the counter to [max 0 (counter - 1)] and publish, whether the
    request returned or raised; its result is the one of the request;
    (c) with no other thread in between, the two snapshots carry
    [counter + 1] and [counter], and the counter is back to its value. *)
Theorem active_llm_calls_never_negative
  (s : Tracking.stats) (Hs : 0 <= Tracking.active_llm_calls s) :
  (forall events,
     0 <= Tracking.active_llm_calls (Tracking.exec events s) /\
     exists news,
       Tracking.published (Tracking.exec events s)
       = Tracking.published s ++ news /\
       length news = length events /\
       Forall (fun c => 0 <= c) news)
  /\
  (forall (R : Type) (call : Tracking.outcome R) others,
     let res := Tracking.llm_request_with_tracking true call others s in
     res.2 = call /\
     res.1 = Tracking.exec (Tracking.Enter :: others ++ [Tracking.Leave]) s /\
     Tracking.active_llm_calls res.1
     = Z.max 0 (Tracking.active_llm_calls
                  (Tracking.exec others (Tracking.step s Tracking.Enter)) - 1) /\
     0 <= Tracking.active_llm_calls res.1)
  /\
  (forall (R : Type) (call : Tracking.outcome R),
     let res := Tracking.llm_request_with_tracking true call [] s in
     Tracking.active_llm_calls res.1 = Tracking.active_llm_calls s /\
     Tracking.published res.1
     = Tracking.published s ++
       [Tracking.active_llm_calls s + 1; Tracking.active_llm_calls s]).
Proof.
  split_and!.
  - intros events. by apply tracking_exec_nonneg.
  - intros R call others. cbv zeta.
    unfold Tracking.llm_request_with_tracking. simpl.
    split_and!; [done| | done |].
    + change (Tracking.Enter :: others ++ [Tracking.Leave])
        with ([Tracking.Enter] ++ others ++ [Tracking.Leave]).
      by rewrite !tracking_exec_app.
    + lia.
  - intros R call. cbv zeta.
    unfold Tracking.llm_request_with_tracking. simpl.
    split; [lia|]. rewrite <- app_assoc. simpl.
    do 3 f_equal. lia.
Qed.

Lemma active_llm_calls_never_negative_witness :
  let s := Tracking.mk_stats 0 [] in
  let events := [Tracking.Enter; Tracking.Enter; Tracking.Leave;
                 Tracking.Leave; Tracking.Leave] in
  0 <= Tracking.active_llm_calls s /\
  0 <= Tracking.active_llm_calls (Tracking.exec events s).
Proof.
  cbv zeta.
  assert (H0 : 0 <= Tracking.active_llm_calls (Tracking.mk_stats 0 []))
    by (simpl; lia).
  split; [exact H0|].
  exact (proj1 (proj1 (active_llm_calls_never_negative
                         (Tracking.mk_stats 0 []) H0) _)).
Defined.

(** ** The workflow guard *)

(** C7.  When the workflow was initialised and its run completes without
    raising, but the did-translate flag is unset or false or the list of
    translation results is missing or empty, [execute_workflow] raises to
    its caller; and whenever it returns a result marked successful, the
    run completed with the flag set and at least one translation
    result. *)
Theorem zero_results_is_fatal
  {P T : Type} (cache : P) (st : Workflow.workflow_state P T)
  (Hzero : Workflow.did_translate st = false \/
           Workflow.translated_count st = 0) :
  Workflow.execute_workflow true cache (Workflow.RunCompleted st)
  = Workflow.Raise
      (Workflow.WorkflowFailed
         (Workflow.NoValidTranslation (Workflow.did_translate st)
            (Workflow.translated_count st)))
  /\
  (forall initialised (run : Workflow.run_outcome P T) r,
     Workflow.execute_workflow initialised cache run = Workflow.Return r ->
     Workflow.success r = true ->
     exists st', run = Workflow.RunCompleted st' /\
                 Workflow.did_translate st' = true /\
                 0 < Workflow.translated_count st').
Proof.
  split.
  - unfold Workflow.execute_workflow. simpl.
    destruct Hzero as [-> | ->]; [done|].
    by rewrite andb_false_r.
  - intros initialised run r. unfold Workflow.execute_workflow.
    destruct initialised; simpl.
    + destruct run as [detail|st']; [discriminate|].
      destruct (Workflow.did_translate st') eqn:Hd; simpl; [|discriminate].
      destruct (Z.ltb_spec 0 (Workflow.translated_count st')); [|discriminate].
      intros _ _. eauto.
    + intros [= <-]. simpl. discriminate.
Qed.

Lemma zero_results_is_fatal_witness :
  let st : Workflow.workflow_state unit unit :=
    Workflow.mk_workflow_state (Some tt) (Some true) (Some []) 0 [] in
  (Workflow.did_translate st = false \/ Workflow.translated_count st = 0) /\
  Workflow.execute_workflow true tt (Workflow.RunCompleted st)
  = Workflow.Raise
      (Workflow.WorkflowFailed (Workflow.NoValidTranslation true 0)).
Proof.
  cbv zeta.
  assert (H0 : Workflow.did_translate
                 (Workflow.mk_workflow_state (P := unit) (T := unit)
                    (Some tt) (Some true) (Some []) 0 []) = false \/
               Workflow.translated_count
                 (Workflow.mk_workflow_state (P := unit) (T := unit)
                    (Some tt) (Some true) (Some []) 0 []) = 0)
    by (right; reflexivity).
  split; [exact H0|].
  exact (proj1 (zero_results_is_fatal tt _ H0)).
Defined.

(** ** The atom store *)

(** C8 (the code at two inputs).  (a) One call on an empty table with two
    atoms whose positions are 1 and 0: the rows get the ids 1 and 2 in the
    order of the argument, and the call returns [2; 1].  (b) A document
    that already holds three atoms at the positions 0, 1, 2 (ids 1, 2, 3)
    receives a second batch of two atoms that carry no position (so they
    get the positions 0 and 1): the rows created have the ids 4 and 5, and
    the call returns [5; 3]; the id 3 is the one of a row that was there
    before the call (it has the largest position, so it is the last id of
    the query whatever the order among equal positions). *)
Theorem create_atoms_batch_returns_tail_of_requery (md5_hex : str -> str) :
  (let atoms :=
     [AtomStore.mk_atom_dict (Some (of_ascii "b")) (Some 1) None None;
      AtomStore.mk_atom_dict (Some (of_ascii "a")) (Some 0) None None] in
   AtomStore.created_ids md5_hex atoms AtomStore.empty_db = [1; 2] /\
   (AtomStore.create_atoms_batch md5_hex false 7 atoms AtomStore.empty_db).2
   = [2; 1])
  /\
  (let first :=
     [AtomStore.mk_atom_dict (Some (of_ascii "a")) None None None;
      AtomStore.mk_atom_dict (Some (of_ascii "b")) None None None;
      AtomStore.mk_atom_dict (Some (of_ascii "c")) None None None] in
   let second :=
     [AtomStore.mk_atom_dict (Some (of_ascii "d")) None None None;
      AtomStore.mk_atom_dict (Some (of_ascii "e")) None None None] in
   let r1 := AtomStore.create_atoms_batch md5_hex false 7 first
               AtomStore.empty_db in
   r1.2 = [1; 2; 3] /\
   AtomStore.created_ids md5_hex second r1.1 = [4; 5] /\
   (AtomStore.create_atoms_batch md5_hex false 7 second r1.1).2 = [5; 3]).
Proof. vm_compute. repeat split; reflexivity. Qed.

(** ** The atom store on a new document *)

Section AtomStoreFacts.

Import AtomStore.

Variable md5_hex : str -> str.

Lemma new_rows_doc doc next idx atoms :
  Forall (fun r => doc_id r = doc) (new_rows md5_hex doc next idx atoms).
Proof.
  revert next idx. induction atoms as [|a atoms IH]; intros next idx; simpl.
  - constructor.
  - constructor; [done|apply IH].
Qed.

Lemma new_rows_ids doc doc' next idx idx' atoms :
  map atom_id (new_rows md5_hex doc next idx atoms)
  = map atom_id (new_rows md5_hex doc' next idx' atoms).
Proof.
  revert next idx idx'. induction atoms as [|a atoms IH];
    intros next idx idx'; simpl; [done|].
  f_equal. apply IH.
Qed.

Lemma new_rows_length doc next idx atoms :
  length (new_rows md5_hex doc next idx atoms) = length atoms.
Proof.
  revert next idx. induction atoms as [|a atoms IH]; intros next idx; simpl;
    [done|]. by rewrite IH.
Qed.

(** Rows numbered by their index are already in the order of the query. *)
Lemma new_rows_ordered doc next idx atoms :
  Forall (fun a => d_position a = None) atoms ->
  order_by_position (new_rows md5_hex doc next idx atoms)
  = new_rows md5_hex doc next idx atoms.
Proof.
  revert next idx. induction atoms as [|a atoms IH]; intros next idx Hpos;
    [done|].
  apply Forall_cons in Hpos as [Ha Hpos].
  cbn [new_rows order_by_position foldr].
  change (foldr insert_by_position [] ?l) with (order_by_position l).
  rewrite (IH _ _ Hpos).
  destruct atoms as [|b atoms]; [done|].
  apply Forall_cons in Hpos as [Hb _].
  cbn [new_rows insert_by_position position]. rewrite Ha, Hb. simpl.
  destruct (Z.ltb_spec (idx + 1) idx); [lia|done].
Qed.

Lemma filter_all {B : Type} (P : B -> Prop) `{!forall x, Decision (P x)}
  (l : list B) :
  Forall P l -> filter P l = l.
Proof.
  induction 1 as [|x l Hx _ IH]; [done|].
  by rewrite filter_cons, decide_True, IH.
Qed.

Lemma filter_none {B : Type} (P : B -> Prop) `{!forall x, Decision (P x)}
  (l : list B) :
  Forall (fun x => ~ P x) l -> filter P l = [].
Proof.
  induction 1 as [|x l Hx _ IH]; [done|].
  by rewrite filter_cons, decide_False, IH.
Qed.

(** On a document that holds no atom yet, a batch whose atoms carry no
    position returns the ids of the rows it creates, in the order of its
    argument. *)
Lemma create_atoms_batch_new_document doc atoms d :
  Forall (fun r => doc_id r <> doc) (processing_atoms d) ->
  Forall (fun a => d_position a = None) atoms ->
  (create_atoms_batch md5_hex false doc atoms d).2
  = created_ids md5_hex atoms d.
Proof.
  intros Hdoc Hpos. unfold create_atoms_batch, created_ids.
  destruct atoms as [|a atoms]; [done|].
  set (all := a :: atoms) in *.
  cbn [snd]. unfold select_atom_ids. cbn [processing_atoms].
  rewrite filter_app, (filter_none _ _ Hdoc), app_nil_l.
  rewrite (filter_all _ _ (new_rows_doc doc _ 0 all)).
  rewrite (new_rows_ordered doc _ 0 all Hpos).
  unfold last_n. rewrite length_map, new_rows_length, Nat.sub_diag, drop_0.
  apply new_rows_ids.
Qed.

End AtomStoreFacts.

Lemma create_atoms_batch_new_document_witness :
  let atoms :=
    [AtomStore.mk_atom_dict (Some (of_ascii "a")) None None None;
     AtomStore.mk_atom_dict (Some (of_ascii "b")) None None None] in
  Forall (fun r => AtomStore.doc_id r <> 7)
         (AtomStore.processing_atoms AtomStore.empty_db) /\
  Forall (fun a => AtomStore.d_position a = None) atoms /\
  (AtomStore.create_atoms_batch id false 7 atoms AtomStore.empty_db).2
  = AtomStore.created_ids id atoms AtomStore.empty_db.
Proof.
  cbv zeta.
  assert (H1 : Forall (fun r => AtomStore.doc_id r <> 7)
                 (AtomStore.processing_atoms AtomStore.empty_db))
    by constructor.
  assert (H2 : Forall (fun a => AtomStore.d_position a = None)
                 [AtomStore.mk_atom_dict (Some (of_ascii "a")) None None None;
                  AtomStore.mk_atom_dict (Some (of_ascii "b")) None None None])
    by (repeat constructor).
  split; [exact H1|]. split; [exact H2|].
  exact (create_atoms_batch_new_document id 7 _ _ H1 H2).
Defined.

(** ** Human review selection *)

Lemma insert_by_score_length x l :
  length (Review.insert_by_score x l) = S (length l).
Proof.
  induction l as [|y l IH]; simpl; [done|].
  destruct (PrimFloat.ltb _ _); simpl; by rewrite ?IH.
Qed.

Lemma sort_by_score_length l : length (Review.sort_by_score l) = length l.
Proof.
  induction l as [|x l IH]; simpl; [done|].
  by rewrite insert_by_score_length, IH.
Qed.

(** Whatever the threshold, the batch holds three lines, or all of them
    when there are fewer. *)
Lemma review_batch_size (threshold : float) (chunks : list Review.chunk_data) :
  exists items,
    Review.review_batch true true threshold chunks = Some (items, threshold) /\
    length items = Nat.min 3 (length (Review.collect_chunks chunks 0 0)).
Proof.
  unfold Review.review_batch. cbn [negb orb]. eexists. split; [reflexivity|].
  rewrite length_map, length_take, sort_by_score_length. lia.
Qed.

(** C4 (the code at a failing input).  One chunk of four lines scored
    3.0, 4.0, 5.0 and 6.0, review enabled with a callback and a threshold
    of 7.0: all four scores are below the threshold, and the review batch
    holds the lines 0, 1 and 2 only. *)
Theorem review_batch_is_three_lowest :
  let line (c : string) := of_ascii c in
  let chunk :=
    Review.mk_chunk_data
      [line "a"; line "b"; line "c"; line "d"]
      [line "ta"; line "tb"; line "tc"; line "td"]
      [3; 4; 5; 6]%float
      [line "ba"; line "bb"; line "bc"; line "bd"]
      [0; 1; 2; 3] (line "f.txt") in
  Forall (fun s => PrimFloat.ltb s 7%float = true)
         (Review.quality_scores chunk) /\
  exists items,
    Review.review_batch true true 7%float [chunk] = Some (items, 7%float) /\
    map Review.r_index items = [0; 1; 2]%nat /\
    map Review.r_score items = [3; 4; 5]%float.
Proof.
  cbv zeta. split.
  - repeat constructor.
  - eexists. split; [vm_compute; reflexivity|]. split; reflexivity.
Qed.

(** ** Quality estimation *)

Section QualityFacts.

Variable py_lower : str -> str.
Variable py_float : str -> option float.

Local Abbreviation score_line := (Quality.score_line py_lower py_float).
Local Abbreviation parse_score := (Quality.parse_score py_lower py_float).

(** The score and the flag of one line. *)
Lemma score_line_spec (entry : option str) :
  (score_line entry).2 = PrimFloat.ltb (score_line entry).1 7%float /\
  match entry with
  | None => score_line entry = (Quality.DEFAULT_SCORE, false)
  | Some text =>
    match parse_score (strip text) with
    | None => score_line entry = (Quality.DEFAULT_SCORE, false)
    | Some f =>
      if Quality.out_of_range f
      then score_line entry = (Quality.DEFAULT_SCORE, false)
      else score_line entry = (f, PrimFloat.ltb f 7%float)
    end
  end.
Proof.
  unfold Quality.score_line.
  destruct entry as [text|]; [|done].
  destruct (Quality.parse_score _ _ _) as [f|]; [|done].
  destruct (Quality.out_of_range f); done.
Qed.

(** The score of a line, read off its entry. *)
Lemma score_line_entry (entry : option str) :
  match entry with
  | None => (score_line entry).1 = Quality.DEFAULT_SCORE
  | Some text =>
    match parse_score (strip text) with
    | None => (score_line entry).1 = Quality.DEFAULT_SCORE
    | Some f =>
      if Quality.out_of_range f
      then (score_line entry).1 = Quality.DEFAULT_SCORE
      else (score_line entry).1 = f
    end
  end.
Proof.
  pose proof (score_line_spec entry) as [_ H].
  destruct entry as [text|]; [|by rewrite H].
  destruct (parse_score (strip text)) as [f|]; [|by rewrite H].
  destruct (Quality.out_of_range f); by rewrite H.
Qed.

(** The lines of a request that gave no usable reply. *)
Lemma default_lines (n i : nat) :
  (i < n)%nat ->
  replicate n Quality.DEFAULT_SCORE !! i = Some Quality.DEFAULT_SCORE /\
  replicate n false !! i
  = Some (PrimFloat.ltb Quality.DEFAULT_SCORE 7%float).
Proof.
  intros Hi. split; apply lookup_replicate; split; try done.
Qed.

(** The lines of a reply that was read. *)
Lemma scored_lines (m : gmap nat str) (n i : nat) :
  (i < n)%nat ->
  let results := map (fun i => score_line (m !! i)) (seq 0 n) in
  map fst results !! i = Some (score_line (m !! i)).1 /\
  map snd results !! i
  = Some (PrimFloat.ltb (score_line (m !! i)).1 7%float).
Proof.
  intros Hi results. subst results.
  assert (Hseq : seq 0 n !! i = Some i) by (by apply lookup_seq).
  assert (Hlook :
    map (fun i => score_line (m !! i)) (seq 0 n) !! i
    = Some (score_line (m !! i))).
  { change (map ?f ?l) with (f <$> l). by rewrite list_lookup_fmap, Hseq. }
  split.
  - change (map fst ?l) with (fst <$> l). by rewrite list_lookup_fmap, Hlook.
  - change (map snd ?l) with (snd <$> l). rewrite list_lookup_fmap, Hlook.
    simpl. f_equal. apply score_line_spec.
Qed.

Lemma replicate_default_marks n :
  replicate n false
  = map (fun s => PrimFloat.ltb s 7%float) (replicate n Quality.DEFAULT_SCORE).
Proof. induction n as [|n IH]; simpl; [done|]. by rewrite <- IH. Qed.

End QualityFacts.

(** C5.  For every number of lines and every outcome of the scoring
    request there is one score and one flag per line, and the score of
    line [i] is decided by the line's own entry, the text that
    [_extract_by_line_number] files under [i] when the request gave a
    reply that is read: a line without an entry, a line whose entry does
    not parse, and a line whose entry parses to a number below 1.0 or
    above 10.0 get the default 8.0; a line whose entry parses to a number
    within the range gets that number.  The flag of a line is set exactly
    when its resulting score is below 7.0, so a line with the default
    score is never flagged.  When the request times out, raises, is
    skipped or has an empty reply, no line has an entry. *)
Theorem batch_quality_scores_defaulted
  (py_lower : str -> str) (py_float : str -> option float)
  (extract_by_line_number : str -> gmap nat str)
  (n : nat) (reply : Quality.llm_reply) :
  let result :=
    Quality.batch_estimate_quality py_lower py_float extract_by_line_number
      n reply in
  let entry (i : nat) : option str :=
    match reply with
    | Quality.Reply false (Some response_content) =>
      if truthy response_content
      then extract_by_line_number response_content !! i
      else None
    | _ => None
    end in
  length result.1 = n /\ length result.2 = n /\
  result.1 = map (fun s => PrimFloat.ltb s 7%float) result.2 /\
  PrimFloat.ltb Quality.DEFAULT_SCORE 7%float = false /\
  forall i, (i < n)%nat ->
    exists score,
      result.2 !! i = Some score /\
      result.1 !! i = Some (PrimFloat.ltb score 7%float) /\
      match entry i with
      | None => score = Quality.DEFAULT_SCORE
      | Some text =>
        match Quality.parse_score py_lower py_float (strip text) with
        | None => score = Quality.DEFAULT_SCORE
        | Some f =>
          if Quality.out_of_range f
          then score = Quality.DEFAULT_SCORE
          else score = f
        end
      end.
Proof.
  cbv zeta.
  assert (Hdef :
    let d := (replicate n false, replicate n Quality.DEFAULT_SCORE) in
    length d.1 = n /\ length d.2 = n /\
    d.1 = map (fun s => PrimFloat.ltb s 7%float) d.2).
  { simpl. rewrite !length_replicate. split_and!; [done|done|].
    apply replicate_default_marks. }
  assert (Hdefault : forall i, (i < n)%nat ->
    exists score,
      replicate n Quality.DEFAULT_SCORE !! i = Some score /\
      replicate n false !! i = Some (PrimFloat.ltb score 7%float) /\
      score = Quality.DEFAULT_SCORE).
  { intros i Hi. destruct (default_lines n i Hi) as [H1 H2]. by eexists. }
  assert (Hline :
    forall m : gmap nat str,
      let results :=
        map (fun i => Quality.score_line py_lower py_float (m !! i)) (seq 0 n) in
      length (map snd results) = n /\ length (map fst results) = n /\
      map snd results = map (fun s => PrimFloat.ltb s 7%float) (map fst results)).
  { intros m. simpl. rewrite !length_map, length_seq.
    split_and!; [done|done|].
    rewrite !map_map. apply map_ext. intros i.
    apply (score_line_spec py_lower py_float). }
  unfold Quality.batch_estimate_quality.
  destruct reply as [| |skip [content|]]; simpl.
  1,2,4: destruct Hdef as (H1 & H2 & H3); split_and!; [done|done|done|done|];
         intros i Hi; destruct (Hdefault i Hi) as (s & ? & ? & ?);
         exists s; try destruct skip; done.
  destruct skip; simpl.
  { destruct Hdef as (H1 & H2 & H3); split_and!; [done|done|done|done|].
    intros i Hi. destruct (Hdefault i Hi) as (s & ? & ? & ?). by exists s. }
  destruct (truthy content) eqn:Htr; simpl.
  2:{ destruct Hdef as (H1 & H2 & H3); split_and!; [done|done|done|done|].
      intros i Hi. destruct (Hdefault i Hi) as (s & ? & ? & ?). by exists s. }
  destruct (bool_decide _) eqn:Hemp; simpl.
  - destruct (Hline (extract_by_line_number content)) as (H1 & H2 & H3).
    split_and!; [done|done|done|done|].
    intros i Hi.
    destruct (scored_lines py_lower py_float
                (extract_by_line_number content) n i Hi) as [H4 H5].
    eexists. split_and!; [exact H4|exact H5|].
    apply score_line_entry.
  - apply bool_decide_eq_false in Hemp.
    assert (Hempty : extract_by_line_number content = ∅).
    { destruct (decide (extract_by_line_number content = ∅)); [done|].
      by destruct Hemp. }
    destruct Hdef as (H1 & H2 & H3); split_and!; [done|done|done|done|].
    intros i Hi. destruct (Hdefault i Hi) as (s & ? & ? & ?). exists s.
    rewrite Hempty, lookup_empty. done.
Qed.

(** ** Quality estimation on concrete replies *)

(** A stand-in for [float] on the few texts of the examples below. *)
Definition float_of_sample (s : str) : option float :=
  if bool_decide (s = of_ascii "9.5") then Some 9.5%float
  else if bool_decide (s = of_ascii "6.5") then Some 6.5%float
  else if bool_decide (s = of_ascii "0.0") then Some 0%float
  else if bool_decide (s = of_ascii "11.0") then Some 11%float
  else None.

(** The label in Chinese followed by 6.5: the line keeps its score and is
    marked.  The label followed by 0 (completed to 0.0) or by 11: out of
    the range, 8.0 and no mark.  An English label with a trailing [/10]:
    9.5, no mark.  A text that is not a number, and a missing line: 8.0
    and no mark. *)
Example score_line_samples :
  let score_line :=
    Quality.score_line (lower ascii_lower_cp) float_of_sample in
  score_line (Some (Quality.label_zh_wide ++ of_ascii "6.5"))
  = (6.5%float, true) /\
  score_line (Some (Quality.label_zh_wide ++ of_ascii "0"))
  = (8%float, false) /\
  score_line (Some (Quality.label_zh ++ of_ascii " 11"))
  = (8%float, false) /\
  score_line (Some (of_ascii "Score: 9.5/10")) = (9.5%float, false) /\
  score_line (Some (Quality.label_zh_wide ++ of_ascii "good"))
  = (8%float, false) /\
  score_line None = (8%float, false).
Proof. vm_compute. repeat split; reflexivity. Qed.

(** ** Per-line fallback *)

Section FallbackFacts.

Import Fallback.

Variable llm : nat -> str -> llm_reply.

Local Abbreviation single := (translate_single_line llm).
Local Abbreviation fallback := (fallback_translate_one_by_one llm).

(** The text the fallback writes for a line. *)
Definition fallback_text (log : list str) (source_text : str) : str :=
  match (single source_text log).1 with
  | Some t => if truthy t then t else FAILED_MARKER ++ source_text
  | None => FAILED_MARKER ++ source_text
  end.

Lemma single_log source_text log :
  (single source_text log).2 = log ++ [source_text].
Proof. reflexivity. Qed.

(** A single-line translation that is returned is not empty. *)
Lemma single_some_truthy source_text log t :
  (single source_text log).1 = Some t -> truthy t = true.
Proof.
  unfold translate_single_line. simpl.
  destruct (llm _ _) as [| |skip [c|]]; try discriminate.
  destruct (negb skip && truthy c); [|discriminate].
  destruct (truthy (strip_char _ _)) eqn:Ht; [|discriminate].
  by intros [= <-].
Qed.

Lemma fallback_text_truthy log source_text :
  truthy (fallback_text log source_text) = true.
Proof.
  unfold fallback_text.
  destruct (single source_text log).1 as [t|]; [|done].
  by destruct (truthy t) eqn:Ht.
Qed.

Lemma fallback_cons s rest log :
  fallback (s :: rest) log
  = (fallback_text log s :: (fallback rest (log ++ [s])).1,
     (fallback rest (log ++ [s])).2).
Proof.
  cbn [fallback_translate_one_by_one].
  unfold bind, ret, fallback_text, translate_single_line.
  cbn [fst snd].
  by destruct (fallback_translate_one_by_one llm rest (log ++ [s])).
Qed.

Lemma fallback_spec source_texts log :
  (fallback source_texts log).2 = log ++ source_texts /\
  (fallback source_texts log).1
  = imap (fun i src => fallback_text (log ++ take i source_texts) src)
         source_texts.
Proof.
  revert log. induction source_texts as [|s rest IH]; intros log.
  - simpl. by rewrite app_nil_r.
  - rewrite fallback_cons. cbn [fst snd].
    destruct (IH (log ++ [s])) as [-> ->]. split.
    + by rewrite <- app_assoc.
    + cbn [imap]. f_equal.
      * cbn [take]. by rewrite app_nil_r.
      * apply imap_ext. intros i x _. simpl. by rewrite <- app_assoc.
Qed.

Lemma fallback_length source_texts log :
  length (fallback source_texts log).1 = length source_texts.
Proof.
  destruct (fallback_spec source_texts log) as [_ ->]. apply length_imap.
Qed.

Lemma fallback_lookup source_texts log i src :
  source_texts !! i = Some src ->
  (fallback source_texts log).1 !! i
  = Some (fallback_text (log ++ take i source_texts) src).
Proof.
  intros H. destruct (fallback_spec source_texts log) as [_ ->].
  by rewrite list_lookup_imap, H.
Qed.

(** *** The marked source text is not a problem line *)

Lemma drop_while_keeps (f : N -> bool) (l : str) (x : N) :
  f x = false -> drop_while f (l ++ [x]) <> [].
Proof.
  intros Hx. induction l as [|y l IH]; simpl.
  - by rewrite Hx.
  - by destruct (f y).
Qed.

Lemma strip_keeps_head (c : N) (s : str) :
  is_space c = false -> truthy (strip (c :: s)) = true.
Proof.
  intros Hc. unfold strip, strip_by. cbn [drop_while]. rewrite Hc.
  cbn [rev].
  destruct (rev (drop_while is_space (rev s ++ [c]))) as [|x r] eqn:Hr;
    [|done].
  exfalso. apply (f_equal (@rev N)) in Hr. rewrite rev_involutive in Hr.
  by apply drop_while_keeps in Hr.
Qed.

Lemma strip_marked_truthy (src : str) :
  truthy (strip (FAILED_MARKER ++ src)) = true.
Proof. by apply strip_keeps_head. Qed.

Lemma marked_not_blank (src : str) : blank (FAILED_MARKER ++ src) = false.
Proof. unfold blank. by rewrite strip_marked_truthy. Qed.

Lemma marked_not_truncated (src : str) :
  truncated src (FAILED_MARKER ++ src) = false.
Proof.
  unfold truncated, len. rewrite length_app. simpl length.
  apply andb_false_iff. right. apply Z.ltb_ge. lia.
Qed.

(** *** The retry of the problem lines *)

Lemma problem_indices_elem i k pairs :
  i ∈ problem_indices k pairs ->
  exists src trans,
    (k <= i)%nat /\ pairs !! (i - k)%nat = Some (src, trans) /\
    (blank trans = true \/ truncated src trans = true).
Proof.
  revert k. induction pairs as [|[src trans] rest IH]; intros k; simpl.
  - by intros ?%elem_of_nil.
  - assert (Hrest : i ∈ problem_indices (S k) rest ->
      exists src0 trans0, (k <= i)%nat /\
        ((src, trans) :: rest) !! (i - k)%nat = Some (src0, trans0) /\
        (blank trans0 = true \/ truncated src0 trans0 = true)).
    { intros (s0 & t0 & Hle & Hl & Hp)%IH. exists s0, t0.
      split_and!; [lia| |done].
      replace (i - k)%nat with (S (i - S k)) by lia. done. }
    assert (Hhere : blank trans = true \/ truncated src trans = true ->
      exists src0 trans0, (k <= k)%nat /\
        ((src, trans) :: rest) !! (k - k)%nat = Some (src0, trans0) /\
        (blank trans0 = true \/ truncated src0 trans0 = true)).
    { intros Hp. exists src, trans. rewrite Nat.sub_diag. done. }
    destruct (blank trans) eqn:Hb.
    + intros [->|H]%elem_of_cons; [apply Hhere; auto|by apply Hrest].
    + destruct (truncated src trans) eqn:Ht.
      * intros [->|H]%elem_of_cons; [apply Hhere; auto|by apply Hrest].
      * apply Hrest.
Qed.

Lemma retry_problems_spec source_texts indices texts log :
  let r := retry_problems llm source_texts indices texts log in
  length r.1 = length texts /\
  (forall j, j ∉ indices -> r.1 !! j = texts !! j) /\
  exists extra, r.2 = log ++ extra.
Proof.
  revert texts log. induction indices as [|i rest IH]; intros texts log.
  - simpl. split_and!; [done|done|]. exists []. by rewrite app_nil_r.
  - cbn [retry_problems]. unfold bind, translate_single_line.
    cbn zeta.
    match goal with
    | |- context [retry_problems llm source_texts rest ?t ?l] =>
      destruct (IH t l) as (Hlen & Hother & extra & Hlog)
    end.
    cbn zeta in *. split_and!.
    + rewrite Hlen. apply length_insert.
    + intros j Hj. apply not_elem_of_cons in Hj as [Hne Hj].
      rewrite (Hother j Hj). by apply list_lookup_insert_ne.
    + eexists. rewrite Hlog, <- app_assoc. reflexivity.
Qed.

End FallbackFacts.



(** The scenario of the specification: three items, a batch reply of two
    lines; three single-line requests are made; the replies (a quoted [t]
    between spaces) are stripped, and the third request, which fails,
    leaves the marked source text. *)
Example fallback_scenario :
  let llm := fun (n : nat) (_ : str) =>
    if (n =? 2)%nat then Fallback.LimiterTimeout
    else Fallback.Reply false (Some [32; 34; 116; 34; 32]%N) in
  Fallback.translate_chunk_step1 llm
    [of_ascii "a"; of_ascii "b"; of_ascii "c"]
    (Some [of_ascii "x"; of_ascii "y"]) []
  = (Some [of_ascii "t"; of_ascii "t"; Fallback.FAILED_MARKER ++ of_ascii "c"],
     [of_ascii "a"; of_ascii "b"; of_ascii "c"]).
Proof. vm_compute. reflexivity. Qed.

(** ** The commit to the cache *)

Section CommitFacts.

Import Fallback.

Lemma commit_chunk_cons c cs t ts h :
  commit_chunk (c :: cs) (t :: ts) h
  = commit_chunk cs ts (if truthy t then update_cache_item c t h else h).
Proof. reflexivity. Qed.

Lemma commit_chunk_other chunk texts h (l : loc) :
  l ∉ chunk -> commit_chunk chunk texts h !! l = h !! l.
Proof.
  revert texts h. induction chunk as [|c cs IH]; intros texts h Hl; [done|].
  destruct texts as [|t ts]; [done|].
  apply not_elem_of_cons in Hl as [Hne Hl].
  rewrite commit_chunk_cons, IH by done.
  destruct (truthy t); [|done].
  unfold update_cache_item. by rewrite lookup_alter_ne.
Qed.

Lemma commit_chunk_lookup chunk texts h i (l : loc) t it :
  NoDup chunk ->
  chunk !! i = Some l -> texts !! i = Some t -> truthy t = true ->
  h !! l = Some it ->
  commit_chunk chunk texts h !! l
  = Some (mk_cache_item (source_text it) t TRANSLATED
            (token_count it) (row_index it)).
Proof.
  revert texts h i. induction chunk as [|c cs IH]; intros texts h i Hnd Hi Ht Htr Hh.
  - by rewrite lookup_nil in Hi.
  - destruct texts as [|t0 ts]; [by rewrite lookup_nil in Ht|].
    apply NoDup_cons in Hnd as [Hc Hnd].
    rewrite commit_chunk_cons.
    destruct i as [|i]; simpl in Hi, Ht.
    + injection Hi as ->. injection Ht as ->. rewrite Htr.
      rewrite commit_chunk_other by done.
      unfold update_cache_item. by rewrite lookup_alter_eq, Hh.
    + assert (Hne : c <> l).
      { intros ->. apply Hc. by eapply list_elem_of_lookup_2. }
      eapply IH; eauto.
      destruct (truthy t0); [|done].
      unfold update_cache_item. by rewrite lookup_alter_ne.
Qed.

End CommitFacts.

Lemma map_lookup {A B : Type} (f : A -> B) (l : list A) (i : nat) :
  map f l !! i = f <$> l !! i.
Proof. exact (list_lookup_fmap f l i). Qed.



(** ** Stage B: consistency enforcement *)

(** *** Substrings *)

Lemma starts_with_app (r x : str) : starts_with r (r ++ x) = true.
Proof.
  induction r as [|a r IH]; simpl; [done|]. by rewrite N.eqb_refl, IH.
Qed.

Lemma contains_prefix (r x : str) : contains r (r ++ x) = true.
Proof.
  destruct (r ++ x) eqn:E; simpl; rewrite <- E, starts_with_app; done.
Qed.

Lemma contains_cons (p s : str) (c : N) :
  contains p s = true -> contains p (c :: s) = true.
Proof. intros H. simpl. rewrite H. apply orb_true_r. Qed.

(** A substitution by a constant text leaves the text as it is or leaves
    the constant in it. *)
Lemma scan_replace_const (m : str -> bool) (w : nat) (r : str)
  (skip : nat) (s : str) :
  scan_replace m w (fun _ => r) skip s = drop skip s \/
  contains r (scan_replace m w (fun _ => r) skip s) = true.
Proof.
  revert skip. induction s as [|c s IH]; intros skip.
  - left. by destruct skip.
  - destruct skip as [|k]; simpl.
    + destruct (m (c :: s)).
      * right. apply contains_prefix.
      * destruct (IH 0%nat) as [H|H].
        -- left. rewrite H. by rewrite drop_0.
        -- right. by apply contains_cons.
    + apply IH.
Qed.

(** *** The keys of the entity mapping *)

Lemma dict_set_key_in (k v x : str) (d : list (str * str)) :
  x ∈ map fst (Consistency.dict_set k v d) -> x = k \/ x ∈ map fst d.
Proof.
  induction d as [|[k' v'] d IH]; simpl.
  - intros H. apply list_elem_of_singleton in H. by left.
  - destruct (bool_decide (k' = k)) eqn:E; simpl.
    + apply bool_decide_eq_true in E as ->.
      intros [->|H]%elem_of_cons; [by left|].
      right. apply elem_of_cons. by right.
    + intros [->|H]%elem_of_cons.
      * right. apply elem_of_cons. by left.
      * destruct (IH H) as [->|H']; [by left|].
        right. apply elem_of_cons. by right.
Qed.

Lemma dict_set_keys (k v : str) (d : list (str * str)) :
  NoDup (map fst d) -> NoDup (map fst (Consistency.dict_set k v d)).
Proof.
  induction d as [|[k' v'] d IH]; simpl.
  - intros _. apply NoDup_singleton.
  - intros [Hk' Hd]%NoDup_cons.
    destruct (bool_decide (k' = k)) eqn:E; simpl.
    + apply bool_decide_eq_true in E as ->. by apply NoDup_cons.
    + apply bool_decide_eq_false in E.
      apply NoDup_cons. split; [|by apply IH].
      intros [->|H]%dict_set_key_in; [by apply E|by apply Hk'].
Qed.

(** The entity mapping is a dictionary: no two pairs have the same key. *)
Lemma build_entity_mappings_keys (unstar ununderscore : str -> str)
  (terminology_db : list (str * Consistency.term_info)) :
  NoDup (map fst
           (Consistency.build_entity_mappings unstar ununderscore
              terminology_db)).
Proof.
  unfold Consistency.build_entity_mappings.
  assert (H : NoDup (map fst ([] : list (str * str)))) by apply NoDup_nil_2.
  revert H. generalize ([] : list (str * str)).
  induction terminology_db as [|e db IH]; intros m Hm; simpl; [done|].
  apply IH.
  destruct (Consistency.mapping_entry _ _ _ _) as [[term translation]|];
    [by apply dict_set_keys|done].
Qed.

(** A key stands at one place of a dictionary. *)
Lemma key_position (m pre pre' post post' : list (str * str))
  (k v v' : str) :
  NoDup (map fst m) ->
  m = pre ++ (k, v) :: post ->
  m = pre' ++ (k, v') :: post' ->
  pre = pre' /\ v = v'.
Proof.
  intros Hnd -> Heq. revert pre' Hnd Heq.
  induction pre as [|[k0 v0] pre IH]; intros pre' Hnd Heq.
  - destruct pre' as [|[k1 v1] pre']; simpl in Heq.
    + by injection Heq as ->.
    + injection Heq as <- <- Hpost. exfalso.
      simpl in Hnd. apply NoDup_cons in Hnd as [Hk _]. apply Hk.
      rewrite Hpost, map_app. apply elem_of_app. right. simpl.
      apply elem_of_cons. by left.
  - destruct pre' as [|[k1 v1] pre']; simpl in Heq.
    + injection Heq as -> -> Hpost. exfalso.
      simpl in Hnd. apply NoDup_cons in Hnd as [Hk _]. apply Hk.
      rewrite map_app. apply elem_of_app. right. simpl.
      apply elem_of_cons. by left.
    + injection Heq as -> -> Hrest.
      simpl in Hnd. apply NoDup_cons in Hnd as [_ Hnd].
      destruct (IH pre' Hnd Hrest) as [-> ->]. done.
Qed.

Section ConsistencyFacts.

Import Consistency.

Variable py_lower : str -> str.
Variable ci_eq : N -> N -> bool.
Variable escaped_template : str -> option (str -> str).

Local Abbreviation step := (check_entity py_lower ci_eq escaped_template).
Local Abbreviation present := (translation_present py_lower).
Local Abbreviation guard := (ci_contains py_lower).
Local Abbreviation line := (check_line py_lower ci_eq escaped_template).
Local Abbreviation lines := (check_lines py_lower ci_eq escaped_template).
Local Abbreviation text_after :=
  (running_text py_lower ci_eq escaped_template).

(** The report only grows. *)
Definition extends (gs gs' : check_state) : Prop :=
  exists extra, inconsistency_details gs' = inconsistency_details gs ++ extra.

(** The pair [(k, v)] is reached with the text [before], leaves the text
    [after] and adds the line to the report: the lowered key is in the
    lowered source text, the value is not found in the text, the text is
    not rewritten, and the regular expression finds the key in the source
    text. *)
Definition unfixed (src before after k v : str) : Prop :=
  guard k src = true /\ present v before = false /\ after = before /\
  finds ci_eq k src = true.

Lemma extends_refl gs : extends gs gs.
Proof. exists []. by rewrite app_nil_r. Qed.

Lemma extends_trans gs1 gs2 gs3 :
  extends gs1 gs2 -> extends gs2 gs3 -> extends gs1 gs3.
Proof.
  intros [e1 H1] [e2 H2]. exists (e1 ++ e2). by rewrite H2, H1, app_assoc.
Qed.

Lemma extends_reported n k v gs gs' :
  extends gs gs' -> reported n k v gs -> reported n k v gs'.
Proof.
  intros [extra He] (d & Hd & H). exists d. split; [|done].
  rewrite He. apply elem_of_app. by left.
Qed.

(** A template without a backslash is used as it is. *)
Lemma plain_template (v : str) :
  existsb (N.eqb 92) v = false ->
  compile_template escaped_template v = Some (fun _ => v).
Proof. unfold compile_template. by intros ->. Qed.

Lemma re_sub_ci_plain (k v t new : str) :
  existsb (N.eqb 92) v = false ->
  re_sub_ci ci_eq escaped_template k v t = Some new ->
  new = t \/ contains v new = true.
Proof.
  intros Hv. unfold re_sub_ci. rewrite (plain_template v Hv).
  intros [= <-].
  destruct (scan_replace_const (matches_at ci_eq k) (length k) v 0 t)
    as [H|H]; [left|right; done].
  by rewrite H, drop_0.
Qed.

(** What one pair does to a line. *)
Lemma check_entity_skips i src gs t k v :
  guard k src = false -> step i src (gs, t) (k, v) = (gs, t).
Proof. intros Hk. unfold check_entity. cbn [fst snd]. by rewrite Hk. Qed.

Lemma check_entity_cases i src gs t k v :
  guard k src = true ->
  let st' := step i src (gs, t) (k, v) in
  (present v t = true /\ st'.2 = t /\
   inconsistency_details st'.1 = inconsistency_details gs)
  \/
  (present v t = false /\ v <> k /\ st'.2 <> t /\
   re_sub_ci ci_eq escaped_template k v t = Some st'.2 /\
   (existsb (N.eqb 92) v = false -> contains v st'.2 = true) /\
   inconsistency_details st'.1 = inconsistency_details gs)
  \/
  (present v t = false /\ st'.2 = t /\ finds ci_eq k src = true /\
   inconsistency_details st'.1
   = inconsistency_details gs ++
     [mk_detail (i + 1) k v (abbreviate src) (abbreviate t)])
  \/
  (present v t = false /\ st'.2 = t /\ finds ci_eq k src = false /\
   inconsistency_details st'.1 = inconsistency_details gs).
Proof.
  intros Hk. cbv zeta. unfold check_entity. cbn [fst snd]. rewrite Hk.
  destruct (present v t) eqn:Hp.
  - left. done.
  - assert (Hrest :
      let st' :=
        if finds ci_eq k src
        then (mk_check_state
                (inconsistency_details gs ++
                   [mk_detail (i + 1) k v (abbreviate src) (abbreviate t)])
                (entities_verified gs) (entities_auto_fixed gs)
                (entity_database gs), t)
        else (gs, t) in
      (false = false /\ st'.2 = t /\ finds ci_eq k src = true /\
       inconsistency_details st'.1
       = inconsistency_details gs ++
         [mk_detail (i + 1) k v (abbreviate src) (abbreviate t)])
      \/
      (false = false /\ st'.2 = t /\ finds ci_eq k src = false /\
       inconsistency_details st'.1 = inconsistency_details gs)).
    { cbv zeta. destruct (finds ci_eq k src); [left|right]; done. }
    cbv zeta in Hrest.
    unfold auto_fix.
    destruct (truthy v && negb (bool_decide (v = k))) eqn:Hcond.
    + apply andb_true_iff in Hcond as [_ Hne].
      apply negb_true_iff, bool_decide_eq_false in Hne.
      destruct (re_sub_ci ci_eq escaped_template k v t) as [new|] eqn:Hsub.
      * destruct (bool_decide (new <> t)) eqn:Hchg.
        -- apply bool_decide_eq_true in Hchg.
           right. left. cbn [fst snd]. split_and!; try done.
           intros Hv.
           destruct (re_sub_ci_plain k v t new Hv Hsub) as [?|Hc]; done.
        -- right. right. exact Hrest.
      * right. right. exact Hrest.
    + right. right. exact Hrest.
Qed.

(** Any pair, on any line: the report grows, and the text written does not
    depend on the shared variables or on the line number. *)
Lemma check_entity_extends i src gs t e :
  extends gs (step i src (gs, t) e).1.
Proof.
  assert (Hsame : forall gs' : check_state,
            inconsistency_details gs' = inconsistency_details gs ->
            extends gs gs').
  { intros gs' H. exists []. by rewrite app_nil_r. }
  unfold check_entity. cbn [fst snd].
  destruct (ci_contains _ _ _); [|by apply Hsame].
  destruct (translation_present _ _ _); [by apply Hsame|].
  destruct (auto_fix _ _ _ _ _); [by apply Hsame|].
  destruct (finds _ _ _); [|by apply Hsame].
  eexists. reflexivity.
Qed.

Lemma check_entity_text i i' src gs gs' t e :
  (step i src (gs, t) e).2 = (step i' src (gs', t) e).2.
Proof.
  unfold check_entity. cbn [fst snd].
  destruct (ci_contains _ _ _); [|done].
  destruct (translation_present _ _ _); [done|].
  destruct (auto_fix _ _ _ _ _); [done|].
  by destruct (finds _ _ _).
Qed.

(** An entry that a pair adds to the report carries the number of the
    line, the pair, and the conditions under which it is added. *)
Lemma check_entity_new_detail i src gs t k v d :
  d ∈ inconsistency_details (step i src (gs, t) (k, v)).1 ->
  d ∈ inconsistency_details gs \/
  (d_line d = (i + 1)%nat /\ d_entity d = k /\ d_expected d = v /\
   unfixed src t (step i src (gs, t) (k, v)).2 k v).
Proof.
  destruct (guard k src) eqn:Hk.
  - pose proof (check_entity_cases i src gs t k v Hk) as Hcases.
    cbv zeta in Hcases.
    destruct Hcases
      as [(_ & _ & Hd) | [(_ & _ & _ & _ & _ & Hd)
          | [(Hp & Ht & Hf & Hd) | (_ & _ & _ & Hd)]]];
      rewrite Hd; try (by left).
    intros [H|H]%elem_of_app; [by left|].
    apply list_elem_of_singleton in H as ->. right.
    unfold unfixed. by rewrite Ht.
  - rewrite (check_entity_skips i src gs t k v Hk). by left.
Qed.

(** *** All pairs on one line *)

Lemma fold_check_extends i src pairs gs t :
  extends gs (fold_left (step i src) pairs (gs, t)).1.
Proof.
  revert gs t. induction pairs as [|e pairs IH]; intros gs t; simpl.
  - apply extends_refl.
  - pose proof (check_entity_extends i src gs t e) as H1.
    destruct (step i src (gs, t) e) as [gs1 t1]. simpl in H1.
    eapply extends_trans; [exact H1|apply IH].
Qed.

Lemma fold_check_text i i' src pairs gs gs' t :
  (fold_left (step i src) pairs (gs, t)).2
  = (fold_left (step i' src) pairs (gs', t)).2.
Proof.
  revert gs gs' t. induction pairs as [|e pairs IH]; intros gs gs' t; simpl.
  - done.
  - pose proof (check_entity_text i i' src gs gs' t e) as H1.
    destruct (step i src (gs, t) e) as [gs1 t1].
    destruct (step i' src (gs', t) e) as [gs1' t1']. simpl in H1. subst t1'.
    apply IH.
Qed.

Lemma fold_check_new_detail i src pairs gs t d :
  d ∈ inconsistency_details (fold_left (step i src) pairs (gs, t)).1 ->
  d ∈ inconsistency_details gs \/
  exists pre k v post,
    pairs = pre ++ (k, v) :: post /\
    d_line d = (i + 1)%nat /\ d_entity d = k /\ d_expected d = v /\
    unfixed src (fold_left (step i src) pre (gs, t)).2
      (fold_left (step i src) (pre ++ [(k, v)]) (gs, t)).2 k v.
Proof.
  revert gs t. induction pairs as [|[k0 v0] pairs IH]; intros gs t; simpl.
  - by left.
  - pose proof (check_entity_new_detail i src gs t k0 v0 d) as H1.
    destruct (step i src (gs, t) (k0, v0)) as [gs1 t1] eqn:Hstep.
    cbn [fst snd] in H1.
    intros [H|(pre & k & v & post & -> & Hl & He & Hx & Hu)]%IH.
    + destruct (H1 H) as [H'|(Hl & He & Hx & Hu)]; [by left|].
      right. exists [], k0, v0, pairs. simpl. rewrite Hstep.
      split_and!; done.
    + right. exists ((k0, v0) :: pre), k, v, post. simpl. rewrite Hstep.
      split_and!; done.
Qed.

Lemma check_line_extends m gs i src t : extends gs (line m gs i src t).1.
Proof.
  unfold check_line. destruct (negb (truthy t)); [apply extends_refl|].
  apply fold_check_extends.
Qed.

Lemma check_line_text m gs i src t :
  (line m gs i src t).2 = text_after m src t.
Proof.
  unfold running_text, check_line. destruct (negb (truthy t)); [done|].
  apply fold_check_text.
Qed.

Lemma running_text_truthy pairs src trans :
  truthy trans = true ->
  forall gs i,
    text_after pairs src trans
    = (fold_left (step i src) pairs (gs, trans)).2.
Proof.
  intros Ht gs i. unfold running_text, check_line. rewrite Ht. simpl.
  apply fold_check_text.
Qed.

Lemma check_line_new_detail m gs i src t d :
  d ∈ inconsistency_details (line m gs i src t).1 ->
  d ∈ inconsistency_details gs \/
  (truthy t = true /\
   exists pre k v post,
     m = pre ++ (k, v) :: post /\
     d_line d = (i + 1)%nat /\ d_entity d = k /\ d_expected d = v /\
     unfixed src (text_after pre src t)
       (text_after (pre ++ [(k, v)]) src t) k v).
Proof.
  unfold check_line. destruct (truthy t) eqn:Ht; simpl; [|by left].
  intros [H|(pre & k & v & post & Hm & Hl & He & Hx & Hu)]%fold_check_new_detail;
    [by left|].
  right. split; [done|]. exists pre, k, v, post.
  rewrite (running_text_truthy pre src t Ht gs i).
  rewrite (running_text_truthy (pre ++ [(k, v)]) src t Ht gs i).
  split_and!; done.
Qed.

(** *** All lines *)

Lemma check_lines_cons m gs i src t rest :
  lines m gs i ((src, t) :: rest)
  = ((lines m (line m gs i src t).1 (S i) rest).1,
     (line m gs i src t).2 :: (lines m (line m gs i src t).1 (S i) rest).2).
Proof. reflexivity. Qed.

Lemma check_lines_extends m gs i ls : extends gs (lines m gs i ls).1.
Proof.
  revert gs i. induction ls as [|[src t] rest IH]; intros gs i.
  - apply extends_refl.
  - rewrite check_lines_cons. cbn [fst].
    eapply extends_trans; [apply check_line_extends|apply IH].
Qed.

Lemma check_lines_lookup m gs i ls j src t :
  ls !! j = Some (src, t) ->
  exists gsj,
    (lines m gs i ls).2 !! j = Some (line m gsj (i + j) src t).2 /\
    extends (line m gsj (i + j) src t).1 (lines m gs i ls).1.
Proof.
  revert gs i j. induction ls as [|[src0 t0] rest IH]; intros gs i j Hj.
  - by rewrite lookup_nil in Hj.
  - rewrite check_lines_cons. cbn [fst snd].
    destruct j as [|j]; simpl in Hj.
    + injection Hj as -> ->. exists gs. rewrite Nat.add_0_r.
      split; [done|]. apply check_lines_extends.
    + destruct (IH (line m gs i src0 t0).1 (S i) j Hj) as (gsj & H1 & H2).
      exists gsj. replace (i + S j)%nat with (S i + j)%nat by lia.
      split; [exact H1|exact H2].
Qed.

(** Every entry of the report stands for a line and a pair of the mapping
    that the line left unfixed. *)
Lemma check_lines_new_detail m gs i ls d :
  d ∈ inconsistency_details (lines m gs i ls).1 ->
  d ∈ inconsistency_details gs \/
  exists j src t,
    ls !! j = Some (src, t) /\ truthy t = true /\
    exists pre k v post,
      m = pre ++ (k, v) :: post /\
      d_line d = (i + j + 1)%nat /\ d_entity d = k /\ d_expected d = v /\
      unfixed src (text_after pre src t)
        (text_after (pre ++ [(k, v)]) src t) k v.
Proof.
  revert gs i. induction ls as [|[src0 t0] rest IH]; intros gs i.
  - by left.
  - rewrite check_lines_cons. cbn [fst].
    intros [H|(j & src & t & Hj & Ht & pre & k & v & post & Hm & Hl & Hr)]%IH.
    + apply check_line_new_detail in H
        as [H|(Ht & pre & k & v & post & Hm & Hl & Hr)]; [by left|].
      right. exists 0%nat, src0, t0. split_and!; [done|done|].
      exists pre, k, v, post. split_and!; [done|lia|apply Hr..].
    + right. exists (S j), src, t. split_and!; [done|done|].
      exists pre, k, v, post. split_and!; [done|lia|apply Hr..].
Qed.

Lemma check_lines_length m gs i ls :
  length (lines m gs i ls).2 = length ls.
Proof.
  revert gs i. induction ls as [|[src t] rest IH]; intros gs i; [done|].
  rewrite check_lines_cons. simpl. by rewrite IH.
Qed.

(** *** One pair within the processing of a line *)

Lemma check_line_pair_skips src trans pre k v :
  guard k src = false ->
  text_after (pre ++ [(k, v)]) src trans = text_after pre src trans.
Proof.
  intros Hk. unfold running_text, check_line.
  destruct (negb (truthy trans)); [done|].
  rewrite fold_left_app. cbn [fold_left].
  destruct (fold_left _ pre _) as [g1 t1].
  by rewrite (check_entity_skips 0 src g1 t1 k v Hk).
Qed.

Lemma check_line_pair m gs i src trans pre k v post :
  truthy trans = true ->
  m = pre ++ (k, v) :: post ->
  guard k src = true ->
  let before := text_after pre src trans in
  let after := text_after (pre ++ [(k, v)]) src trans in
  (present v before = true /\ after = before)
  \/
  (present v before = false /\ v <> k /\ after <> before /\
   re_sub_ci ci_eq escaped_template k v before = Some after /\
   (existsb (N.eqb 92) v = false -> contains v after = true))
  \/
  (present v before = false /\ after = before /\
   finds ci_eq k src = true /\
   reported (i + 1) k v (line m gs i src trans).1)
  \/
  (present v before = false /\ after = before /\
   finds ci_eq k src = false).
Proof.
  intros Ht -> Hk. cbv zeta.
  rewrite (running_text_truthy pre src trans Ht gs i).
  rewrite (running_text_truthy (pre ++ [(k, v)]) src trans Ht gs i).
  unfold check_line. rewrite Ht. cbn [negb].
  rewrite !fold_left_app. cbn [fold_left].
  destruct (fold_left (step i src) pre (gs, trans)) as [g1 t1].
  cbn [snd].
  destruct (check_entity_cases i src g1 t1 k v Hk)
    as [(Hp & Ht2 & _) | [(Hp & Hne & Ht2 & Hsub & Hc & _)
        | [(Hp & Ht2 & Hf & Hd) | (Hp & Ht2 & Hf & _)]]].
  - left. done.
  - right. left. done.
  - right. right. left. split_and!; [done|done|done|].
    eapply extends_reported.
    + pose proof (fold_check_extends i src post
                    (step i src (g1, t1) (k, v)).1
                    (step i src (g1, t1) (k, v)).2) as He.
      rewrite <- surjective_pairing in He. exact He.
    + eexists. split; [rewrite Hd; apply elem_of_app; right;
                       apply list_elem_of_singleton; reflexivity|].
      done.
  - right. right. right. done.
Qed.

End ConsistencyFacts.

(** Stand-ins on the code points of the examples.  [str.lower] on the
    ASCII letters and on the capital I with a dot above (U+0130), which
    it turns into an [i] followed by a combining dot (U+0307); the
    comparison of [re.IGNORECASE] on the same code points, for which
    U+0130 is an [i]. *)
Definition sample_lower (s : str) : str :=
  concat (map (fun c => if (c =? 304)%N then [105; 775]%N
                        else [ascii_lower_cp c]) s).

Definition sample_ci_eq (a b : N) : bool :=
  let fold c := if (c =? 304)%N then 105%N else ascii_lower_cp c in
  (fold a =? fold b)%N.

(** The scenario of the specification: the table maps Beclin to Beclin1,
    the source term is still in the translation, and Stage B rewrites
    it; nothing is reported. *)
Example consistency_auto_fix_scenario :
  let result :=
    Consistency.check_entity_consistency sample_lower sample_ci_eq id id
      (fun _ => None)
      [(of_ascii "Beclin",
        Consistency.TermInfo None
          (Some (Consistency.Str (of_ascii "Beclin1"))))]
      ∅
      [of_ascii "Beclin regulates autophagy."]
      [of_ascii "Beclin tiaojie zishi."] in
  result.1 = [of_ascii "Beclin1 tiaojie zishi."] /\
  Consistency.inconsistency_details result.2 = [] /\
  Consistency.entities_auto_fixed result.2 = 1%nat.
Proof. vm_compute. repeat split; reflexivity. Qed.

(** A pair that was found in place can be undone by a later pair: the
    table maps [Beclin 1] to that name followed by two Chinese characters
    and [Beclin] to a Chinese name; the first pair is found in the line,
    the second one rewrites [Beclin] inside it; at the end the line does
    not contain the first translation and the report is empty. *)
Example consistency_later_pair_rewrites :
  let v1 := of_ascii "Beclin 1" ++ [34507; 30333]%N in
  let v2 := [36125; 20811; 26519]%N in
  let result :=
    Consistency.check_entity_consistency sample_lower sample_ci_eq id id
      (fun _ => None)
      [(of_ascii "Beclin 1", Consistency.TermInfo None (Some (Consistency.Str v1)));
       (of_ascii "Beclin", Consistency.TermInfo None (Some (Consistency.Str v2)))]
      ∅
      [of_ascii "Beclin 1 binds Bcl-2."]
      [v1 ++ of_ascii " binds Bcl-2."] in
  result.1 = [v2 ++ of_ascii " 1" ++ [34507; 30333]%N ++ of_ascii " binds Bcl-2."] /\
  Consistency.translation_present sample_lower v1
    (v2 ++ of_ascii " 1" ++ [34507; 30333]%N ++ of_ascii " binds Bcl-2.")
  = false /\
  Consistency.inconsistency_details result.2 = [].
Proof. vm_compute. repeat split; reflexivity. Qed.

(** The comparison of the lowered strings and the regular expression can
    disagree.  The key is the name of the city in capitals with U+0130
    as its first letter, the value its Chinese name; in the source text
    the name is in small letters, an [i] followed by a combining dot.
    The lowered key is in the lowered source text, the translation does
    not hold the value and the replacement finds nothing to rewrite, but
    the regular expression does not find the key in the source text: the
    line is returned as it is and nothing is reported. *)
Example consistency_guard_and_search_differ :
  let key := [304%N] ++ of_ascii "STANBUL" in
  let val := [20234; 26031; 22374; 24067; 23572]%N in
  let source := [105; 775]%N ++ of_ascii "stanbul is large." in
  let translation := of_ascii "Yisitanbuer hen da." in
  let result :=
    Consistency.check_entity_consistency sample_lower sample_ci_eq id id
      (fun _ => None)
      [(key, Consistency.TermInfo None (Some (Consistency.Str val)))]
      ∅ [source] [translation] in
  Consistency.ci_contains sample_lower key source = true /\
  Consistency.finds sample_ci_eq key source = false /\
  Consistency.translation_present sample_lower val translation = false /\
  result.1 = [translation] /\
  Consistency.inconsistency_details result.2 = [].
Proof. vm_compute. repeat split; reflexivity. Qed.




(** ** The planner and the translator chunk alike *)

Section PlannerFacts.

Context {A S : Type}.
Variable source_text : A -> str.
Variable token_count : A -> Z.
Variable is_untranslated : A -> bool.
Variable limit_is_token : bool.
Variable previous_line_count : Z.
Variable analyze_chunk_strategy : list A -> Z -> S.

Local Abbreviation analysis :=
  (imap (fun k c => analyze_chunk_strategy c (Z.of_nat k))).
Local Abbreviation plan_step :=
  (Planner.plan_step source_text token_count limit_is_token
     analyze_chunk_strategy).
Local Abbreviation plan_file :=
  (Planner.plan_file source_text token_count is_untranslated limit_is_token
     analyze_chunk_strategy).
Local Abbreviation prep_step :=
  (Chunker.prep_step source_text token_count limit_is_token
     previous_line_count).
Local Abbreviation prep_loop :=
  (Chunker.prep_loop source_text token_count limit_is_token
     previous_line_count).
Local Abbreviation prep_file :=
  (Chunker.prepare_file source_text token_count is_untranslated
     limit_is_token previous_line_count).

(** The planner's loop simulates the translator's: the strategies assigned
    so far are the analyses of the chunks committed so far, numbered from
    zero, and both build the same chunk. *)
Record plan_sim (st : Chunker.prep_state) (pl : @Planner.plan_state A S)
  : Prop := {
  ps_strategies :
    Planner.chunk_strategies pl = analysis (Chunker.p_chunks st);
  ps_index :
    Planner.chunk_index pl = Z.of_nat (length (Chunker.p_chunks st));
  ps_current : Planner.current_chunk pl = Chunker.p_current_chunk st;
  ps_chars :
    Chunker.p_current_chunk st <> [] ->
    Planner.chunk_chars pl = Chunker.p_chunk_chars st;
  ps_chars_empty :
    Chunker.p_current_chunk st = [] -> Planner.chunk_chars pl = 0
}.

Lemma analysis_snoc (cs : list (list A)) (c : list A) :
  analysis (cs ++ [c])
  = analysis cs ++ [analyze_chunk_strategy c (Z.of_nat (length cs))].
Proof.
  rewrite imap_app. simpl. by rewrite Nat.add_0_r.
Qed.

Lemma plan_step_sim items fp st pl i x :
  plan_sim st pl -> plan_sim (prep_step items fp st i x) (plan_step pl x).
Proof.
  destruct st as [chs ctx fps cur cl csi cc].
  destruct pl as [ss ci pcur pcl pcc].
  intros [Hs Hi Hc Hch Hch0]. simpl in *. subst pcur.
  unfold Chunker.prep_step, Planner.plan_step, Chunker.prep_flush,
    Planner.assign; simpl.
  destruct (Z.ltb_spec Chunker.MAX_CHUNK_CHARS (len (source_text x)))
    as [Hlong|Hshort].
  - destruct cur as [|y cur]; simpl.
    + split; simpl; auto; try congruence.
      * by rewrite analysis_snoc, Hs, Hi.
      * rewrite length_app. simpl. lia.
    + split; simpl; auto; try congruence.
      * rewrite !analysis_snoc, Hs, Hi, length_app. simpl.
        rewrite <- app_assoc. simpl.
        replace (Z.of_nat (length chs) + 1)
          with (Z.of_nat (length chs + 1)) by lia.
        by rewrite <- app_assoc.
      * rewrite !length_app. simpl. lia.
  - destruct cur as [|y cur]; simpl.
    + rewrite (Hch0 eq_refl).
      split; simpl; auto; try congruence.
    + rewrite (Hch ltac:(congruence)).
      destruct (Z.ltb_spec Chunker.MAX_CHUNK_CHARS (cc + len (source_text x)))
        as [Hover|Hfit]; simpl.
      * split; simpl; auto; try congruence.
        -- by rewrite analysis_snoc, Hs, Hi.
        -- rewrite length_app. simpl. lia.
      * split; simpl; auto; try congruence.
Qed.

Lemma plan_loop_sim items fp rest st pl i :
  plan_sim st pl ->
  plan_sim (prep_loop items fp i rest st) (fold_left plan_step rest pl).
Proof.
  revert st pl i. induction rest as [|x rest IH]; intros st pl i Hsim; simpl.
  - done.
  - apply IH. by apply plan_step_sim.
Qed.

(** Between two files only the accumulators matter. *)
Definition plan_acc (acc : Chunker.prep_state) (pl : @Planner.plan_state A S)
  : Prop :=
  Planner.chunk_strategies pl = analysis (Chunker.p_chunks acc) /\
  Planner.chunk_index pl = Z.of_nat (length (Chunker.p_chunks acc)).

Lemma plan_file_acc acc pl (file : str * list A) :
  plan_acc acc pl -> plan_acc (prep_file acc file) (plan_file pl file).
Proof.
  intros [Hs Hi]. unfold Chunker.prepare_file, Planner.plan_file.
  set (items := filter _ file.2).
  destruct (Chunker.nonempty items) eqn:Hne; [|done].
  set (st0 := Chunker.mk_prep_state _ _ _ _ _ _ _).
  set (pl0 := Planner.mk_plan_state _ _ _ _ _).
  assert (Hsim0 : plan_sim st0 pl0).
  { subst st0 pl0. split; simpl; auto. congruence. }
  pose proof (plan_loop_sim items file.1 items st0 pl0 0%nat Hsim0) as Hsim.
  set (st := prep_loop items file.1 0%nat items st0) in *.
  set (pl' := fold_left plan_step items pl0) in *.
  destruct Hsim as [Hs' Hi' Hc' _ _].
  rewrite Hc'.
  destruct (Chunker.p_current_chunk st) as [|y cur] eqn:Hcur; simpl.
  - done.
  - unfold Chunker.prep_flush, Planner.assign, plan_acc; simpl.
    rewrite analysis_snoc, Hs', Hi', Hcur, length_app. simpl.
    split; [done | lia].
Qed.

Lemma plan_fold_acc files acc pl :
  plan_acc acc pl ->
  plan_acc (fold_left prep_file files acc) (fold_left plan_file files pl).
Proof.
  revert acc pl. induction files as [|f files IH]; intros acc pl Hacc; simpl.
  - done.
  - apply IH. by apply plan_file_acc.
Qed.

Lemma planner_analysis_of_chunks (files : list (str * list A)) :
  Planner.analyze_chunks_and_assign_strategies source_text token_count
    is_untranslated limit_is_token analyze_chunk_strategy files
  = analysis
      (Chunker.prepare_translation_chunks source_text token_count
         is_untranslated limit_is_token previous_line_count files).1.1.
Proof.
  unfold Planner.analyze_chunks_and_assign_strategies,
    Chunker.prepare_translation_chunks. simpl.
  by destruct (plan_fold_acc files
       (Chunker.mk_prep_state [] [] [] [] 0 0 0)
       (Planner.mk_plan_state [] 0 [] 0 0) (conj eq_refl eq_refl)).
Qed.

Lemma prepared_lengths (files : list (str * list A)) :
  let r := Chunker.prepare_translation_chunks source_text token_count
             is_untranslated limit_is_token previous_line_count files in
  length r.1.2 = length r.1.1 /\ length r.2 = length r.1.1 /\
  concat r.1.1 = Chunker.untranslated_items is_untranslated files.
Proof.
  unfold Chunker.prepare_translation_chunks. simpl.
  assert (Hinit : prep_acc source_text
                    (Chunker.mk_prep_state [] [] [] [] 0 0 0) []).
  { split; simpl; auto. }
  pose proof (prepare_fold_acc source_text token_count is_untranslated
                limit_is_token previous_line_count files _ [] Hinit)
    as [Hc _ _ Hx Hp].
  simpl in Hc. done.
Qed.

End PlannerFacts.

(** Reading the plan at a position it has. *)
Lemma chunk_strategy_info_lookup {S : Type} (plan : list S) (k : nat) (s : S) :
  plan !! k = Some s ->
  Planner.chunk_strategy_info plan (Z.of_nat k + 1) = Planner.Planned s.
Proof.
  intros Hk. apply lookup_lt_Some in Hk as Hlt.
  unfold Planner.chunk_strategy_info.
  replace (Z.of_nat k + 1 - 1) with (Z.of_nat k) by lia.
  destruct (Z.ltb_spec (Z.of_nat k) (Z.of_nat (length plan))); [|lia].
  cbv zeta.
  destruct (Z.ltb_spec (Z.of_nat k) 0); [lia|]. cbv iota.
  destruct (Z.ltb_spec (Z.of_nat k) 0); [lia|].
  by rewrite Nat2Z.id, Hk.
Qed.

(** The strategy list of the planner is the list of the analyses of the
    translator's chunks: [_analyze_chunks_and_assign_strategies] calls
    [_analyze_chunk_strategy] once for every chunk that
    [_prepare_translation_chunks] returns for the same project, in the same
    order, and passes it the chunk's position counted from zero. *)
Theorem planner_strategies_follow_translation_chunks
  {A S : Type} (source_text : A -> str) (token_count : A -> Z)
  (is_untranslated : A -> bool) (limit_is_token : bool)
  (previous_line_count : Z) (analyze_chunk_strategy : list A -> Z -> S)
  (files : list (str * list A)) :
  let chunks :=
    (Chunker.prepare_translation_chunks source_text token_count
       is_untranslated limit_is_token previous_line_count files).1.1 in
  let plan :=
    Planner.analyze_chunks_and_assign_strategies source_text token_count
      is_untranslated limit_is_token analyze_chunk_strategy files in
  length plan = length chunks /\
  forall k c, chunks !! k = Some c ->
    plan !! k = Some (analyze_chunk_strategy c (Z.of_nat k)).
Proof.
  intros chunks plan. subst plan.
  rewrite (planner_analysis_of_chunks source_text token_count is_untranslated
             limit_is_token previous_line_count analyze_chunk_strategy files).
  fold chunks. split.
  - by rewrite length_imap.
  - intros k c Hk. by rewrite list_lookup_imap, Hk.
Qed.

(** Every job that [execute] submits finds its own strategy: for the job
    numbered [idx] (from one) over the chunk [c], [_translate_chunk] reads
    from a plan made for the same project the analysis of [c] at position
    [idx - 1]; it neither falls back to the default strategy nor reads the
    entry of another chunk.  Every chunk gets a job. *)
Theorem translate_chunk_finds_planned_strategy
  {A S : Type} (source_text : A -> str) (token_count : A -> Z)
  (is_untranslated : A -> bool) (limit_is_token : bool)
  (previous_line_count : Z) (analyze_chunk_strategy : list A -> Z -> S)
  (files : list (str * list A)) :
  let r := Chunker.prepare_translation_chunks source_text token_count
             is_untranslated limit_is_token previous_line_count files in
  let jobs := Planner.translation_jobs r.1.1 r.1.2 r.2 in
  let plan :=
    Planner.analyze_chunks_and_assign_strategies source_text token_count
      is_untranslated limit_is_token analyze_chunk_strategy files in
  length jobs = length r.1.1 /\
  forall idx c ctx path, (idx, (c, ctx, path)) ∈ jobs ->
    Planner.chunk_strategy_info plan idx
    = Planner.Planned (analyze_chunk_strategy c (idx - 1)).
Proof.
  intros r jobs plan.
  destruct (prepared_lengths source_text token_count is_untranslated
              limit_is_token previous_line_count files) as (Hx & Hp & _).
  fold r in Hx, Hp. split.
  - subst jobs. unfold Planner.translation_jobs.
    rewrite length_imap, !length_zip_with. lia.
  - intros idx c ctx path Hin. subst jobs plan.
    unfold Planner.translation_jobs in Hin.
    apply elem_of_lookup_imap in Hin as (k & job & Heq & Hk).
    injection Heq as -> <-.
    apply lookup_zip_with_Some in Hk as (cx & p & Hcx & Hk & _).
    apply lookup_zip_with_Some in Hk as (c' & x' & Hc' & Hk & _).
    subst cx. injection Hcx as -> -> ->.
    rewrite (planner_analysis_of_chunks source_text token_count
               is_untranslated limit_is_token previous_line_count
               analyze_chunk_strategy files).
    fold r.
    replace (Z.of_nat k + 1 - 1) with (Z.of_nat k) by lia.
    apply chunk_strategy_info_lookup.
    by rewrite list_lookup_imap, Hk.
Qed.

(** ** The planner's counts *)

Section PlannerCounts.

Context {A : Type}.
Variable source_text : A -> str.
Variable is_untranslated : A -> bool.

Lemma count_items_fold (items : list A) (acc : Z * Z) :
  fold_left
    (fun (acc : Z * Z) item =>
       if is_untranslated item
       then (acc.1 + 1, acc.2 + len (source_text item))
       else acc)
    items acc
  = (acc.1 + Z.of_nat (length (filter (fun it => is_untranslated it = true)
                                       items)),
     acc.2 + Chunker.total_chars source_text
               (filter (fun it => is_untranslated it = true) items)).
Proof.
  revert acc. induction items as [|x items IH]; intros [u l]; simpl.
  - f_equal; lia.
  - rewrite IH, filter_cons. destruct (is_untranslated x) eqn:Hx.
    + rewrite decide_True by done. simpl. f_equal; lia.
    + rewrite decide_False by congruence. done.
Qed.

Lemma count_files_fold (files : list (str * list A)) (acc : Z * Z) :
  fold_left
    (fun acc (file : str * list A) =>
       fold_left
         (fun (acc : Z * Z) item =>
            if is_untranslated item
            then (acc.1 + 1, acc.2 + len (source_text item))
            else acc)
         file.2 acc)
    files acc
  = (acc.1 + Z.of_nat (length (Chunker.untranslated_items is_untranslated
                                 files)),
     acc.2 + Chunker.total_chars source_text
               (Chunker.untranslated_items is_untranslated files)).
Proof.
  revert acc. induction files as [|f files IH]; intros [u l].
  - unfold Chunker.untranslated_items. simpl. f_equal; lia.
  - cbn [fold_left]. rewrite IH, count_items_fold.
    unfold Chunker.untranslated_items. cbn [map concat fst snd].
    rewrite length_app, (total_chars_app source_text). f_equal; lia.
Qed.

Lemma count_units_spec (files : list (str * list A)) :
  Planner.count_units source_text is_untranslated files
  = (Z.of_nat (length (Chunker.untranslated_items is_untranslated files)),
     Chunker.total_chars source_text
       (Chunker.untranslated_items is_untranslated files)).
Proof. unfold Planner.count_units. by rewrite count_files_fold. Qed.

Lemma analyze_task_complexity_units (files : list (str * list A)) :
  let ta := Planner.analyze_task_complexity source_text is_untranslated files in
  Planner.total_units ta
  = Z.of_nat (length (Chunker.untranslated_items is_untranslated files)) /\
  Planner.total_length ta
  = Chunker.total_chars source_text
      (Chunker.untranslated_items is_untranslated files).
Proof.
  unfold Planner.analyze_task_complexity. rewrite count_units_spec.
  destruct (_ && _); [done|]. destruct (_ && _); done.
Qed.

Lemma execute_total_units_concat (chunks : list (list A)) :
  Planner.execute_total_units chunks = Z.of_nat (length (concat chunks)).
Proof.
  induction chunks as [|c chunks IH]; simpl; [done|].
  rewrite length_app, IH. lia.
Qed.

End PlannerCounts.

(** The planner and the translator count the same units:
    [_analyze_task_complexity] reports as [total_units] the number of
    untranslated items of the project, which is the [total_units] that
    [execute] computes from the chunks of [_prepare_translation_chunks];
    the planned batch size is between zero and that number, and at most
    200. *)
Theorem planned_units_are_the_translated_units
  {A : Type} (source_text : A -> str) (token_count : A -> Z)
  (is_untranslated : A -> bool) (limit_is_token : bool)
  (previous_line_count : Z) (files : list (str * list A)) :
  let ta := Planner.analyze_task_complexity source_text is_untranslated files in
  let chunks :=
    (Chunker.prepare_translation_chunks source_text token_count
       is_untranslated limit_is_token previous_line_count files).1.1 in
  let plan := Planner.create_execution_plan ta in
  Planner.total_units ta = Planner.execute_total_units chunks /\
  Planner.total_units ta
  = Z.of_nat (length (Chunker.untranslated_items is_untranslated files)) /\
  0 <= Planner.batch_size plan <= Planner.total_units ta /\
  Planner.batch_size plan <= 200.
Proof.
  intros ta chunks plan.
  destruct (analyze_task_complexity_units source_text is_untranslated files)
    as [Hu _]. fold ta in Hu.
  destruct (prepared_lengths source_text token_count is_untranslated
              limit_is_token previous_line_count files) as (_ & _ & Hc).
  split_and!.
  - rewrite execute_total_units_concat. subst chunks. by rewrite Hc.
  - done.
  - subst plan. unfold Planner.create_execution_plan.
    destruct (Planner.task_complexity ta); simpl; lia.
  - subst plan. unfold Planner.create_execution_plan.
    destruct (Planner.task_complexity ta); simpl; lia.
  - subst plan. unfold Planner.create_execution_plan.
    destruct (Planner.task_complexity ta); simpl; lia.
Qed.

(** ** The breakdown of the API calls *)

Section BreakdownFacts.

Import Planner.

Lemma count_strategy_sum s counts :
  sum_counts (count_strategy s counts) = sum_counts counts + 1.
Proof.
  unfold sum_counts.
  induction counts as [|[s' c] counts IH]; simpl; [lia|].
  destruct (bool_decide (s' = s)); simpl; [lia|].
  rewrite IH. lia.
Qed.

Lemma count_strategy_get s s' counts :
  get_count s' (count_strategy s counts)
  = get_count s' counts + (if bool_decide (s = s') then 1 else 0).
Proof.
  induction counts as [|[k c] counts IH]; simpl.
  - destruct (bool_decide (s = s')); lia.
  - destruct (bool_decide (k = s)) eqn:Hks; simpl.
    + apply bool_decide_eq_true in Hks as ->.
      destruct (bool_decide (s = s')); lia.
    + apply bool_decide_eq_false in Hks.
      destruct (bool_decide (k = s')) eqn:Hks'; [|done].
      apply bool_decide_eq_true in Hks' as ->.
      rewrite bool_decide_eq_false_2 by congruence. lia.
Qed.

Lemma count_strategy_keys s counts k :
  k ∈ map fst (count_strategy s counts) <-> k = s \/ k ∈ map fst counts.
Proof.
  induction counts as [|[s' c] counts IH]; simpl.
  - rewrite list_elem_of_singleton. rewrite elem_of_nil. tauto.
  - destruct (bool_decide (s' = s)) eqn:Hs; simpl.
    + apply bool_decide_eq_true in Hs as ->.
      rewrite !elem_of_cons. tauto.
    + rewrite !elem_of_cons, IH. tauto.
Qed.

Lemma count_strategy_NoDup s counts :
  NoDup (map fst counts) -> NoDup (map fst (count_strategy s counts)).
Proof.
  induction counts as [|[s' c] counts IH]; simpl; intros Hnd.
  - apply NoDup_singleton.
  - apply NoDup_cons in Hnd as [Hnin Hnd].
    destruct (bool_decide (s' = s)) eqn:Hs; simpl.
    + apply NoDup_cons. done.
    + apply bool_decide_eq_false in Hs.
      apply NoDup_cons. split; [|by apply IH].
      rewrite count_strategy_keys. intros [->|Hin]; done.
Qed.

(** The loop [for chunk_info in chunk_strategies] over a list whose
    strategies are [strategies], starting from the counts [counts]. *)
Lemma count_fold strategies counts :
  let counts' :=
    fold_left (fun counts s => count_strategy s counts) strategies counts in
  sum_counts counts' = sum_counts counts + Z.of_nat (length strategies) /\
  (NoDup (map fst counts) -> NoDup (map fst counts')) /\
  (forall s, get_count s counts'
             = get_count s counts + occurrences s strategies) /\
  (forall k, k ∈ map fst counts' <-> k ∈ strategies \/ k ∈ map fst counts).
Proof.
  revert counts. induction strategies as [|x strategies IH]; intros counts.
  - simpl. split_and!; [lia|done| |].
    + intros s. unfold occurrences. simpl. lia.
    + intros k. rewrite elem_of_nil. tauto.
  - cbn [fold_left]. destruct (IH (count_strategy x counts))
      as (Hsum & Hnd & Hget & Hkeys).
    cbv zeta. split_and!.
    + rewrite Hsum, count_strategy_sum. simpl. lia.
    + intros H. by apply Hnd, count_strategy_NoDup.
    + intros s. rewrite Hget, count_strategy_get. unfold occurrences.
      rewrite filter_cons. destruct (decide (x = s)) as [->|Hne].
      * rewrite bool_decide_eq_true_2 by done. simpl. lia.
      * rewrite bool_decide_eq_false_2 by done. lia.
    + intros k. rewrite Hkeys, count_strategy_keys, elem_of_cons. tauto.
Qed.

Lemma breakdown_of_counts counts :
  let bd := map (fun sc : str * Z => (sc.1, mk_breakdown sc.2 (sc.2 * 3)))
                counts in
  sum_chunks bd = sum_counts counts /\
  sum_api_calls bd = sum_counts counts * 3 /\
  map fst bd = map fst counts /\
  (forall s, s ∈ map fst counts ->
     get_breakdown s bd
     = Some (mk_breakdown (get_count s counts) (get_count s counts * 3))).
Proof.
  induction counts as [|[s c] counts (IH1 & IH2 & IH3 & IH4)]; simpl.
  - split_and!; try done. intros s Hs. by apply elem_of_nil in Hs.
  - unfold sum_chunks, sum_api_calls, sum_counts in *. simpl in *.
    split_and!.
    + rewrite IH1. done.
    + rewrite IH2. lia.
    + by rewrite IH3.
    + intros s' Hs'. destruct (bool_decide (s = s')) eqn:Hss; [done|].
      apply bool_decide_eq_false in Hss.
      apply elem_of_cons in Hs' as [->|Hs']; [done|]. by apply IH4.
Qed.

End BreakdownFacts.

(** The breakdown of [_estimate_resources] accounts for every chunk and
    for every API call: when chunk strategies are given, the entries of
    [strategy_breakdown] have distinct strategies, the entry of each
    strategy that occurs counts the chunks with that strategy and three
    calls for each of them, the counts add up to the number of chunks, and
    the calls add up to the reported [api_calls]. *)
Theorem strategy_breakdown_accounts_for_api_calls
  (total_units : Z) (strategies : list str) :
  strategies <> [] ->
  let r := Planner.estimate_api_calls total_units strategies in
  NoDup (map fst r.2) /\
  (forall s, s ∈ map fst r.2 <-> s ∈ strategies) /\
  (forall s, s ∈ strategies ->
     Planner.get_breakdown s r.2
     = Some (Planner.mk_breakdown (Planner.occurrences s strategies)
                                  (Planner.occurrences s strategies * 3))) /\
  Planner.sum_chunks r.2 = Z.of_nat (length strategies) /\
  Planner.sum_api_calls r.2 = r.1.
Proof.
  intros Hne. destruct strategies as [|s0 rest]; [done|]. clear Hne.
  unfold Planner.estimate_api_calls. cbv zeta. cbn [fst snd].
  destruct (count_fold (s0 :: rest) []) as (Hsum & Hnd & Hget & Hkeys).
  set (counts := fold_left _ (s0 :: rest) []) in *.
  destruct (breakdown_of_counts counts) as (Hb1 & Hb2 & Hb3 & Hb4).
  cbv zeta in Hb1, Hb2, Hb3, Hb4.
  split_and!.
  - rewrite Hb3. apply Hnd. simpl. apply NoDup_nil_2.
  - intros s. rewrite Hb3, Hkeys. simpl. rewrite elem_of_nil. tauto.
  - intros s Hin. rewrite Hb4.
    + rewrite Hget. simpl. do 2 f_equal; lia.
    + apply Hkeys. by left.
  - rewrite Hb1, Hsum. unfold Planner.sum_counts. simpl. lia.
  - rewrite Hb2, Hsum. unfold Planner.sum_counts. simpl. lia.
Qed.

Lemma strategy_breakdown_accounts_for_api_calls_witness :
  let strategies := [of_ascii "free"; of_ascii "literal"; of_ascii "free"] in
  let r := Planner.estimate_api_calls 40 strategies in
  strategies <> [] /\
  r.1 = 9 /\
  Planner.sum_chunks r.2 = 3 /\
  Planner.sum_api_calls r.2 = r.1.
Proof.
  intros strategies r.
  assert (Hne : strategies <> []) by (subst strategies; discriminate).
  pose proof (strategy_breakdown_accounts_for_api_calls 40 strategies Hne)
    as (_ & _ & _ & Hc & Ha).
  split; [exact Hne|]. split; [reflexivity|].
  split; [exact Hc | exact Ha].
Defined.

(** ** Reading the active translation *)

Section TraceQueryFacts.

Import TraceStore TraceQuery.

(** What a call does to the active rows of an atom. *)
Lemma add_trace_active fault args a d :
  active_traces a (add_trace fault args d).1
  = match fault with
    | NoFault =>
      if is_translation_action (a_action_type args) && (a_atom_id args =? a)
      then [mk_trace_row (next_trace_id d) (a_atom_id args)
              (a_agent_role args) (a_action_type args) (a_content args)
              (a_quality_report args) (a_meta_data args)
              (a_input_tokens args) (a_output_tokens args) true]
      else active_traces a d
    | _ => active_traces a d
    end.
Proof.
  unfold add_trace, active_traces.
  destruct fault; simpl; [|done|done].
  destruct (is_translation_action (a_action_type args)) eqn:Htr; simpl.
  - rewrite filter_app, filter_cons, filter_nil. simpl.
    destruct (Z.eqb_spec (a_atom_id args) a) as [->|Hne].
    + rewrite active_after_update. simpl. by rewrite decide_True.
    + rewrite active_other_after_update by done.
      rewrite decide_False by (intros [? _]; done).
      by rewrite app_nil_r.
  - rewrite filter_app, filter_cons, filter_nil. simpl.
    rewrite decide_False by (intros [_ ?]; done).
    by rewrite app_nil_r.
Qed.

Lemma add_trace_get_active fault args a d :
  get_active_translation a (add_trace fault args d).1
  = match fault with
    | NoFault =>
      if is_translation_action (a_action_type args) && (a_atom_id args =? a)
      then a_content args
      else get_active_translation a d
    | _ => get_active_translation a d
    end.
Proof.
  unfold get_active_translation. rewrite add_trace_active.
  destruct fault; try done. by destruct (_ && _).
Qed.

Lemma run_get_active calls a d :
  get_active_translation a (run calls d)
  = match last_translation a calls with
    | Some c => c
    | None => get_active_translation a d
    end.
Proof.
  revert d. induction calls as [|[fault args] calls IH]; intros d; [done|].
  simpl. rewrite IH.
  destruct (last_translation a calls); [done|].
  rewrite add_trace_get_active. simpl.
  destruct fault; try done. by destruct (_ && _).
Qed.

End TraceQueryFacts.

(** The active translation of an atom is the last translation written for
    it: after any history of [add_trace] calls, from any state of the
    table, [get_active_translation] returns the content of the last call
    of the history that did not fail, was made for this atom and had one of
    the action types draft, refine, final, human_edit.  When the history
    has no such call the answer is the one before the history: calls for
    other atoms, evaluations and failed calls do not change it. *)
Theorem active_translation_is_last_translation
  (calls : list (TraceStore.db_fault * TraceStore.trace_args))
  (a : Z) (d : TraceStore.db) :
  TraceQuery.get_active_translation a (TraceStore.run calls d)
  = match TraceQuery.last_translation a calls with
    | Some content => content
    | None => TraceQuery.get_active_translation a d
    end.
Proof. apply run_get_active. Qed.

(** ** The atom table *)

Section AtomTableFacts.

Import AtomTable.

Lemma update_where_identity a f table :
  (forall r, identity (f r) = identity r) ->
  map identity (update_where a f table) = map identity table.
Proof.
  intros Hf. unfold update_where. rewrite map_map.
  apply map_ext. intros r. by destruct (_ =? _).
Qed.

Lemma update_where_other a f table r :
  atom_id r <> a -> r ∈ table -> r ∈ update_where a f table.
Proof.
  intros Hne Hin. unfold update_where.
  apply list_elem_of_fmap. exists r. split; [|done].
  destruct (Z.eqb_spec (atom_id r) a); done.
Qed.

Lemma update_where_untouched a f table :
  Forall (fun r => atom_id r <> a) table -> update_where a f table = table.
Proof.
  unfold update_where.
  induction 1 as [|r table Hr _ IH]; simpl; [done|].
  rewrite IH. destruct (Z.eqb_spec (atom_id r) a); done.
Qed.

Lemma run_updates_identity raises updates : forall i table table',
  run_updates raises i updates table = Some table' ->
  map identity table' = map identity table.
Proof.
  induction updates as [|u updates IH]; intros i table table' Hrun; simpl in *.
  - by injection Hrun as <-.
  - destruct (statement u) as [[a f]|] eqn:Hst.
    + destruct (raises i); [discriminate|].
      rewrite (IH _ _ _ Hrun). apply update_where_identity.
      intros r. unfold statement in Hst.
      destruct (u_atom_id u); [|discriminate].
      destruct (_ || _); [discriminate|]. by injection Hst as _ <-.
    + by apply (IH _ _ _ Hrun).
Qed.

Lemma run_updates_unnamed raises updates : forall i table table' r,
  run_updates raises i updates table = Some table' ->
  atom_id r ∉ named updates -> r ∈ table -> r ∈ table'.
Proof.
  induction updates as [|u updates IH]; intros i table table' r Hrun Hn Hin;
    simpl in *.
  - by injection Hrun as <-.
  - unfold named in Hn. simpl in Hn.
    destruct (statement u) as [[a f]|] eqn:Hst.
    + destruct (raises i); [discriminate|].
      unfold statement in Hst.
      destruct (u_atom_id u) as [a'|]; [|discriminate].
      destruct (_ || _); [discriminate|]. injection Hst as -> <-.
      simpl in Hn. apply not_elem_of_cons in Hn as [Hne Hn].
      eapply IH; [exact Hrun|exact Hn|].
      by apply update_where_other.
    + eapply IH; [exact Hrun| |exact Hin].
      destruct (u_atom_id u); simpl in Hn; [|done].
      by apply not_elem_of_cons in Hn as [_ Hn].
Qed.

Lemma count_status_le (c1 c2 : Z -> bool) rows :
  (forall s, c1 s = true -> c2 s = true) ->
  count_status c1 rows <= count_status c2 rows.
Proof.
  intros Himp. unfold count_status.
  induction rows as [|r rows IH]; simpl; [lia|].
  rewrite !filter_cons.
  assert (Hr : status_is c1 r = true -> status_is c2 r = true).
  { unfold status_is. destruct (status_code r); [apply Himp|done]. }
  destruct (decide (status_is c1 r = true)) as [H1|H1].
  - rewrite decide_True by auto. simpl. lia.
  - destruct (decide (status_is c2 r = true)); simpl; lia.
Qed.

Lemma count_status_length c rows :
  0 <= count_status c rows <= Z.of_nat (length rows).
Proof.
  unfold count_status. split; [lia|].
  apply Nat2Z.inj_le, length_filter.
Qed.

End AtomTableFacts.

(** No update of the atom table moves or re-identifies an atom:
    [batch_update_atoms], whatever its updates and whichever of its
    statements raises, leaves the rows of the table in their order with
    their [atom_id], [doc_id], [source_text], [source_hash] and
    [position], and leaves every row whose id no update names exactly as
    it was. *)
Theorem batch_update_keeps_identity
  (raises : nat -> bool) (commit_raises : bool)
  (updates : list AtomTable.update) (table : list AtomTable.atom) :
  let table' := AtomTable.batch_update_atoms raises commit_raises updates
                  table in
  map AtomTable.identity table' = map AtomTable.identity table /\
  forall r, r ∈ table ->
    AtomTable.atom_id r ∉ AtomTable.named updates -> r ∈ table'.
Proof.
  unfold AtomTable.batch_update_atoms.
  destruct (AtomTable.run_updates raises 0 updates table) as [table'|] eqn:Hrun;
    [|done].
  destruct commit_raises; [done|].
  split.
  - by eapply run_updates_identity.
  - intros r Hin Hn. by eapply run_updates_unnamed.
Qed.

(** [update_atom_translation] called without a score erases the score of
    the atom, while [batch_update_atoms] called with the same text and
    status and no ["quality_score"] key keeps it; on every other column,
    and on every other row, the two calls agree. *)
Theorem update_translation_resets_score
  (a : Z) (text : str) (status : Z) (table : list AtomTable.atom) :
  a <> 0 ->
  let single := AtomTable.update_atom_translation false a text status None
                  table in
  let batch :=
    AtomTable.batch_update_atoms (fun _ => false) false
      [AtomTable.mk_update (Some a) (Some text) (Some status) None None]
      table in
  length single = length table /\ length batch = length table /\
  forall i r, table !! i = Some r ->
    exists r1 r2,
      single !! i = Some r1 /\ batch !! i = Some r2 /\
      (AtomTable.atom_id r <> a -> r1 = r /\ r2 = r) /\
      (AtomTable.atom_id r = a ->
       r1 = AtomTable.set_translation text status None r /\
       r2 = AtomTable.set_translation text status
              (AtomTable.quality_score r) r).
Proof.
  intros Ha single batch. subst single batch.
  unfold AtomTable.update_atom_translation, AtomTable.batch_update_atoms.
  simpl. unfold AtomTable.statement. simpl.
  destruct (Z.eqb_spec a 0) as [|_]; [done|]. simpl.
  unfold AtomTable.update_where. rewrite !length_map.
  split_and!; [done|done|].
  intros i r Hi. rewrite !(map_lookup _ _ i), Hi. simpl.
  eexists _, _. split_and!; [done|done| |].
  - intros Hne. destruct (Z.eqb_spec (AtomTable.atom_id r) a); done.
  - intros Heq. destruct (Z.eqb_spec (AtomTable.atom_id r) a); [|done].
    split; [done|]. by destruct r.
Qed.

Lemma update_translation_resets_score_witness :
  let r := AtomTable.mk_atom 7 1 (of_ascii "cell") (of_ascii "h") 0
             (Some (of_ascii "old")) None (of_ascii "{}") (Some 1)
             (Some 9%float) (of_ascii "{}") in
  7 <> 0 /\
  AtomTable.quality_score
    <$> (AtomTable.update_atom_translation false 7 (of_ascii "new") 3 None
           [r]) !! 0%nat
  = Some None /\
  AtomTable.quality_score
    <$> (AtomTable.batch_update_atoms (fun _ => false) false
           [AtomTable.mk_update (Some 7) (Some (of_ascii "new")) (Some 3)
              None None] [r]) !! 0%nat
  = Some (Some 9%float).
Proof.
  intros r. assert (H7 : 7 <> 0) by lia.
  destruct (update_translation_resets_score 7 (of_ascii "new") 3 [r] H7)
    as (_ & _ & H).
  destruct (H 0%nat r eq_refl) as (r1 & r2 & H1 & H2 & _ & Heq).
  destruct (Heq eq_refl) as [-> ->].
  split; [exact H7|]. split.
  - rewrite H1. reflexivity.
  - rewrite H2. reflexivity.
Defined.

(** The counts of [get_translation_progress] are ordered:
    [0 <= completed <= translated <= total], and [total] is at least one
    even for a document without atoms, for which it is reported as one
    while both counts are zero. *)
Theorem translation_progress_is_ordered
  (doc : Z) (table : list AtomTable.atom) :
  let p := AtomTable.get_translation_progress doc table in
  0 <= AtomTable.completed p <= AtomTable.translated p /\
  AtomTable.translated p <= AtomTable.total p /\
  1 <= AtomTable.total p /\
  (Forall (fun r => AtomTable.doc_id r <> doc) table ->
   p = AtomTable.mk_progress 1 0 0).
Proof.
  unfold AtomTable.get_translation_progress. cbv zeta.
  set (rows := filter _ table). simpl.
  pose proof (count_status_length (fun s => 4 <=? s) rows) as H4.
  pose proof (count_status_length (fun s => 0 <? s) rows) as H0.
  assert (Hle : AtomTable.count_status (fun s => 4 <=? s) rows
                <= AtomTable.count_status (fun s => 0 <? s) rows).
  { apply count_status_le. intros s. lia. }
  split_and!; try lia.
  - destruct (Z.eqb_spec (Z.of_nat (length rows)) 0); lia.
  - destruct (Z.eqb_spec (Z.of_nat (length rows)) 0); lia.
  - intros Hnone. assert (rows = []) as ->.
    { subst rows. clear -Hnone.
      induction Hnone as [|r table Hr _ IH]; [done|].
      rewrite filter_cons, decide_False by done. exact IH. }
    done.
Qed.

(** ** The two tables agree *)

Section RecordingFacts.

Import Recording.

Lemma update_translation_agree a text status d' s :
  tables_agree s ->
  (forall b, b <> a ->
     TraceQuery.get_active_translation b d'
     = TraceQuery.get_active_translation b (traces s)) ->
  TraceQuery.get_active_translation a d' = Some text ->
  tables_agree
    (mk_store d' (AtomTable.update_atom_translation false a text status None
                    (atoms s))).
Proof.
  intros Hagree Hother Hthis r Hin. simpl in *.
  unfold AtomTable.update_atom_translation, AtomTable.update_where in Hin.
  apply list_elem_of_fmap in Hin as (r0 & -> & Hin0).
  destruct (Z.eqb_spec (AtomTable.atom_id r0) a) as [Heq|Hne]; simpl.
  - by rewrite Heq, Hthis.
  - rewrite Hother by done. by apply Hagree.
Qed.

Lemma update_examination_agree a e d' s :
  tables_agree s ->
  (forall b,
     TraceQuery.get_active_translation b d'
     = TraceQuery.get_active_translation b (traces s)) ->
  tables_agree
    (mk_store d' (AtomTable.update_atom_examination false a e (atoms s))).
Proof.
  intros Hagree Hsame r Hin. cbn [traces atoms] in *.
  unfold AtomTable.update_atom_examination, AtomTable.update_where in Hin.
  apply list_elem_of_fmap in Hin as (r0 & -> & Hin0).
  destruct (Z.eqb_spec (AtomTable.atom_id r0) a) as [Heq|Hne]; simpl;
    rewrite Hsame; by apply Hagree.
Qed.

Lemma record_translation_agree role action meta status atom_id text s :
  TraceStore.is_translation_action action = true ->
  tables_agree s ->
  tables_agree
    (record_translation role action meta status TraceStore.NoFault false
       atom_id text s).
Proof.
  intros Htr Hagree. unfold record_translation.
  destruct (known_atom atom_id) as [a|]; [|done].
  apply update_translation_agree; [done| |].
  - intros b Hne. rewrite add_trace_get_active. simpl. rewrite Htr. simpl.
    destruct (Z.eqb_spec a b); [congruence|done].
  - rewrite add_trace_get_active. simpl. rewrite Htr. simpl.
    by rewrite Z.eqb_refl.
Qed.

Lemma record_agree e s :
  tables_agree s -> tables_agree (record TraceStore.NoFault false e s).
Proof.
  intros Hagree. destruct e; cbn [record];
    try (apply record_translation_agree; [by vm_compute|done]).
  destruct (known_atom atom_id) as [a|]; [|done].
  apply update_examination_agree; [done|].
  intros b. rewrite add_trace_get_active. cbn [TraceStore.a_action_type].
  replace (TraceStore.is_translation_action (of_ascii "evaluate"))
    with false by (by vm_compute).
  done.
Qed.

End RecordingFacts.

(** The atom table and the trace log tell the same story: when the two
    tables agree (every atom's [translated_text] is the content of its
    active trace, as on a fresh table) and none of the transactions fails,
    they still agree after any history of the agent's writes (drafts,
    evaluations, human edits, retranslations and final corrections). *)
Theorem translation_writes_keep_tables_in_agreement
  (events : list (TraceStore.db_fault * bool * Recording.event))
  (s : Recording.store) :
  Forall (fun e => e.1 = (TraceStore.NoFault, false)) events ->
  Recording.tables_agree s ->
  Recording.tables_agree (Recording.replay events s).
Proof.
  intros Hok. revert s. unfold Recording.replay.
  induction Hok as [|[[tf uf] e] events He _ IH]; intros s Hagree; [done|].
  simpl in *. injection He as -> ->. apply IH. by apply record_agree.
Qed.

Lemma translation_writes_keep_tables_in_agreement_witness :
  let fresh := AtomTable.of_row
                 (AtomStore.mk_atom_row 7 1 (of_ascii "cell") (of_ascii "h") 0
                    [] (of_ascii "{}")) in
  let s := Recording.mk_store TraceStore.empty_db [fresh] in
  let events :=
    [(TraceStore.NoFault, false,
      Recording.Draft (Some 7) (of_ascii "Zelle") (of_ascii "{}"));
     (TraceStore.NoFault, false,
      Recording.Evaluate (Some 7) (of_ascii "Quality Score: 6.0")
        (of_ascii "{}") (of_ascii "{}"));
     (TraceStore.NoFault, false,
      Recording.HumanEdit (Some 7) (of_ascii "die Zelle") (of_ascii "{}"))] in
  Forall (fun e => e.1 = (TraceStore.NoFault, false)) events /\
  Recording.tables_agree s /\
  Recording.tables_agree (Recording.replay events s).
Proof.
  intros fresh s events.
  assert (Hok : Forall (fun e => e.1 = (TraceStore.NoFault, false)) events).
  { subst events. repeat constructor. }
  assert (Hs : Recording.tables_agree s).
  { intros r Hin. subst s fresh. simpl in Hin.
    apply list_elem_of_singleton in Hin as ->. reflexivity. }
  split; [exact Hok|]. split; [exact Hs|].
  exact (translation_writes_keep_tables_in_agreement events s Hok Hs).
Defined.

(** ** The decisions of the human review *)

Section ReviewApplyFacts.

Import Review ReviewApply.

(** The lines that [collect_lines] makes have the chunk index it is given
    and a local index within the translations. *)
Definition in_range (all_chunks_data : list chunk_data) (ci li : nat) : Prop :=
  exists cd, all_chunks_data !! ci = Some cd /\
             (li < length (translated_texts cd))%nat.

Lemma zip4_length a b c d :
  (length (zip4 a b c d) <= length b)%nat.
Proof.
  revert b c d. induction a as [|x a IH]; intros [|y b] [|z c] [|w d];
    simpl; try lia.
  specialize (IH b c d). lia.
Qed.

Lemma collect_lines_range cd ci g li lines l :
  l ∈ collect_lines cd ci g li lines ->
  chunk_idx l = ci /\ (li <= local_idx l < li + length lines)%nat.
Proof.
  revert g li. induction lines as [|[[[src trans] sc] back] lines IH];
    intros g li Hin; simpl in *.
  - by apply elem_of_nil in Hin.
  - apply elem_of_cons in Hin as [->|Hin]; simpl; [lia|].
    apply IH in Hin. lia.
Qed.

Lemma collect_chunks_range done todo g l :
  l ∈ collect_chunks todo (length done) g ->
  in_range (done ++ todo) (chunk_idx l) (local_idx l).
Proof.
  revert done g. induction todo as [|cd todo IH]; intros done g Hin;
    simpl in *.
  - by apply elem_of_nil in Hin.
  - apply elem_of_app in Hin as [Hin|Hin].
    + apply collect_lines_range in Hin as [-> Hli].
      exists cd. split.
      * by rewrite lookup_app_r, Nat.sub_diag by lia.
      * pose proof (zip4_length (source_texts cd) (translated_texts cd)
                      (quality_scores cd) (back_translations cd)). lia.
    + replace (S (length done)) with (length (done ++ [cd])) in Hin
        by (rewrite length_app; simpl; lia).
      apply IH in Hin. by rewrite <- app_assoc in Hin.
Qed.

Lemma insert_by_score_elem x y l :
  y ∈ insert_by_score x l -> y = x \/ y ∈ l.
Proof.
  induction l as [|z l IH]; simpl; intros Hin.
  - apply list_elem_of_singleton in Hin. by left.
  - destruct (PrimFloat.ltb _ _).
    + apply elem_of_cons in Hin as [->|Hin].
      * right. by left.
      * destruct (IH Hin) as [->|H]; [by left|]. right. by right.
    + apply elem_of_cons in Hin as [->|Hin]; [by left|by right].
Qed.

Lemma sort_by_score_elem y l : y ∈ sort_by_score l -> y ∈ l.
Proof.
  induction l as [|x l IH]; simpl; intros Hin; [done|].
  apply insert_by_score_elem in Hin as [->|Hin]; [by left|].
  right. by apply IH.
Qed.

Lemma reviewed_range enable has_callback threshold all_chunks_data item :
  item ∈ reviewed enable has_callback threshold all_chunks_data ->
  in_range all_chunks_data (r_chunk_idx item) (r_local_idx item).
Proof.
  unfold reviewed, review_batch.
  destruct (_ || _); [intros H; by apply elem_of_nil in H|].
  intros Hin. apply list_elem_of_fmap in Hin as (l & -> & Hin).
  apply elem_of_take in Hin as (i & Hin & _).
  apply list_elem_of_lookup_2, sort_by_score_elem in Hin.
  apply (collect_chunks_range [] all_chunks_data 0%nat l Hin).
Qed.

(** How a state relates to the chunks given to the review: the entries
    that are not written are the same, the translation lists have kept
    their lengths, and the lines that are not [touched] are the same. *)
Record same_but (touched : nat -> nat -> Prop)
  (before after : list chunk_data) : Prop := {
  sb_frame : frame <$> after = frame <$> before;
  sb_lengths :
    (length ∘ translated_texts) <$> after
    = (length ∘ translated_texts) <$> before;
  sb_lines :
    forall ci li, ~ touched ci li ->
      line_at after ci li = line_at before ci li
}.

Lemma same_but_refl touched l : same_but touched l l.
Proof. by split. Qed.

Lemma same_but_range touched before after ci li :
  same_but touched before after ->
  in_range before ci li -> in_range after ci li.
Proof.
  intros [_ Hlen _] (cd & Hcd & Hli).
  assert (Hl : ((length ∘ translated_texts) <$> after) !! ci
               = Some (length (translated_texts cd))).
  { by rewrite Hlen, list_lookup_fmap, Hcd. }
  rewrite list_lookup_fmap in Hl.
  destruct (after !! ci) as [cd'|] eqn:Hcd'; [|done].
  simpl in Hl. injection Hl as Hl. exists cd'. split; [done|lia].
Qed.

Lemma set_translated_same_but (touched : nat -> nat -> Prop) ci li text
  before cur :
  touched ci li ->
  same_but touched before cur ->
  in_range cur ci li ->
  exists cur', set_translated ci li text cur = inl cur' /\
               same_but touched before cur'.
Proof.
  intros Ht [Hf Hlen Hlines] (cd & Hcd & Hli).
  unfold set_translated. rewrite Hcd.
  destruct (Nat.ltb_spec li (length (translated_texts cd))); [|lia].
  eexists. split; [done|]. split.
  - rewrite list_fmap_insert. simpl. rewrite <- Hf.
    apply list_insert_id. by rewrite list_lookup_fmap, Hcd.
  - rewrite list_fmap_insert. simpl. rewrite length_insert, <- Hlen.
    apply list_insert_id. by rewrite list_lookup_fmap, Hcd.
  - intros ci' li' Hnt. rewrite <- (Hlines ci' li' Hnt).
    unfold line_at.
    destruct (decide (ci' = ci)) as [->|Hne].
    + rewrite list_lookup_insert_eq by (by eapply lookup_lt_Some).
      rewrite Hcd. simpl.
      destruct (decide (li' = li)) as [->|Hne']; [done|].
      by rewrite list_lookup_insert_ne.
    + by rewrite list_lookup_insert_ne.
Qed.

Variable has_db : bool.
Variable db_atom_map : atom_map.
Variable llm : nat -> str -> Fallback.llm_reply.

Local Abbreviation touched_by items :=
  (fun ci li : nat =>
     exists item : review_item,
       item ∈ items /\ r_chunk_idx item = ci /\ r_local_idx item = li).

Lemma find_elem {B : Type} (f : B -> bool) (l : list B) (x : B) :
  List.find f l = Some x -> x ∈ l.
Proof.
  induction l as [|y l IH]; simpl; [done|].
  destruct (f y); [intros [= ->]; by left|]. intros H. right. by apply IH.
Qed.

Lemma apply_decision_same_but before items st d :
  (forall item, item ∈ items ->
     in_range before (r_chunk_idx item) (r_local_idx item)) ->
  same_but (touched_by items) before (chunks st) ->
  match apply_decision has_db db_atom_map llm items st d with
  | inl st' => same_but (touched_by items) before (chunks st')
  | inr e => e = KeyError
  end.
Proof.
  intros Hrange Hsame. unfold apply_decision.
  destruct (u_index d) as [global_idx|]; [|done].
  destruct (u_action d) as [action|]; [|done].
  destruct (List.find _ items) as [target|] eqn:Hfind; [|done].
  apply find_elem in Hfind.
  assert (Hin : in_range (chunks st) (r_chunk_idx target) (r_local_idx target)).
  { eapply same_but_range; [exact Hsame|]. by apply Hrange. }
  assert (Ht : touched_by items (r_chunk_idx target) (r_local_idx target)).
  { by exists target. }
  destruct Hin as (cd & Hcd & Hli). rewrite Hcd.
  assert (Hin : in_range (chunks st) (r_chunk_idx target) (r_local_idx target)).
  { by exists cd. }
  destruct (bool_decide (action = of_ascii "accept")); [done|].
  destruct (bool_decide (action = of_ascii "custom")).
  - destruct (u_translation d) as [custom|]; [|done].
    destruct (set_translated_same_but _ _ _ custom _ _ Ht Hsame Hin)
      as (cur' & -> & Hsame'). done.
  - destruct (bool_decide (action = of_ascii "retranslate")); [|done].
    destruct (Fallback.translate_single_line llm _ _) as [[t|] log'];
      [|done].
    destruct (truthy t); [|done].
    destruct (set_translated_same_but _ _ _ t _ _ Ht Hsame Hin)
      as (cur' & -> & Hsame'). done.
Qed.

Lemma apply_decisions_same_but before items decisions : forall st,
  (forall item, item ∈ items ->
     in_range before (r_chunk_idx item) (r_local_idx item)) ->
  same_but (touched_by items) before (chunks st) ->
  match apply_decisions has_db db_atom_map llm items decisions st with
  | inl st' => same_but (touched_by items) before (chunks st')
  | inr e => e = KeyError
  end.
Proof.
  induction decisions as [|d decisions IH]; intros st Hrange Hsame; simpl.
  - done.
  - pose proof (apply_decision_same_but before items st d Hrange Hsame) as H.
    destruct (apply_decision _ _ _ _ _ _) as [st'|e]; [|done].
    by apply IH.
Qed.

Lemma unified_human_review_same_but enable has_callback threshold callback
  all_chunks_data log0 :
  match unified_human_review has_db db_atom_map llm enable has_callback
          threshold callback all_chunks_data log0 with
  | inl st' =>
    same_but (touched_by (reviewed enable has_callback threshold
                            all_chunks_data))
      all_chunks_data (chunks st')
  | inr e => e = KeyError
  end.
Proof.
  unfold unified_human_review.
  pose proof (reviewed_range enable has_callback threshold all_chunks_data)
    as Hrange.
  unfold reviewed in *.
  destruct (review_batch _ _ _ _) as [[items th]|]; [|apply same_but_refl].
  destruct (callback items th) as [[|d ds]|];
    [apply same_but_refl| |apply same_but_refl].
  apply apply_decisions_same_but; [done|]. apply same_but_refl.
Qed.

End ReviewApplyFacts.


(** ** Terms found by the language model *)

Section TermDedupFacts.

Context {T : Type}.
Variable str_lower : str -> str.
Variable get_term : T -> TermDedup.term_value.

Local Abbreviation name_of := (TermDedup.term_name str_lower get_term).
Local Abbreviation uloop := (TermDedup.unique_loop str_lower get_term).

(** The invariant of the loop: the dictionary files every term under its
    name, the names are distinct and not empty, the values are a
    subsequence of the terms read, and every name read is filed. *)
Record dedup_inv (seen : list T) (unique_terms : list (str * T)) : Prop := {
  di_keys : Forall (fun e => e.1 = name_of e.2 /\ e.1 <> []) unique_terms;
  di_nodup : NoDup (map fst unique_terms);
  di_sub : sublist (map snd unique_terms) seen;
  di_all :
    forall t, t ∈ seen -> name_of t <> [] ->
              name_of t ∈ map fst unique_terms;
  di_seen :
    forall k, k ∈ map fst unique_terms -> k ∈ map name_of seen
}.

(** The numbered entries that open a new name, [seen] being the list they
    are numbered in. *)
Local Abbreviation opens seen :=
  (fun it : nat * T =>
     name_of it.2 <> [] /\ name_of it.2 ∉ map name_of (take it.1 seen)).

Lemma unique_loop_inv all_terms : forall seen unique_terms result,
  dedup_inv seen unique_terms ->
  uloop all_terms unique_terms = Some result ->
  dedup_inv (seen ++ all_terms) result /\
  Forall (TermDedup.is_string get_term) all_terms /\
  map snd result
  = map snd unique_terms
    ++ (filter (opens (seen ++ all_terms))
          (imap (fun i t => (length seen + i, t)%nat) all_terms)).*2.
Proof.
  induction all_terms as [|term rest IH];
    intros seen unique_terms result Hinv Hrun; simpl in Hrun.
  - injection Hrun as <-. rewrite !app_nil_r. by split_and!.
  - destruct (get_term term) as [name| |] eqn:Hname; [|discriminate..].
    assert (Hn : name_of term = str_lower name).
    { unfold TermDedup.term_name. by rewrite Hname. }
    assert (Hs : TermDedup.is_string get_term term).
    { unfold TermDedup.is_string. by rewrite Hname. }
    assert (Hsplit : seen ++ term :: rest = (seen ++ [term]) ++ rest)
      by (by rewrite <- app_assoc).
    assert (Htail :
      imap ((fun i t => (length seen + i, t)%nat) ∘ S) rest
      = imap (fun i t => (length (seen ++ [term]) + i, t)%nat) rest).
    { apply imap_ext. intros i t _. simpl. rewrite length_app. simpl.
      f_equal. lia. }
    assert (Htake : take (length seen + 0) (seen ++ term :: rest) = seen).
    { rewrite Nat.add_0_r. by rewrite take_app_length. }
    rewrite imap_cons, filter_cons, Htail. simpl fst. simpl snd.
    destruct Hinv as [Hk Hnd Hsub Hall Hseen].
    destruct (truthy (str_lower name)) eqn:Htr; simpl in Hrun.
    + assert (Hne : name_of term <> []).
      { rewrite Hn. by destruct (str_lower name). }
      destruct (bool_decide _) eqn:Hmem; simpl in Hrun.
      * (* the name is filed already *)
        apply bool_decide_eq_true in Hmem.
        destruct (IH (seen ++ [term]) unique_terms result) as (Hi & Hstr & Heq);
          [|exact Hrun|].
        { split; [done|done| | |].
          - by apply sublist_inserts_r.
          - intros t Ht Hnet.
            apply elem_of_app in Ht as [Ht|Ht]; [by apply Hall|].
            apply list_elem_of_singleton in Ht as ->. by rewrite Hn.
          - intros k Hk'. rewrite map_app. apply elem_of_app. left.
            by apply Hseen. }
        rewrite Hsplit. split_and!; [done|by constructor|].
        rewrite Heq. f_equal.
        rewrite decide_False; [by rewrite <- Hsplit|].
        simpl. rewrite <- Hsplit, Htake, Hn.
        intros [_ Hnot]. apply Hnot. apply Hseen. done.
      * (* a new name *)
        apply bool_decide_eq_false in Hmem.
        destruct (IH (seen ++ [term])
                    (unique_terms ++ [(str_lower name, term)]) result)
          as (Hi & Hstr & Heq); [|exact Hrun|].
        { split.
          - apply Forall_app. split; [done|]. constructor; [|done]. simpl.
            split; [done|]. by rewrite <- Hn.
          - rewrite map_app. simpl. apply NoDup_app. split_and!; [done| |].
            + intros k Hk1 Hk2. apply list_elem_of_singleton in Hk2 as ->. done.
            + apply NoDup_singleton.
          - rewrite map_app. simpl. by apply sublist_app.
          - intros t Ht Hnet. rewrite map_app. apply elem_of_app.
            apply elem_of_app in Ht as [Ht|Ht]; [left; by apply Hall|].
            apply list_elem_of_singleton in Ht as ->. right. simpl.
            rewrite Hn. by left.
          - intros k Hk'. rewrite !map_app in *. simpl in *.
            apply elem_of_app in Hk' as [Hk'|Hk'];
              apply elem_of_app; [left; by apply Hseen|right].
            apply list_elem_of_singleton in Hk' as ->. rewrite Hn. by left. }
        rewrite Hsplit. split_and!; [done|by constructor|].
        rewrite Heq, map_app, <- app_assoc. simpl. f_equal.
        rewrite decide_True; [by rewrite <- Hsplit|].
        simpl. rewrite <- Hsplit, Htake. split; [done|].
        intros Hin. apply Hmem.
        apply list_elem_of_fmap in Hin as (t & Ht1 & Ht2).
        rewrite <- Hn, Ht1. apply Hall; [done|]. by rewrite <- Ht1.
    + (* an empty name *)
      assert (He : name_of term = []).
      { rewrite Hn. by destruct (str_lower name). }
      destruct (IH (seen ++ [term]) unique_terms result) as (Hi & Hstr & Heq);
        [|exact Hrun|].
      { split; [done|done| | |].
        - by apply sublist_inserts_r.
        - intros t Ht Hnet.
          apply elem_of_app in Ht as [Ht|Ht]; [by apply Hall|].
          apply list_elem_of_singleton in Ht as ->. done.
        - intros k Hk'. rewrite map_app. apply elem_of_app. left.
          by apply Hseen. }
      rewrite Hsplit. split_and!; [done|by constructor|].
      rewrite Heq. f_equal.
      rewrite decide_False; [by rewrite <- Hsplit|].
      simpl. by intros [Hne _].
Qed.

Lemma unique_loop_raises all_terms : forall unique_terms,
  uloop all_terms unique_terms = None <->
  exists t, t ∈ all_terms /\ ~ TermDedup.is_string get_term t.
Proof.
  unfold TermDedup.is_string.
  induction all_terms as [|term rest IH]; intros unique_terms; simpl.
  - split; [done|]. intros (t & Ht & _). by apply elem_of_nil in Ht.
  - destruct (get_term term) as [name| |] eqn:Hname.
    + destruct (_ && _); rewrite IH; split.
      * intros (t & Ht & Hn). exists t. split; [by right|done].
      * intros (t & Ht & Hn). apply elem_of_cons in Ht as [->|Ht];
          [by rewrite Hname in Hn|]. by exists t.
      * intros (t & Ht & Hn). exists t. split; [by right|done].
      * intros (t & Ht & Hn). apply elem_of_cons in Ht as [->|Ht];
          [by rewrite Hname in Hn|]. by exists t.
    + split; [|done]. intros _. exists term. split; [by left|].
      rewrite Hname. tauto.
    + split; [|done]. intros _. exists term. split; [by left|].
      rewrite Hname. tauto.
Qed.

End TermDedupFacts.


(** ** The review of the terms *)

Section TermReviewFacts.

Context {R : Type}.

Import TermReview.

Lemma approve_term_keys (db : list (str * term_info R)) a :
  map fst (approve_term db a) = map fst db.
Proof.
  unfold approve_term. destruct (a_term a) as [term|]; [|done].
  rewrite map_map. apply map_ext. intros [k i]. simpl.
  by destruct (bool_decide _).
Qed.

(** What an approval does to an entry: it is left alone, or verified. *)
Definition approved_from (e0 e : str * term_info R) : Prop :=
  e.1 = e0.1 /\ priority e.2 = priority e0.2 /\
  category e.2 = category e0.2 /\ rest e.2 = rest e0.2 /\
  (verified_by_human e0.2 = true -> verified_by_human e.2 = true) /\
  (verified_by_human e.2 = false -> e = e0).

Lemma approved_from_refl e : approved_from e e.
Proof. by split_and!. Qed.

Lemma approved_from_trans e0 e1 e2 :
  approved_from e0 e1 -> approved_from e1 e2 -> approved_from e0 e2.
Proof.
  intros (H1 & H2 & H3 & H4 & H5 & H6) (G1 & G2 & G3 & G4 & G5 & G6).
  split_and!.
  - congruence.
  - congruence.
  - congruence.
  - congruence.
  - auto.
  - intros Hv. pose proof (G6 Hv) as He. subst e2. by apply H6.
Qed.

Lemma approve_term_entries (db : list (str * term_info R)) a :
  Forall2 approved_from db (approve_term db a).
Proof.
  unfold approve_term. destruct (a_term a) as [term|].
  - induction db as [|[k i] db IH]; simpl; constructor; [|done].
    destruct (bool_decide _); [|apply approved_from_refl].
    split_and!; simpl; try done.
  - apply Forall2_same_length_lookup_2; [done|].
    intros i x y Hx Hy. rewrite Hx in Hy. injection Hy as <-.
    apply approved_from_refl.
Qed.

Lemma approve_term_verified (db : list (str * term_info R)) a term e :
  a_term a = Some term -> e ∈ approve_term db a -> e.1 = term ->
  verified_by_human e.2 = true.
Proof.
  intros Ha Hin He. unfold approve_term in Hin. rewrite Ha in Hin.
  apply list_elem_of_fmap in Hin as ([k i] & -> & _). simpl in *.
  destruct (bool_decide (k = term)) eqn:Hk; simpl in *; [done|].
  apply bool_decide_eq_false in Hk. done.
Qed.

Lemma fold_approve_entries l : forall (db : list (str * term_info R)),
  Forall2 approved_from db (fold_left approve_term l db).
Proof.
  induction l as [|a l IH]; intros db; simpl.
  - apply Forall2_same_length_lookup_2; [done|].
    intros i x y Hx Hy. rewrite Hx in Hy. injection Hy as <-.
    apply approved_from_refl.
  - pose proof (approve_term_entries db a) as H1.
    pose proof (IH (approve_term db a)) as H2.
    apply Forall2_same_length_lookup_2.
    + rewrite (Forall2_length _ _ _ H1). by apply Forall2_length in H2.
    + intros i x z Hx Hz.
      destruct (Forall2_lookup_l _ _ _ _ _ H1 Hx) as (y & Hy & Hxy).
      destruct (Forall2_lookup_l _ _ _ _ _ H2 Hy) as (z' & Hz' & Hyz).
      rewrite Hz in Hz'. injection Hz' as <-.
      by eapply approved_from_trans.
Qed.

Lemma fold_approve_verified l : forall (db : list (str * term_info R)) a term e,
  a ∈ l -> a_term a = Some term ->
  e ∈ fold_left approve_term l db -> e.1 = term ->
  verified_by_human e.2 = true.
Proof.
  induction l as [|a0 l IH]; intros db a term e Ha Hterm Hin He; simpl in *.
  - by apply elem_of_nil in Ha.
  - apply elem_of_cons in Ha as [->|Ha].
    + (* verified by this approval, and kept verified by the later ones *)
      pose proof (fold_approve_entries l (approve_term db a0)) as H2.
      apply list_elem_of_lookup_1 in Hin as (i & Hi).
      destruct (Forall2_lookup_r _ _ _ _ _ H2 Hi) as (y & Hy & Hye).
      destruct Hye as (Hk & _ & _ & _ & Hv & _).
      apply Hv. eapply approve_term_verified; [exact Hterm| |congruence].
      by eapply list_elem_of_lookup_2.
    + by eapply IH.
Qed.

End TermReviewFacts.

(** A term that the reviewer approved is not asked again: after
    [_update_terminology_from_review], the table has the same terms in the
    same order, [_get_first_occurrence_terms] returns at most ten terms,
    none of which is one of the approved ones, and each of which was
    already waiting for a review, with the same entry, before the
    approvals. *)
Theorem approved_terms_leave_the_review_queue
  {R : Type} (terminology_db : list (str * TermReview.term_info R))
  (approved_terms : list TermReview.approved_term) :
  let db' := TermReview.update_terminology_from_review terminology_db
               (Some approved_terms) in
  let queue := TermReview.get_first_occurrence_terms db' in
  map fst db' = map fst terminology_db /\
  (length queue <= 10)%nat /\
  (forall a term, a ∈ approved_terms -> TermReview.a_term a = Some term ->
     term ∉ map fst queue) /\
  (forall e, e ∈ queue ->
     e ∈ terminology_db /\ TermReview.needs_review e.2 = true).
Proof.
  intros db' queue. subst db' queue. simpl.
  pose proof (fold_approve_entries approved_terms terminology_db) as Hent.
  set (db' := fold_left TermReview.approve_term approved_terms terminology_db)
    in *.
  unfold TermReview.get_first_occurrence_terms.
  split_and!.
  - clear -Hent. induction Hent as [|e0 e l0 l (Hk & _) _ IH]; simpl; [done|].
    by rewrite IH, Hk.
  - rewrite length_take. lia.
  - intros a term Ha Hterm Hin.
    apply list_elem_of_fmap in Hin as (e & -> & Hin).
    apply elem_of_take in Hin as (i & Hi & _).
    apply list_elem_of_lookup_2, list_elem_of_filter in Hi as [Hneed Hin].
    pose proof (fold_approve_verified approved_terms terminology_db a e.1 e
                  Ha Hterm Hin eq_refl) as Hv.
    unfold TermReview.needs_review in Hneed. rewrite Hv in Hneed.
    simpl in Hneed. by rewrite !andb_false_r in Hneed.
  - intros e Hin.
    apply elem_of_take in Hin as (i & Hi & _).
    apply list_elem_of_lookup_2, list_elem_of_filter in Hi as [Hneed Hin].
    apply list_elem_of_lookup_1 in Hin as (j & Hj).
    destruct (Forall2_lookup_r _ _ _ _ _ Hent Hj) as (e0 & Hj0 & Hfrom).
    destruct Hfrom as (_ & _ & _ & _ & _ & Hsame).
    assert (Hv : TermReview.verified_by_human e.2 = false).
    { unfold TermReview.needs_review in Hneed.
      destruct (TermReview.verified_by_human e.2); [|done].
      simpl in Hneed. by rewrite !andb_false_r in Hneed. }
    rewrite (Hsame Hv) in *. split; [|done].
    by eapply list_elem_of_lookup_2.
Qed.


(** ** Domain and style *)

Section DomainStyleFacts.

Import DomainStyle.

(** [max] returns the first of the largest items: the items before it are
    smaller and the items after it are not larger. *)
Lemma max_by_value_split items : forall best,
  let r := max_by_value best items in
  (r = best /\ Forall (fun x => x.2 <= best.2) items) \/
  (exists pre post,
     items = pre ++ r :: post /\ best.2 < r.2 /\
     Forall (fun x => x.2 < r.2) pre /\ Forall (fun x => x.2 <= r.2) post).
Proof.
  induction items as [|x items IH]; intros best; simpl; [by left|].
  destruct (Z.ltb_spec best.2 x.2) as [Hlt|Hge].
  - destruct (IH x) as [[Heq Hall]|(pre & post & Hsplit & Hlt' & Hpre & Hpost)].
    + right. exists [], items. rewrite Heq. by split_and!.
    + right. exists (x :: pre), post. split_and!; [simpl; by f_equal|lia| |done].
      constructor; [lia|done].
  - destruct (IH best)
      as [[Heq Hall]|(pre & post & Hsplit & Hlt' & Hpre & Hpost)].
    + left. split; [done|]. by constructor.
    + right. exists (x :: pre), post. split_and!; [simpl; by f_equal|lia| |done].
      constructor; [lia|done].
Qed.

Lemma max_of_nonempty x items :
  let r := max_by_value x items in
  exists pre post,
    x :: items = pre ++ r :: post /\
    Forall (fun y => y.2 < r.2) pre /\ Forall (fun y => y.2 <= r.2) post.
Proof.
  destruct (max_by_value_split items x)
    as [[Heq Hall]|(pre & post & Hsplit & Hlt & Hpre & Hpost)]; simpl.
  - exists [], items. rewrite Heq. by split_and!.
  - exists (x :: pre), post. split_and!; [simpl; by f_equal| |done].
    by constructor.
Qed.

Lemma omap_split {B C : Type} (f : B -> option C) (l : list B) pre y post :
  omap f l = pre ++ y :: post ->
  exists lpre e lpost,
    l = lpre ++ e :: lpost /\ f e = Some y /\
    omap f lpre = pre /\ omap f lpost = post.
Proof.
  revert pre. induction l as [|b l IH]; intros pre Heq; simpl in Heq.
  - by destruct pre.
  - destruct (f b) as [c|] eqn:Hb.
    + destruct pre as [|p pre]; simpl in Heq.
      * injection Heq as -> <-. exists [], b, l. by split_and!.
      * injection Heq as -> Heq.
        destruct (IH pre Heq) as (lpre & e & lpost & -> & He & <- & <-).
        exists (b :: lpre), e, lpost. split_and!; [done|done| |done].
        simpl. by rewrite Hb.
    + destruct (IH pre Heq) as (lpre & e & lpost & -> & He & <- & <-).
      exists (b :: lpre), e, lpost. split_and!; [done|done| |done].
      simpl. by rewrite Hb.
Qed.

Lemma count_matches_nonneg m w s : forall skip,
  0 <= count_matches m w skip s.
Proof.
  induction s as [|c s IH]; intros skip; simpl; [lia|].
  destruct skip; [|apply IH]. destruct (m (c :: s)).
  - specialize (IH (w - 1)%nat). lia.
  - apply IH.
Qed.

Lemma score_nonneg lower_cp patterns all_text :
  0 <= score lower_cp patterns all_text.
Proof.
  induction patterns as [|p patterns IH]; simpl; [lia|].
  pose proof (count_matches_nonneg
                (fun s => starts_with (lower lower_cp p) (lower lower_cp s))
                (length p) all_text 0).
  unfold findall_count. lia.
Qed.

(** The scores of the entries of a part of the table, from the scores kept
    in the dictionary. *)
Lemma scores_bound lower_cp (part : list (str * list str)) all_text
  (P : Z -> Prop) :
  P 0 ->
  Forall (fun y => P y.2) (scores lower_cp part all_text) ->
  Forall (fun e => P (score lower_cp e.2 all_text)) part.
Proof.
  intros H0. unfold scores.
  induction part as [|e part IH]; simpl; intros Hall; [done|].
  pose proof (score_nonneg lower_cp e.2 all_text) as Hnn.
  destruct (Z.ltb_spec 0 (score lower_cp e.2 all_text)) as [Hpos|Hle].
  - inversion Hall as [|? ? Hy Hrest]; subst. constructor; [done|by apply IH].
  - constructor; [|by apply IH].
    replace (score lower_cp e.2 all_text) with 0 by lia. done.
Qed.

End DomainStyleFacts.

(** The detected domain (or style) is the first entry of the table with
    the most keyword matches: [_identify_domain_and_style] answers the
    default when no pattern of the table matches the text; otherwise it
    answers the name of an entry whose score is positive, larger than the
    score of every entry before it in the table and at least the score of
    every entry after it. *)
Theorem detected_domain_has_most_matches
  (lower_cp : N -> N) (table : list (str * list str)) (default all_text : str) :
  let detected := DomainStyle.detect lower_cp table default all_text in
  let score_of (e : str * list str) := DomainStyle.score lower_cp e.2 all_text in
  (Forall (fun e => score_of e = 0) table /\ detected = default) \/
  (exists before patterns after,
     table = before ++ (detected, patterns) :: after /\
     0 < score_of (detected, patterns) /\
     Forall (fun e => score_of e < score_of (detected, patterns)) before /\
     Forall (fun e => score_of e <= score_of (detected, patterns)) after).
Proof.
  intros detected score_of. subst detected score_of.
  unfold DomainStyle.detect.
  destruct (DomainStyle.scores lower_cp table all_text) as [|x items] eqn:Hs.
  - left. split; [|done].
    apply (scores_bound lower_cp table all_text (fun z => z = 0)); [done|].
    by rewrite Hs.
  - right.
    destruct (max_of_nonempty x items) as (pre & post & Hsplit & Hpre & Hpost).
    set (r := DomainStyle.max_by_value x items) in *.
    rewrite <- Hs in Hsplit. unfold DomainStyle.scores in Hsplit.
    apply omap_split in Hsplit
      as (before & [name ps] & after & -> & He & Hbefore & Hafter).
    simpl in He.
    destruct (Z.ltb_spec 0 (DomainStyle.score lower_cp ps all_text))
      as [Hpos|]; [|done].
    injection He as He. rewrite <- He in *. simpl in *.
    exists before, ps, after. split_and!; [done|done| |].
    + apply (scores_bound lower_cp before all_text
               (fun z => z < DomainStyle.score lower_cp ps all_text));
        [done|].
      unfold DomainStyle.scores. by rewrite Hbefore.
    + apply (scores_bound lower_cp after all_text
               (fun z => z <= DomainStyle.score lower_cp ps all_text));
        [lia|].
      unfold DomainStyle.scores. by rewrite Hafter.
Qed.

(** ** The atom store: what a batch insert returns *)

Section AtomBatchFacts.

Import AtomStore.

Variable md5_hex : str -> str.

Lemma insert_by_position_perm r l : insert_by_position r l ≡ₚ r :: l.
Proof.
  induction l as [|r' l IH]; simpl; [done|].
  destruct (position r' <? position r); [|done].
  rewrite IH. apply Permutation_swap.
Qed.

Lemma order_by_position_perm l : order_by_position l ≡ₚ l.
Proof.
  induction l as [|r l IH]; simpl; [done|].
  by rewrite insert_by_position_perm, IH.
Qed.

Lemma last_n_length {B : Type} (n : nat) (l : list B) :
  (n <= length l)%nat -> length (last_n n l) = n.
Proof. intros H. unfold last_n. rewrite length_drop. lia. Qed.

Lemma last_n_elem {B : Type} (n : nat) (l : list B) x :
  x ∈ last_n n l -> x ∈ l.
Proof.
  unfold last_n. intros H. apply list_elem_of_lookup_1 in H as (i & H).
  rewrite lookup_drop in H. by eapply list_elem_of_lookup_2.
Qed.

End AtomBatchFacts.

(** What [create_atoms_batch] guarantees whatever the positions: an empty
    batch and a failed transaction leave the table as it was and return
    no id; otherwise the table is extended by one row per atom, the rows
    that were there are untouched, and the call returns as many ids as
    there are atoms, each of them the id of an atom of the document (of a
    row it created or, as another theorem shows, of an older row). *)
Theorem create_atoms_batch_returns_ids_of_the_document
  (md5_hex : str -> str) (fault : bool) (doc : Z)
  (atoms : list AtomStore.atom_dict) (d : AtomStore.db) :
  let r := AtomStore.create_atoms_batch md5_hex fault doc atoms d in
  (fault = true \/ atoms = [] -> r = (d, [])) /\
  (fault = false ->
   AtomStore.processing_atoms r.1
   = AtomStore.processing_atoms d
     ++ AtomStore.new_rows md5_hex doc (AtomStore.next_atom_id d) 0 atoms /\
   length r.2 = length atoms /\
   forall id, id ∈ r.2 ->
     exists row, row ∈ AtomStore.processing_atoms r.1 /\
                 AtomStore.atom_id row = id /\ AtomStore.doc_id row = doc).
Proof.
  unfold AtomStore.create_atoms_batch. split.
  - intros [-> | ->]; [by destruct atoms|done].
  - intros ->. destruct atoms as [|a atoms].
    { simpl. rewrite app_nil_r. split_and!; [done|done|].
      intros id H. by apply elem_of_nil in H. }
    set (all := a :: atoms). cbn [fst snd AtomStore.processing_atoms].
    set (rows := AtomStore.new_rows md5_hex doc _ 0 all).
    unfold AtomStore.select_atom_ids. cbn [AtomStore.processing_atoms].
    set (mine := filter _ (AtomStore.processing_atoms d ++ rows)).
    split_and!; [done| |].
    + apply last_n_length.
      rewrite length_map, (Permutation_length (order_by_position_perm mine)).
      subst mine rows. rewrite filter_app, length_app.
      rewrite (filter_all _ _ (new_rows_doc md5_hex doc _ 0 all)).
      rewrite new_rows_length. lia.
    + intros id Hid. apply last_n_elem in Hid.
      apply list_elem_of_fmap in Hid as (row & -> & Hrow).
      rewrite (order_by_position_perm mine) in Hrow.
      subst mine. apply list_elem_of_filter in Hrow as [Hdoc Hin].
      by exists row.
Qed.

(** ** Checking the terms against the table *)

Lemma forallb_true_Forall {A : Type} (f : A -> bool) (l : list A) :
  forallb f l = true -> Forall (fun x => f x = true) l.
Proof.
  induction l as [|x l IH]; simpl; [constructor|].
  intros [Hx Hl]%andb_prop. constructor; [done|by apply IH].
Qed.

Lemma forallb_false_elem {A : Type} (f : A -> bool) (l : list A) :
  forallb f l = false -> exists x, x ∈ l /\ f x = false.
Proof.
  induction l as [|x l IH]; simpl; [done|].
  destruct (f x) eqn:Hx; simpl.
  - intros Hl. destruct (IH Hl) as (y & Hy & Hf). exists y.
    split; [by right|done].
  - intros _. exists x. split; [by left|done].
Qed.

Section TermVerifyFacts.

Import TermVerify.

Context {R : Type}.
Variable update_other : R -> R -> R.
Variable terminology_db : gmap str (term_info R).
Variable clean : str -> str.
Variable reply : nat -> option (gmap nat (option str)).

Local Abbreviation T := (term_info R).
Local Abbreviation vstep := (verify_step update_other terminology_db).
Local Abbreviation vloop := (verify_loop update_other terminology_db).
Local Abbreviation enrich := (batch_enrich_terms_with_llm clean reply).
Local Abbreviation is_new := (fun t : T => known terminology_db t = None).

(** An entry stands for a term when it is a dictionary for the same term. *)
Definition stands_for (t : T) (v : option T) : Prop :=
  exists e, v = Some e /\ term e = term t.

(** The invariant of the first loop over the results read so far: every
    position holds a dictionary for its term or a placeholder listed in
    [new_terms_indices], the listed positions are those of the new
    terms, in order, and the new terms are the terms read that the table
    does not know. *)
Record verify_inv (seen : list T) (st : verify_state) : Prop := {
  vi_length : length (verified_results st) = length seen;
  vi_new :
    Forall2 (fun i t => seen !! i = Some t)
            (new_terms_indices st) (new_terms_to_enrich st);
  vi_each :
    forall i t, seen !! i = Some t ->
      exists v, verified_results st !! i = Some v /\
                (stands_for t v \/ i ∈ new_terms_indices st);
  vi_hash : Forall (fun t => term t <> TermUnhashable) seen;
  vi_unknown :
    forall t, t ∈ new_terms_to_enrich st <-> t ∈ seen /\ is_new t
}.

Lemma verify_step_inv seen st st' t :
  verify_inv seen st -> vstep st t = inl st' ->
  verify_inv (seen ++ [t]) st'.
Proof.
  intros [Hlen Hnew Heach Hhash Hunk] Hstep. unfold verify_step in Hstep.
  assert (Hold : forall i x, seen !! i = Some x -> (seen ++ [t]) !! i = Some x).
  { intros i x Hi. by apply lookup_app_l_Some. }
  assert (Ht : term t <> TermUnhashable).
  { intros Heq. rewrite Heq in Hstep. discriminate. }
  assert (Hstep' :
    match known terminology_db t with
    | Some entry =>
      inl (mk_verify_state
             (verified_results st ++ [Some (merged update_other entry t)])
             (new_terms_to_enrich st) (new_terms_indices st))
    | None =>
      inl (mk_verify_state
             (verified_results st ++ [None])
             (new_terms_to_enrich st ++ [t])
             (new_terms_indices st ++ [length (verified_results st)]))
    end = (inl st' : verify_state + error)).
  { by destruct (term t). }
  clear Hstep.
  destruct (known terminology_db t) as [entry|] eqn:Hknown;
    injection Hstep' as <-.
  - split; simpl.
    + rewrite !length_app. simpl. lia.
    + eapply Forall2_impl; [exact Hnew|]. intros i x. apply Hold.
    + intros i x Hi. apply lookup_app_Some in Hi as [Hi|[Hge Hi]].
      * destruct (Heach i x Hi) as (v & Hv & Hor).
        exists v. split; [by apply lookup_app_l_Some|done].
      * apply list_lookup_singleton_Some in Hi as [Hi0 <-].
        assert (i = length seen) as -> by lia.
        exists (Some (merged update_other entry t)). split.
        -- rewrite <- Hlen. by rewrite lookup_app_r, Nat.sub_diag by lia.
        -- left. eexists. split; [done|]. simpl.
           unfold known in Hknown. by destruct (term t).
    + apply Forall_app. split; [done|]. by constructor.
    + intros x. rewrite Hunk, elem_of_app, list_elem_of_singleton.
      split; [tauto|]. intros [[Hx| ->] Hn]; [done|]. congruence.
  - split; simpl.
    + rewrite !length_app. simpl. lia.
    + apply Forall2_app.
      * eapply Forall2_impl; [exact Hnew|]. intros i x. apply Hold.
      * constructor; [|constructor].
        rewrite Hlen. by rewrite lookup_app_r, Nat.sub_diag by lia.
    + intros i x Hi. apply lookup_app_Some in Hi as [Hi|[Hge Hi]].
      * destruct (Heach i x Hi) as (v & Hv & Hor).
        exists v. split; [by apply lookup_app_l_Some|].
        destruct Hor as [Hs|Hin]; [by left|right].
        apply elem_of_app. by left.
      * apply list_lookup_singleton_Some in Hi as [Hi0 <-].
        assert (i = length seen) as -> by lia.
        exists None. split.
        -- rewrite <- Hlen. by rewrite lookup_app_r, Nat.sub_diag by lia.
        -- right. apply elem_of_app. right. rewrite Hlen. by left.
    + apply Forall_app. split; [done|]. by constructor.
    + intros x. rewrite !elem_of_app, !list_elem_of_singleton, Hunk.
      split; [|tauto]. intros [Hx| ->]; [tauto|]. tauto.
Qed.

Lemma verify_loop_inv results : forall seen st,
  verify_inv seen st ->
  match vloop results st with
  | inl st' => verify_inv (seen ++ results) st'
  | inr _ => exists t, t ∈ results /\ term t = TermUnhashable
  end.
Proof.
  induction results as [|t results IH]; intros seen st Hinv; simpl.
  - by rewrite app_nil_r.
  - destruct (vstep st t) as [st'|e] eqn:Hstep.
    + replace (seen ++ t :: results) with ((seen ++ [t]) ++ results)
        by (by rewrite <- app_assoc).
      specialize (IH (seen ++ [t]) st' (verify_step_inv _ _ _ _ Hinv Hstep)).
      destruct (vloop results st'); [done|].
      destruct IH as (x & Hx & Hterm). exists x. split; [by right|done].
    + exists t. split; [by left|].
      unfold verify_step in Hstep.
      destruct (term t); try done;
        by destruct (known terminology_db t).
Qed.

(** The enrichment keeps the terms and their number. *)
Lemma enrich_term_term translation (t : T) :
  term (enrich_term translation t) = term t.
Proof. unfold enrich_term. by destruct (truthy _). Qed.

Lemma Forall2_term_refl (l : list T) :
  Forall2 (fun t e : T => term e = term t) l l.
Proof.
  apply Forall2_same_length_lookup_2; [done|].
  intros i x y Hx Hy. congruence.
Qed.

Lemma enrich_loop_terms m (l : list T) : forall idx,
  Forall2 (fun t e => term e = term t) l (enrich_loop clean m idx l).
Proof.
  induction l as [|t l IH]; intros idx; simpl; [constructor|].
  destruct (default (Some []) (m !! idx)) as [translation|].
  - constructor; [apply enrich_term_term|apply IH].
  - apply Forall2_term_refl.
Qed.

Lemma batch_enrich_terms (n : nat) (batch : list T) :
  match enrich n batch with
  | inl enriched =>
    Forall (fun t => context_sliceable t = true) batch /\
    Forall2 (fun t e => term e = term t) batch enriched
  | inr _ => exists t, t ∈ batch /\ context_sliceable t = false
  end.
Proof.
  unfold batch_enrich_terms_with_llm.
  destruct batch as [|t batch]; [split; constructor|].
  destruct (forallb context_sliceable (t :: batch)) eqn:Hall.
  - pose proof (forallb_true_Forall _ _ Hall) as Hs.
    destruct (reply n) as [m|]; [|split; [done|apply Forall2_term_refl]].
    destruct (bool_decide _); split; try done.
    + apply Forall2_term_refl.
    + apply enrich_loop_terms.
  - by apply forallb_false_elem.
Qed.

Lemma enrich_batches_terms (batches : list (list T)) : forall n,
  match enrich_batches clean reply n batches with
  | inl all_enriched =>
    Forall (fun t => context_sliceable t = true) (concat batches) /\
    Forall2 (fun t e => term e = term t) (concat batches) all_enriched
  | inr _ => exists t, t ∈ concat batches /\ context_sliceable t = false
  end.
Proof.
  induction batches as [|b batches IH]; intros n; simpl.
  - split; constructor.
  - pose proof (batch_enrich_terms n b) as Hb.
    destruct (enrich n b) as [enriched|e].
    + specialize (IH (S n)).
      destruct (enrich_batches clean reply (S n) batches) as [more|e].
      * destruct Hb as [Hb1 Hb2], IH as [IH1 IH2]. split.
        -- by apply Forall_app.
        -- by apply Forall2_app.
      * destruct IH as (t & Ht & Hc). exists t. split; [|done].
        apply elem_of_app. by right.
    + destruct Hb as (t & Ht & Hc). exists t. split; [|done].
      apply elem_of_app. by left.
Qed.

(** Filling the placeholders: an invariant over the indices still to be
    filled. *)
Lemma fill_inv seen : forall indices (enriched : list T) vr,
  length vr = length seen ->
  Forall2 (fun i e => exists t, seen !! i = Some t /\ term e = term t)
          indices enriched ->
  (forall i t, seen !! i = Some t ->
     exists v, vr !! i = Some v /\ (stands_for t v \/ i ∈ indices)) ->
  let vr' := fill indices enriched vr in
  length vr' = length seen /\
  forall i t, seen !! i = Some t -> exists v, vr' !! i = Some v /\ stands_for t v.
Proof.
  unfold fill.
  induction indices as [|idx indices IH]; intros enriched vr Hlen Hpairs Heach.
  - simpl. split; [done|]. intros i t Hi.
    destruct (Heach i t Hi) as (v & Hv & [Hs|Hin]); [by exists v|].
    by apply elem_of_nil in Hin.
  - inversion Hpairs as [|? e ? enriched' (t0 & Ht0 & Hterm) Hrest]; subst.
    simpl. apply IH; [by rewrite length_insert|done|].
    intros i t Hi. destruct (decide (i = idx)) as [->|Hne].
    + exists (Some e). split.
      * apply list_lookup_insert_eq. rewrite Hlen.
        by eapply lookup_lt_Some.
      * left. exists e. split; [done|]. congruence.
    + destruct (Heach i t Hi) as (v & Hv & Hor). exists v. split.
      * by rewrite list_lookup_insert_ne.
      * destruct Hor as [Hs|Hin]; [by left|right].
        apply elem_of_cons in Hin as [?|Hin]; [done|done].
Qed.

Lemma verify_and_enrich_spec (results : list T) :
  match verify_and_enrich_terminology update_other terminology_db clean
          reply results with
  | inl v =>
    Forall (accepted terminology_db) results /\
    length v = length results /\
    forall i t, results !! i = Some t ->
      exists e, v !! i = Some (Some e) /\ term e = term t
  | inr _ => exists t, t ∈ results /\ ~ accepted terminology_db t
  end.
Proof.
  unfold verify_and_enrich_terminology.
  assert (Hinit : verify_inv [] (mk_verify_state (R := R) [] [] [])).
  { split; simpl; [done|constructor| |constructor|].
    - intros i t Hi. done.
    - intros t. split; [intros Ht|intros [Ht _]]; by apply elem_of_nil in Ht. }
  pose proof (verify_loop_inv results [] _ Hinit) as Hloop.
  destruct (vloop results _) as [st|e].
  2:{ destruct Hloop as (t & Ht & Hterm). exists t. split; [done|].
      intros [Hh _]. done. }
  destruct Hloop as [Hlen Hnew Heach Hhash Hunk].
  simpl in Hlen, Hnew, Heach, Hhash, Hunk.
  assert (Hgoal :
    forall vr' : list (option T),
      Forall (fun t => has_len t = true /\ context_sliceable t = true)
             (new_terms_to_enrich st) ->
      (length vr' = length results /\
       forall i t, results !! i = Some t ->
                   exists v, vr' !! i = Some v /\ stands_for t v) ->
      Forall (accepted terminology_db) results /\
      length vr' = length results /\
      forall i t, results !! i = Some t ->
                  exists e, vr' !! i = Some (Some e) /\ term e = term t).
  { intros vr' Hok [Hl He]. split_and!; [|done|].
    - apply Forall_forall. intros t Ht. split.
      + by eapply Forall_forall in Hhash.
      + intros Hn. eapply Forall_forall in Hok; [exact Hok|].
        apply Hunk. done.
    - intros i t Hi.
      destruct (He i t Hi) as (v & Hv & e & -> & Hterm). by exists e. }
  destruct (new_terms_to_enrich st) as [|t0 new] eqn:Hnt.
  - apply Hgoal; [constructor|]. split; [done|]. intros i t Hi.
    destruct (Heach i t Hi) as (v & Hv & [Hs|Hin]); [by exists v|].
    apply Forall2_length in Hnew. simpl in Hnew.
    destruct (new_terms_indices st); [by apply elem_of_nil in Hin|done].
  - rewrite <- Hnt in *. clear Hnt.
    destruct (forallb has_len (new_terms_to_enrich st)) eqn:Hlens.
    2:{ apply forallb_false_elem in Hlens as (t & Ht & Hl).
        apply Hunk in Ht as [Ht Hn]. exists t. split; [done|].
        intros [_ Hacc]. destruct (Hacc Hn) as [Hl' _]. congruence. }
    apply forallb_true_Forall in Hlens.
    destruct (smart_chunk_by_chars_spec (term_text (R := R)) 3000
                (new_terms_to_enrich st)) as (Hconcat & _ & _).
    pose proof (enrich_batches_terms
                  (Chunker.smart_chunk_by_chars term_text 3000
                     (new_terms_to_enrich st)) 1) as Henr.
    rewrite Hconcat in Henr.
    destruct (enrich_batches clean reply 1 _) as [all_enriched|e].
    2:{ destruct Henr as (t & Ht & Hc).
        apply Hunk in Ht as [Ht Hn]. exists t. split; [done|].
        intros [_ Hacc]. destruct (Hacc Hn) as [_ Hc']. congruence. }
    destruct Henr as [Hctx Henr].
    apply Hgoal.
    + apply Forall_forall. intros t Ht. split.
      * by eapply Forall_forall in Hlens.
      * by eapply Forall_forall in Hctx.
    + apply fill_inv; [done| |done].
      apply Forall2_same_length_lookup_2.
      * rewrite (Forall2_length _ _ _ Hnew). by apply Forall2_length in Henr.
      * intros k i e Hi He.
        destruct (Forall2_lookup_l _ _ _ _ _ Hnew Hi) as (t & Ht & Hseen).
        destruct (Forall2_lookup_l _ _ _ _ _ Henr Ht) as (e' & He' & Hterm).
        rewrite He in He'. injection He' as <-. by exists t.
Qed.

End TermVerifyFacts.


(** ** The context windows of the translation chunks *)

Section ContextFacts.

Context {A : Type}.
Variable source_text : A -> str.
Variable token_count : A -> Z.
Variable is_untranslated : A -> bool.
Variable limit_is_token : bool.
Variable previous_line_count : Z.

Local Abbreviation cstep :=
  (Chunker.prep_step source_text token_count limit_is_token
     previous_line_count).
Local Abbreviation cloop :=
  (Chunker.prep_loop source_text token_count limit_is_token
     previous_line_count).
Local Abbreviation cfile :=
  (Chunker.prepare_file source_text token_count is_untranslated
     limit_is_token previous_line_count).

(** The window generated at the end of a prefix is the tail of that
    prefix. *)
Lemma generate_context_chunk_prefix (pre rest : list A) :
  Chunker.generate_context_chunk (pre ++ rest) previous_line_count
    (Z.of_nat (length pre))
  = drop (length pre - Z.to_nat previous_line_count) pre.
Proof.
  unfold Chunker.generate_context_chunk.
  destruct (Z.leb_spec previous_line_count 0) as [Hk|Hk]; simpl.
  - replace (Z.to_nat previous_line_count) with 0%nat by lia.
    rewrite Nat.sub_0_r. by rewrite drop_all.
  - destruct (Z.leb_spec (Z.of_nat (length pre)) 0) as [Hp|Hp].
    + destruct pre; simpl in *; [done|lia].
    + rewrite Nat2Z.id, take_app_length. f_equal. lia.
Qed.

(** A committed chunk of a file with its window and its path: the chunk is
    a run of the file's untranslated items, the window is made of the last
    [previous_line_count] untranslated items before it (all of them when
    there are fewer), and the path is the file's. *)
Definition window_of (file : str * list A) (c x : list A) (p : str) : Prop :=
  p = file.1 /\
  exists pre post,
    filter (fun it => is_untranslated it = true) file.2 = pre ++ c ++ post /\
    x = drop (length pre - Z.to_nat previous_line_count) pre.

Definition windows_of (files : list (str * list A))
  (c x : list A) (p : str) : Prop :=
  exists file, file ∈ files /\ window_of file c x p.

(** The invariant of the loop over the items of [file]: [done] is the part
    of the items already read and [emitted] the part already committed. *)
Record ctx_inv (files : list (str * list A)) (file : str * list A)
  (st : Chunker.prep_state) (done : list A) : Prop := {
  ci_windows :
    Forall3 (windows_of files) (Chunker.p_chunks st)
      (Chunker.p_context_chunks st) (Chunker.p_file_paths st);
  ci_emitted :
    exists emitted,
      emitted ++ Chunker.p_current_chunk st = done /\
      (Chunker.p_current_chunk st <> [] ->
       Chunker.p_chunk_start_idx st = Z.of_nat (length emitted))
}.

Lemma Forall3_snoc {B C D : Type} (P : B -> C -> D -> Prop) l k m x y z :
  Forall3 P l k m -> P x y z -> Forall3 P (l ++ [x]) (k ++ [y]) (m ++ [z]).
Proof.
  intros H1 H2. apply Forall3_app; [done|]. by repeat constructor.
Qed.

Lemma ctx_step_inv files file st done x rest :
  file ∈ files ->
  filter (fun it => is_untranslated it = true) file.2 = done ++ x :: rest ->
  ctx_inv files file st done ->
  ctx_inv files file
    (cstep (filter (fun it => is_untranslated it = true) file.2) file.1
       st (length done) x)
    (done ++ [x]).
Proof.
  intros Hin Hitems [Hw (emitted & Hdone & Hstart)].
  set (items := filter _ file.2) in *.
  destruct st as [chs ctx fps cur cl csi cc]. simpl in *.
  (* the window committed for the chunk being built *)
  assert (Hflush : cur <> [] ->
            windows_of files cur
              (Chunker.generate_context_chunk items previous_line_count csi)
              file.1).
  { intros Hne. exists file. split; [done|]. split; [done|].
    exists emitted, (x :: rest). split.
    - fold items. by rewrite Hitems, <- Hdone, <- app_assoc.
    - rewrite (Hstart Hne), Hitems, <- Hdone, <- app_assoc.
      apply generate_context_chunk_prefix. }
  (* the window committed for an over-long item *)
  assert (Hsingle :
            windows_of files [x]
              (Chunker.generate_context_chunk items previous_line_count
                 (Z.of_nat (length done)))
              file.1).
  { exists file. split; [done|]. split; [done|].
    exists done, rest. split; [done|].
    rewrite Hitems. apply generate_context_chunk_prefix. }
  unfold Chunker.prep_step, Chunker.prep_flush; simpl.
  destruct (Z.ltb_spec Chunker.MAX_CHUNK_CHARS (len (source_text x)))
    as [Hlong|Hshort].
  - destruct cur as [|y cur]; simpl.
    + split; simpl.
      * by apply Forall3_snoc.
      * exists (done ++ [x]). split; [by rewrite app_nil_r|done].
    + split; simpl.
      * apply Forall3_snoc; [|done]. apply Forall3_snoc; [done|].
        by apply Hflush.
      * exists (done ++ [x]). split; [by rewrite app_nil_r|done].
  - destruct cur as [|y cur]; simpl.
    + split; simpl; [done|].
      exists done. split; [done|]. intros _.
      rewrite app_nil_r in Hdone. by subst.
    + destruct (Z.ltb_spec Chunker.MAX_CHUNK_CHARS (cc + len (source_text x)))
        as [Hover|Hfit]; simpl.
      * split; simpl.
        -- apply Forall3_snoc; [done|]. by apply Hflush.
        -- exists done. split; [done|]. done.
      * split; simpl; [done|].
        exists emitted. split.
        -- by rewrite <- Hdone, <- app_assoc.
        -- intros _. by apply Hstart.
Qed.

Lemma ctx_loop_inv files file st done rest :
  file ∈ files ->
  filter (fun it => is_untranslated it = true) file.2 = done ++ rest ->
  ctx_inv files file st done ->
  ctx_inv files file
    (cloop (filter (fun it => is_untranslated it = true) file.2) file.1
       (length done) rest st)
    (done ++ rest).
Proof.
  intros Hin. revert st done.
  induction rest as [|x rest IH]; intros st done Hitems Hinv; simpl.
  - by rewrite app_nil_r.
  - replace (done ++ x :: rest) with ((done ++ [x]) ++ rest)
      by (by rewrite <- app_assoc).
    replace (S (length done)) with (length (done ++ [x]))
      by (rewrite length_app; simpl; lia).
    apply IH.
    + by rewrite <- app_assoc.
    + by apply ctx_step_inv with (rest := rest).
Qed.

Lemma ctx_file_acc files file acc :
  file ∈ files ->
  Forall3 (windows_of files) (Chunker.p_chunks acc)
    (Chunker.p_context_chunks acc) (Chunker.p_file_paths acc) ->
  let acc' := cfile acc file in
  Forall3 (windows_of files) (Chunker.p_chunks acc')
    (Chunker.p_context_chunks acc') (Chunker.p_file_paths acc').
Proof.
  intros Hin Hw. unfold Chunker.prepare_file.
  set (items := filter _ file.2).
  destruct (Chunker.nonempty items) eqn:Hne; [|done].
  set (st0 := Chunker.mk_prep_state _ _ _ _ _ _ _).
  assert (Hinv0 : ctx_inv files file st0 []).
  { subst st0. split; simpl; [done|]. exists []. done. }
  pose proof (ctx_loop_inv files file st0 [] items Hin eq_refl Hinv0) as Hinv.
  simpl in Hinv. fold items in Hinv.
  set (st := cloop items file.1 0%nat items st0) in *.
  destruct Hinv as [Hw' (emitted & Hdone & Hstart)].
  destruct (Chunker.p_current_chunk st) as [|y cur] eqn:Hcur; simpl.
  - done.
  - unfold Chunker.prep_flush; simpl. rewrite Hcur.
    apply Forall3_snoc; [done|].
    exists file. split; [done|]. split; [done|].
    exists emitted, []. split.
    + fold items. by rewrite app_nil_r.
    + rewrite (Hstart ltac:(congruence)).
      rewrite <- Hdone.
      apply generate_context_chunk_prefix.
Qed.

Lemma ctx_fold_acc files done_files todo acc :
  files = done_files ++ todo ->
  Forall3 (windows_of files) (Chunker.p_chunks acc)
    (Chunker.p_context_chunks acc) (Chunker.p_file_paths acc) ->
  let acc' := fold_left cfile todo acc in
  Forall3 (windows_of files) (Chunker.p_chunks acc')
    (Chunker.p_context_chunks acc') (Chunker.p_file_paths acc').
Proof.
  revert done_files acc.
  induction todo as [|f todo IH]; intros done_files acc Hfiles Hw; simpl.
  - done.
  - apply (IH (done_files ++ [f])).
    + by rewrite <- app_assoc.
    + apply ctx_file_acc; [|done].
      rewrite Hfiles. apply elem_of_app. right. by left.
Qed.

Lemma prepared_windows (files : list (str * list A)) :
  let r := Chunker.prepare_translation_chunks source_text token_count
             is_untranslated limit_is_token previous_line_count files in
  Forall3 (windows_of files) r.1.1 r.1.2 r.2.
Proof.
  unfold Chunker.prepare_translation_chunks. simpl.
  apply (ctx_fold_acc files [] files); [done|]. simpl. constructor.
Qed.

End ContextFacts.

(** The three lists returned by [_prepare_translation_chunks] are aligned:
    they have the same length, and at every position the chunk is a run of
    consecutive untranslated items of one file, the path is that file's
    path, and the context chunk consists of the untranslated items of the
    same file that come just before the chunk: the last
    [previous_line_count] of them, or all of them when there are fewer
    (none when the count is not positive).  A context never reaches into
    another file. *)
Theorem prepared_chunks_carry_their_context
  {A : Type} (source_text : A -> str) (token_count : A -> Z)
  (is_untranslated : A -> bool) (limit_is_token : bool)
  (previous_line_count : Z) (files : list (str * list A)) :
  let r := Chunker.prepare_translation_chunks source_text token_count
             is_untranslated limit_is_token previous_line_count files in
  length r.1.2 = length r.1.1 /\ length r.2 = length r.1.1 /\
  forall k c, r.1.1 !! k = Some c ->
    exists ctx path file pre post,
      r.1.2 !! k = Some ctx /\ r.2 !! k = Some path /\
      file ∈ files /\ path = file.1 /\
      filter (fun it => is_untranslated it = true) file.2
      = pre ++ c ++ post /\
      ctx = drop (length pre - Z.to_nat previous_line_count) pre.
Proof.
  intros r.
  pose proof (prepared_windows source_text token_count is_untranslated
                limit_is_token previous_line_count files) as Hw.
  fold r in Hw. split_and!.
  - symmetry. by eapply Forall3_length_lm.
  - symmetry. by eapply Forall3_length_lr.
  - intros k c Hk.
    destruct (Forall3_lookup_l _ _ _ _ _ _ Hw Hk)
      as (ctx & path & Hctx & Hpath & file & Hin & Hp & pre & post & Hf & Hx).
    by exists ctx, path, file, pre, post.
Qed.
